(** * RouteStorm: a weather-adjusted single-vehicle tour planner

    A shallow embedding of [RouteStorm.py].  Python floats are IEEE-754
    binary64 numbers and are modelled by Rocq's primitive [float]; Python
    exceptions are modelled by an error result; the C library functions
    behind [math.sin], [math.cos], [math.asin] and [**], the weather
    service behind [requests.get] and the OR-Tools routing solver are
    collaborators outside the repository and are taken as parameters. *)

From Stdlib Require Import ZArith String List Bool Lia Floats.
Import ListNotations.
Set Warnings "-inexact-float,-register-all".

(** ** Part I: the program *)

(** *** Python runtime: exceptions, sequences, loops *)

Inductive exn : Type :=
| IndexError | KeyError | ValueError | ZeroDivisionError | OverflowError | TypeError
| AttributeError | RuntimeError | ConnectionError | HTTPError | JSONDecodeError
| ParserError.

Inductive res (A : Type) : Type :=
| Ok (a : A)
| Raise (e : exn).
Arguments Ok {A} a.
Arguments Raise {A} e.

Definition bind {A B : Type} (c : res A) (k : A -> res B) : res B :=
  match c with
  | Ok a => k a
  | Raise e => Raise e
  end.

Notation "x <- c ;; k" := (bind c (fun x => k))
  (at level 61, c at next level, right associativity).

(** [l[i]] for a non-negative index. *)
Definition getitem {A : Type} (l : list A) (i : nat) : res A :=
  match nth_error l i with
  | Some x => Ok x
  | None => Raise IndexError
  end.

Fixpoint replace_nth {A : Type} (l : list A) (i : nat) (v : A) : list A :=
  match l, i with
  | [], _ => []
  | _ :: t, O => v :: t
  | h :: t, S i' => h :: replace_nth t i' v
  end.

(** [l[i] = v] for a non-negative index. *)
Definition setitem {A : Type} (l : list A) (i : nat) (v : A) : res (list A) :=
  if i <? length l then Ok (replace_nth l i v) else Raise IndexError.

Definition matrix : Type := list (list float).

(** [m[i][j]] *)
Definition getitem2 (m : matrix) (i j : nat) : res float :=
  row <- getitem m i ;; getitem row j.

(** [m[i][j] = v]: the row object [m[i]] is updated in place. *)
Definition setitem2 (m : matrix) (i j : nat) (v : float) : res matrix :=
  row <- getitem m i ;;
  row' <- setitem row j v ;;
  setitem m i row'.

(** [range(n)] *)
Definition range (n : nat) : list nat := seq 0 n.

(** [for x in xs: body], threading the variables the body assigns. *)
Fixpoint for_each {A S : Type} (xs : list A) (body : A -> S -> res S) (s : S) : res S :=
  match xs with
  | [] => Ok s
  | x :: rest => s' <- body x s ;; for_each rest body s'
  end.

(** [[[0.0]*n for _ in range(n)]]: every row is a fresh list. *)
Definition zeros (n : nat) : matrix := repeat (repeat 0%float n) n.

(** The loop skeleton shared by both matrix builders:
    [for i in range(n): for j in range(n): if i == j: continue; m[i][j] = cell(i, j)]. *)
Definition fill_off_diagonal (n : nat) (cell : nat -> nat -> res float) (m : matrix)
  : res matrix :=
  for_each (range n) (fun i m =>
    for_each (range n) (fun j m =>
      if i =? j then Ok m
      else v <- cell i j ;; setitem2 m i j v) m) m.

(** *** Floats as Python sees them *)

(** [a / b] on floats raises on a zero divisor. *)
Definition float_div (a b : float) : res float :=
  if (b =? 0)%float then Raise ZeroDivisionError else Ok (a / b)%float.

(** [max(a, b)]: the first argument is kept unless the second is greater. *)
Definition py_max (a b : float) : float :=
  if (a <? b)%float then b else a.

(** The wrapper CPython puts around a one-argument libm function
    ([math_1] with [can_overflow = 0]). *)
Definition math_1 (func : float -> float) (x : float) : res float :=
  let r := func x in
  if is_nan r && negb (is_nan x) then Raise ValueError
  else if is_infinity r && is_finite x then Raise ValueError
  else Ok r.

(** [math.radians]: multiplication by the double [pi / 180]. *)
Definition degToRad : float := Eval vm_compute in (3.141592653589793 / 180)%float.
Definition radians (x : float) : float := (x * degToRad)%float.

(** The platform's C library. *)
Record Libm : Type := {
  c_sin : float -> float;
  c_cos : float -> float;
  c_asin : float -> float;
  c_pow : float -> float -> float
}.

Definition math_sin (L : Libm) : float -> res float := math_1 (c_sin L).
Definition math_cos (L : Libm) : float -> res float := math_1 (c_cos L).
Definition math_asin (L : Libm) : float -> res float := math_1 (c_asin L).
(** C's [sqrt] is the correctly rounded IEEE operation. *)
Definition math_sqrt : float -> res float := math_1 PrimFloat.sqrt.

(** [iv ** 2] on a float, after CPython's [float_pow] with [iw = 2.0]:
    the special values are settled before libm is called, a negative base
    is replaced by its absolute value (the exponent is an even integer),
    and an infinite result of [pow] is a range error. *)
Definition float_pow2 (L : Libm) (iv : float) : res float :=
  if is_nan iv then Ok iv
  else if is_infinity iv then Ok (abs iv)
  else if (iv =? 0)%float then Ok 0%float
  else
    let iv := if (iv <? 0)%float then (- iv)%float else iv in
    if (iv =? 1)%float then Ok 1%float
    else
      let ix := c_pow L iv 2%float in
      if is_infinity ix then Raise OverflowError else Ok ix.

(** [int(round(x))]: round half to even, exactly. *)
Definition round_half_even (m e : Z) : Z :=
  if (0 <=? e)%Z then (m * 2 ^ e)%Z
  else
    let d := (2 ^ (- e))%Z in
    let q := (m / d)%Z in
    match (2 * (m mod d) ?= d)%Z with
    | Lt => q
    | Gt => (q + 1)%Z
    | Eq => if Z.even q then q else (q + 1)%Z
    end.

Definition py_round (x : float) : res Z :=
  match Prim2SF x with
  | S754_nan => Raise ValueError
  | S754_infinity _ => Raise OverflowError
  | S754_zero _ => Ok 0%Z
  | S754_finite s m e => Ok (cond_Zopp s (round_half_even (Z.pos m) e))
  end.

(** Numbers as JSON delivers them and Python compares them. *)
Inductive pynum : Type :=
| PyInt (z : Z)
| PyFloat (x : float).

(** The exact order between a float and an integer. *)
Definition float_cmp_int (x : float) (z : Z) : option comparison :=
  match Prim2SF x with
  | S754_nan => None
  | S754_infinity s => Some (if s then Lt else Gt)
  | S754_zero _ => Some (0 ?= z)%Z
  | S754_finite s m e =>
      let v := cond_Zopp s (Z.pos m) in
      if (0 <=? e)%Z then Some (v * 2 ^ e ?= z)%Z
      else Some (v ?= z * 2 ^ (- e))%Z
  end.

(** [a >= b] *)
Definition py_ge (a b : pynum) : bool :=
  match a, b with
  | PyInt x, PyInt y => (y <=? x)%Z
  | PyFloat x, PyFloat y => (y <=? x)%float
  | PyFloat x, PyInt y =>
      match float_cmp_int x y with Some (Gt | Eq) => true | _ => false end
  | PyInt x, PyFloat y =>
      match float_cmp_int y x with Some (Lt | Eq) => true | _ => false end
  end.

(** Truth value of a number: [x != 0]. *)
Definition truthy (v : pynum) : bool :=
  match v with
  | PyInt z => negb (z =? 0)%Z
  | PyFloat x => negb (x =? 0)%float
  end.

(** *** 1. The stops *)

Record Stop : Type := {
  name : string;
  lat : float;
  lon : float;
  when : option string
}.

Definition stops : list Stop := [
  {| name := "Depot"; lat := 41.1176; lon := -85.0689; when := Some "2025-11-10T08:00:00-05:00" |};
  {| name := "Stop A"; lat := 41.1802; lon := -84.9960; when := Some "2025-11-10T08:15:00-05:00" |};
  {| name := "Stop B"; lat := 41.0953; lon := -85.1394; when := Some "2025-11-10T08:30:00-05:00" |};
  {| name := "Stop C"; lat := 41.2281; lon := -85.0111; when := Some "2025-11-10T08:45:00-05:00" |}
]%string%float.

(** *** 2. Great-circle distance (km) *)

Definition haversine_km (L : Libm) (lat1 lon1 lat2 lon2 : float) : res float :=
  let R := 6371.0088%float in
  let dlat := radians (lat2 - lat1) in
  let dlon := radians (lon2 - lon1) in
  s1 <- math_sin L (dlat / 2) ;;
  h1 <- float_pow2 L s1 ;;
  c1 <- math_cos L (radians lat1) ;;
  c2 <- math_cos L (radians lat2) ;;
  s2 <- math_sin L (dlon / 2) ;;
  h2 <- float_pow2 L s2 ;;
  let a := (h1 + c1 * c2 * h2)%float in
  r <- math_sqrt a ;;
  t <- math_asin L r ;;
  Ok (2 * R * t)%float.

(** *** 3. Base travel-time matrix (minutes) *)

Definition base_minutes (L : Libm) (stops : list Stop) (assumed_speed_kph : float)
  (i j : nat) : res float :=
  si <- getitem stops i ;;
  sj <- getitem stops j ;;
  km <- haversine_km L (lat si) (lon si) (lat sj) (lon sj) ;;
  q <- float_div km assumed_speed_kph ;;
  Ok (q * 60)%float.

Definition build_base_time_matrix (L : Libm) (stops : list Stop)
  (assumed_speed_kph : float) : res matrix :=
  let n := length stops in
  let m := zeros n in
  fill_off_diagonal n (base_minutes L stops assumed_speed_kph) m.

(** *** 4. Weather lookup *)

(** What [r.json()] returns: [None], a [bool], an [int] or a [float], a
    [str], a [list] or a [dict] with string keys.  A [dict] is read by the
    first binding of a key. *)
Inductive json : Type :=
| JNull
| JBool (b : bool)
| JNum (x : pynum)
| JStr (s : string)
| JArr (items : list json)
| JObj (members : list (string * json)).

(** What [requests.get] can come back with: no response at all, or a
    response with a status code and a body that is JSON or is not. *)
Inductive reply : Type :=
| Unreachable
| Answer (status : nat) (body : option json).

(** The collaborators of the lookup: the date parser and the service. *)
Record World : Type := {
  parse_utc : string -> res (string * string);
  forecast : float -> float -> string -> reply
}.

Fixpoint lookup (key : string) (members : list (string * json)) : option json :=
  match members with
  | [] => None
  | (k, v) :: rest => if String.eqb k key then Some v else lookup key rest
  end.

(** [d.get(key, default)]: only a [dict] has the method. *)
Definition dict_get (d : json) (key : string) (default : json) : res json :=
  match d with
  | JObj members =>
      Ok (match lookup key members with Some v => v | None => default end)
  | _ => Raise AttributeError
  end.

(** The truth value of a JSON value. *)
Definition json_truthy (v : json) : bool :=
  match v with
  | JNull => false
  | JBool b => b
  | JNum x => truthy x
  | JStr s => match s with EmptyString => false | _ => true end
  | JArr items => match items with [] => false | _ => true end
  | JObj members => match members with [] => false | _ => true end
  end.

(** [a or b] *)
Definition py_or (a b : json) : json := if json_truthy a then a else b.

(** [item == key] for a string [key] *)
Definition eq_str (item : json) (key : string) : bool :=
  match item with
  | JStr s => String.eqb s key
  | _ => false
  end.

Fixpoint index_of (times : list json) (key : string) : option nat :=
  match times with
  | [] => None
  | t :: rest =>
      if eq_str t key then Some O
      else option_map S (index_of rest key)
  end.

(** [times.index(key)] for a string [key]: the position of the first
    entry of a [list] equal to it, or of the first occurrence in a [str];
    [ValueError] when there is none; no other value has the method. *)
Definition py_index (times : json) (key : string) : res nat :=
  match times with
  | JArr items =>
      match index_of items key with
      | Some idx => Ok idx
      | None => Raise ValueError
      end
  | JStr s =>
      match String.index 0 key s with
      | Some idx => Ok idx
      | None => Raise ValueError
      end
  | _ => Raise AttributeError
  end.

(** [v[idx]] for a non-negative [int] index: an entry of a [list], a
    character of a [str]; a [dict] of a JSON document has no [int] key,
    and the other values cannot be subscripted. *)
Definition subscript (v : json) (idx : nat) : res json :=
  match v with
  | JArr items => getitem items idx
  | JStr s =>
      match String.get idx s with
      | Some c => Ok (JStr (String c EmptyString))
      | None => Raise IndexError
      end
  | JObj _ => Raise KeyError
  | _ => Raise TypeError
  end.

(** [(data.get(field) or [0])[idx] or 0] *)
Definition series_at (data : json) (field : string) (idx : nat) : res json :=
  series <- dict_get data field JNull ;;
  v <- subscript (py_or series (JArr [JNum (PyInt 0)])) idx ;;
  Ok (py_or v (JNum (PyInt 0))).

(** The operand of [>=] against a number: an [int] or a [float], a [bool]
    as the integer it is; for any other value the comparison raises
    [TypeError]. *)
Definition as_number (v : json) : res pynum :=
  match v with
  | JNum x => Ok x
  | JBool b => Ok (PyInt (if b then 1 else 0))
  | _ => Raise TypeError
  end.

(** *** 5. Weather to factor *)

Definition weather_factor (precip snow wind gust : pynum) : float :=
  let factor := 1.0%float in
  let factor := if py_ge precip (PyFloat 0.5) then (factor + 0.10)%float else factor in
  let factor := if py_ge precip (PyFloat 5.0) then (factor + 0.10)%float else factor in
  let factor := if py_ge snow (PyFloat 0.1) then (factor + 0.20)%float else factor in
  let factor := if py_ge snow (PyFloat 1.0) then (factor + 0.30)%float else factor in
  let factor := if py_ge wind (PyInt 30) then (factor + 0.05)%float else factor in
  let factor := if py_ge gust (PyInt 50) then (factor + 0.10)%float else factor in
  factor.

Definition raise_for_status (status : nat) : res unit :=
  if (400 <=? status) && (status <? 600) then Raise HTTPError else Ok tt.

(** Lines 74 to 83 compare [precip], [snow], [wind] and [gust], in this
    order, with numbers: the first of them that is not a number ends the
    lookup with [TypeError], and nothing else can fail there. *)
Definition get_weather_factor (W : World) (lat lon : float) (when_iso : option string)
  : res float :=
  match when_iso with
  | None => Raise TypeError
  | Some w =>
      dt <- parse_utc W w ;;
      let date_str := fst dt in
      let hour_str := snd dt in
      match forecast W lat lon date_str with
      | Unreachable => Raise ConnectionError
      | Answer status body =>
          _ <- raise_for_status status ;;
          match body with
          | None => Raise JSONDecodeError
          | Some obj =>
              data <- dict_get obj "hourly" (JObj []) ;;
              times <- dict_get data "time" (JArr []) ;;
              match py_index times (date_str ++ "T" ++ hour_str)%string with
              | Raise ValueError => Ok 1.0%float
              | Raise e => Raise e
              | Ok idx =>
                  precip <- series_at data "precipitation" idx ;;
                  snow <- series_at data "snowfall" idx ;;
                  wind <- series_at data "wind_speed_10m" idx ;;
                  gust <- series_at data "wind_gusts_10m" idx ;;
                  precip <- as_number precip ;;
                  snow <- as_number snow ;;
                  wind <- as_number wind ;;
                  gust <- as_number gust ;;
                  Ok (weather_factor precip snow wind gust)
              end
          end
      end
  end.

(** [s.get("when") or default_when] *)
Definition when_or (w default_when : option string) : option string :=
  match w with
  | Some ""%string => default_when
  | Some x => Some x
  | None => default_when
  end.

Definition get_stop_weather_factors (W : World) (stops : list Stop) : res (list float) :=
  s0 <- getitem stops 0 ;;
  let default_when := when s0 in
  for_each stops (fun s factors =>
    let when_iso := when_or (when s) default_when in
    f <- get_weather_factor W (lat s) (lon s) when_iso ;;
    Ok (factors ++ [f])) [].

(** *** 6. Weather-adjusted time matrix *)

Definition adjusted_minutes (base_matrix : matrix) (node_factors : list float)
  (i j : nat) : res float :=
  b <- getitem2 base_matrix i j ;;
  fi <- getitem node_factors i ;;
  fj <- getitem node_factors j ;;
  Ok (b * py_max fi fj)%float.

Definition apply_weather_to_matrix (base_matrix : matrix) (node_factors : list float)
  : res matrix :=
  let n := length base_matrix in
  let m := zeros n in
  fill_off_diagonal n (adjusted_minutes base_matrix node_factors) m.

(** *** 7. The tour *)

(** [RoutingIndexManager(n, 1, start_index)]: indices [0 .. n-1] are the
    nodes, index [n] is the end of the single vehicle's route and stands
    for the start node again. *)
Record RoutingIndexManager : Type := { num_nodes : nat; depot : nat }.

Definition IndexToNode (manager : RoutingIndexManager) (index : nat) : nat :=
  if index <? num_nodes manager then index else depot manager.
Definition Start (manager : RoutingIndexManager) : nat := depot manager.
Definition IsEnd (manager : RoutingIndexManager) (index : nat) : bool :=
  num_nodes manager <=? index.

(** The routing solver: from the index manager and the arc cost
    evaluator to the values of the [NextVar]s of a solution, if it finds
    one within its time limit. *)
Definition Solver : Type :=
  RoutingIndexManager -> (nat -> nat -> res Z) -> option (nat -> nat).

Definition time_callback (time_matrix : matrix) (manager : RoutingIndexManager)
  (from_index to_index : nat) : res Z :=
  let i := IndexToNode manager from_index in
  let j := IndexToNode manager to_index in
  x <- getitem2 time_matrix i j ;;
  py_round (x * 100)%float.

(** [while not routing.IsEnd(idx): idx = solution.Value(routing.NextVar(idx));
    order.append(manager.IndexToNode(idx))]; [None] when the fuel runs out. *)
Fixpoint extract_route (fuel : nat) (manager : RoutingIndexManager)
  (solution : nat -> nat) (idx : nat) (order : list nat) : option (list nat) :=
  if IsEnd manager idx then Some order
  else
    match fuel with
    | O => None
    | S fuel' =>
        let idx := solution idx in
        extract_route fuel' manager solution idx (order ++ [IndexToNode manager idx])
    end.

(** [for a, b in zip(order[:-1], order[1:]): total_minutes += time_matrix[a][b]] *)
Definition legs (order : list nat) : list (nat * nat) :=
  combine (removelast order) (tl order).

Definition total_minutes (time_matrix : matrix) (order : list nat) : res float :=
  for_each (legs order) (fun ab total =>
    x <- getitem2 time_matrix (fst ab) (snd ab) ;;
    Ok (total + x)%float) 0%float.

Definition solve_tsp (solver : Solver) (fuel : nat) (time_matrix : matrix)
  (start_index : nat) : option (res (list nat * float)) :=
  let n := length time_matrix in
  let manager := {| num_nodes := n; depot := start_index |} in
  match solver manager (time_callback time_matrix manager) with
  | None => Some (Raise RuntimeError)
  | Some solution =>
      let idx := Start manager in
      match extract_route fuel manager solution idx [IndexToNode manager idx] with
      | None => None
      | Some order =>
          Some (total <- total_minutes time_matrix order ;; Ok (order, total))
      end
  end.

(** *** Shapes and entries of matrices *)

Definition entry (m : matrix) (i j : nat) : option float :=
  match nth_error m i with
  | Some row => nth_error row j
  | None => None
  end.

Definition is_square (n : nat) (m : matrix) : Prop :=
  length m = n /\ Forall (fun row => length row = n) m.

(** The matrices of the data model: square, zero on the diagonal, no
    negative entry. *)
Definition nonneg_matrix (m : matrix) : Prop :=
  forall i j x, entry m i j = Some x -> (0 <=? x)%float = true.

Definition zero_diagonal (n : nat) (m : matrix) : Prop :=
  forall i, i < n -> exists d, entry m i i = Some d /\ (d =? 0)%float = true.

Definition TimeMatrix (n : nat) (m : matrix) : Prop :=
  is_square n m /\ zero_diagonal n m /\ nonneg_matrix m.

(** *** Reading binary64 numbers as integers

    [val m e] is the value [m * 2^e] scaled by [2^bias]; every exponent
    the binary64 operations handle stays above [- bias], so the scaled
    values are integers.  [trunc m e] drops the bits of [m * 2^e] below
    the exponent binary64 gives to a number of that magnitude. *)

Definition bias : Z := 2200.
Definition val (m e : Z) : Z := (m * 2 ^ (e + bias))%Z.
Definition trunc (m e : Z) : Z * Z :=
  let k := (fexp prec emax (Zdigits2 m + e) - e)%Z in
  if (0 <? k)%Z then (m / 2 ^ k, e + k)%Z else (m, e).
Definition SF1 : spec_float := S754_finite false 4503599627370496 (-52).

(** Decidable forms of the matrix predicates, for concrete matrices. *)
Definition is_square_b (n : nat) (m : matrix) : bool :=
  (length m =? n) && forallb (fun row => length row =? n) m.

Definition nonneg_matrix_b (m : matrix) : bool :=
  forallb (forallb (fun x => (0 <=? x)%float)) m.

Definition zero_diagonal_b (n : nat) (m : matrix) : bool :=
  forallb (fun i => match entry m i i with
                    | Some d => (d =? 0)%float
                    | None => false
                    end) (seq 0 n).

Definition factors_ok_b (factors : list float) : bool :=
  forallb (fun f => (1 <=? f)%float && is_finite f) factors.

(** *** Concrete inputs used below *)

(** Two stops at one place: every base time is zero. *)
Definition colocated_base : matrix := [[0; 0]; [0; 0]]%float.
Definition unbounded_factors : list float := [infinity; 1%float].

(** Three stops, the first two at one place. *)
Definition triangle_base : matrix := [[0; 0; 5]; [0; 0; 5]; [5; 5; 0]]%float.
Definition triangle_factors : list float := [infinity; 1; 1]%float.

Definition sample_base : matrix := [[0; 12.5]; [12.5; 0]]%float.
Definition sample_factors : list float := [1.0; 1.3]%float.
Definition neutral_factors : list float := [1; 1]%float.

(** The penalty a threshold contributes: its amount when the threshold is
    met, nothing otherwise. *)
Definition penalty (met : bool) (amount : float) : float :=
  if met then amount else 0%float.

(** A service that cannot be reached. *)
Definition offline_world : World :=
  {| parse_utc := fun _ => Ok ("2025-11-10", "13:00")%string;
     forecast := fun _ _ _ => Unreachable |}.

(** A service that answers with an error status. *)
Definition failing_world : World :=
  {| parse_utc := fun _ => Ok ("2025-11-10", "13:00")%string;
     forecast := fun _ _ _ => Answer 503 None |}.

(** A forecast that lacks the requested hour. *)
Definition stale_world : World :=
  {| parse_utc := fun _ => Ok ("2025-11-10", "13:00")%string;
     forecast := fun _ _ _ =>
       Answer 200 (Some (JObj [("hourly", JObj [
            ("time", JArr [JStr "2025-11-10T00:00"; JStr "2025-11-10T01:00"]);
            ("precipitation", JArr [JNum (PyFloat 0.0); JNum (PyFloat 0.0)]);
            ("snowfall", JArr [JNum (PyFloat 0.0); JNum (PyFloat 0.0)]);
            ("wind_speed_10m", JArr [JNum (PyFloat 7.9); JNum (PyFloat 8.4)]);
            ("wind_gusts_10m", JArr [JNum (PyFloat 16.2); JNum (PyFloat 18.0)])])]))%string |}.

(** A forecast whose ["time"] member is [null]. *)
Definition null_time_world : World :=
  {| parse_utc := fun _ => Ok ("2025-11-10", "13:00")%string;
     forecast := fun _ _ _ =>
       Answer 200 (Some (JObj [("hourly", JObj [("time", JNull)])]))%string |}.

(** A winter storm at the requested hour: every threshold is met. *)
Definition storm_world : World :=
  {| parse_utc := fun _ => Ok ("2025-11-10", "13:00")%string;
     forecast := fun _ _ _ =>
       Answer 200 (Some (JObj [("hourly", JObj [
            ("time", JArr [JStr "2025-11-10T12:00"; JStr "2025-11-10T13:00"]);
            ("precipitation", JArr [JNum (PyFloat 0.2); JNum (PyFloat 5.0)]);
            ("snowfall", JArr [JNull; JNum (PyFloat 1.0)]);
            ("wind_speed_10m", JArr [JNum (PyFloat 12.0); JNum (PyInt 30)]);
            ("wind_gusts_10m", JArr [JNum (PyFloat 20.5); JNum (PyInt 50)])])]))%string |}.

(** The largest factor the rule set can produce: the binary64 sum
    [1.0 + 0.10 + 0.10 + 0.20 + 0.30 + 0.05 + 0.10], taken left to right.
    It is the double after 1.85. *)
Definition max_factor : float := 1.8500000000000003%float.

(** The lookups of a stop list, one after the other, until one raises. *)
Fixpoint collect {A : Type} (cs : list (res A)) : res (list A) :=
  match cs with
  | [] => Ok []
  | c :: rest => a <- c ;; l <- collect rest ;; Ok (a :: l)
  end.

(** *** The routing solver's contract

    A solution of the routing model for the single vehicle over [n]
    nodes: following the [NextVar]s from an index runs through indices
    below [n] and then reaches the end index [n]; from the start index
    that route visits every node exactly once. *)
Inductive route_from (n : nat) (next : nat -> nat) : nat -> list nat -> Prop :=
| route_last (i : nat) :
    i < n -> next i = n -> route_from n next i [i]
| route_step (i : nat) (p : list nat) :
    i < n -> route_from n next (next i) p -> route_from n next i (i :: p).

Definition routing_solution (n start : nat) (next : nat -> nat) : Prop :=
  exists p, route_from n next start p /\ NoDup p /\ forall i, i < n -> In i p.

(** The sum of the matrix entries along the consecutive pairs of a tour,
    taken in tour order from [acc]. *)
Fixpoint tour_cost (time_matrix : matrix) (tour : list nat) (acc : float) : option float :=
  match tour with
  | a :: (b :: _) as rest =>
      match entry time_matrix a b with
      | Some x => tour_cost time_matrix rest (acc + x)%float
      | None => None
      end
  | _ => Some acc
  end.

(** A solver that visits the nodes in index order. *)
Definition index_order_solver : Solver := fun _ _ => Some S.
Definition sample_times : matrix := [[0; 7.5; 9]; [7.5; 0; 4.25]; [9; 4.25; 0]]%float.

(** A binary64 number that is not [nan] and carries the sign [s]. *)
Definition SF_signed (s : bool) (x : spec_float) : Prop :=
  match x with
  | S754_zero s' | S754_infinity s' | S754_finite s' _ _ => s' = s
  | S754_nan => False
  end.

(** A finite binary64 number whose exponent is at most [b]. *)
Definition SF_expo_le (b : Z) (x : spec_float) : Prop :=
  match x with
  | S754_zero _ => True
  | S754_finite _ _ e => (e <= b)%Z
  | _ => False
  end.

Definition expo_le (b : Z) (x : float) : Prop := SF_expo_le b (Prim2SF x).

(** A binary64 number that is not below zero. *)
Definition SF_nonneg (x : spec_float) : Prop :=
  match x with
  | S754_zero _ | S754_finite false _ _ | S754_infinity false => True
  | _ => False
  end.

(** The order of binary64 numbers, read off a key: the class (below
    zero, zero, above zero, with the infinities at the ends), then the
    exponent, then the mantissa, the last two negated below zero. *)
Definition SF_key (x : spec_float) : Z * Z * Z :=
  match x with
  | S754_zero _ | S754_nan => (0, 0, 0)%Z
  | S754_infinity false => (2, 0, 0)%Z
  | S754_infinity true => (-2, 0, 0)%Z
  | S754_finite false m e => (1, e, Z.pos m)%Z
  | S754_finite true m e => (-1, - e, Z.neg m)%Z
  end.

Definition key_le (a b : Z * Z * Z) : Prop :=
  let '(a1, a2, a3) := a in
  let '(b1, b2, b3) := b in
  (a1 < b1 \/ (a1 = b1 /\ (a2 < b2 \/ (a2 = b2 /\ a3 <= b3))))%Z.

(** *** The contract of the C library

    What the program relies on: [sin] and [cos] stay within [-1, 1]
    wherever they are defined, a square of a number in (0, 1) stays in
    [0, 1], [asin] of a number that is not negative is undefined or
    within [0, 2], and [sin] is an odd function that keeps zero. *)
Record libm_sane (L : Libm) : Prop := {
  sin_range : forall x,
    is_nan (c_sin L x) = true
    \/ ((-1 <=? c_sin L x)%float = true /\ (c_sin L x <=? 1)%float = true);
  cos_range : forall x,
    is_nan (c_cos L x) = true
    \/ ((-1 <=? c_cos L x)%float = true /\ (c_cos L x <=? 1)%float = true);
  pow_range : forall x,
    (0 <? x)%float = true -> (x <? 1)%float = true ->
    (0 <=? c_pow L x 2)%float = true /\ (c_pow L x 2 <=? 1)%float = true;
  asin_range : forall x,
    (0 <=? x)%float = true ->
    is_nan (c_asin L x) = true
    \/ ((0 <=? c_asin L x)%float = true /\ (c_asin L x <=? 2)%float = true)
}.

Definition sin_odd (L : Libm) : Prop :=
  forall x, c_sin L (- x)%float = (- c_sin L x)%float.

(** The coordinates of the data model. *)
Definition legal_coordinates (s : Stop) : Prop :=
  (-90 <=? lat s)%float = true /\ (lat s <=? 90)%float = true
  /\ (-180 <=? lon s)%float = true /\ (lon s <=? 180)%float = true.

Definition legal_coordinates_b (s : Stop) : bool :=
  (-90 <=? lat s)%float && (lat s <=? 90)%float
  && (-180 <=? lon s)%float && (lon s <=? 180)%float.

(** The haversine of a difference of degrees: [sin(radians(d) / 2) ** 2]. *)
Definition hav (L : Libm) (d : float) : res float :=
  s <- math_sin L (radians d / 2) ;; float_pow2 L s.

(** A C library for small angles: [sin x] and [asin x] are [x] up to
    magnitude 1 and undefined beyond, [cos x] is 1, and a square is the
    rounded product, capped at 1. *)
Definition small_angle : Libm :=
  {| c_sin := fun x => if (abs x <=? 1)%float then x else nan;
     c_cos := fun _ => 1%float;
     c_asin := fun x => if (abs x <=? 1)%float then x else nan;
     c_pow := fun x _ => let r := (x * x)%float in if (r <=? 1)%float then r else 1%float |}.

Definition depot_only : list Stop :=
  [{| name := "Depot"; lat := 41.1176; lon := -85.0689;
      when := Some "2025-11-10T08:00:00-05:00"%string |}]%float.

(** The base matrix of the program's stops at 35 km/h under [small_angle]. *)
Definition sample_base_matrix : matrix :=
  Eval vm_compute in
    match build_base_time_matrix small_angle stops 35 with
    | Ok m => m
    | Raise _ => []
    end.

(** *** 8. Put it all together *)

(** [for k in order: print(k, stops[k]["name"])]: the lines of the visit
    order, one per entry of the tour. *)
Definition visit_lines (stops : list Stop) (order : list nat) : res (list (nat * string)) :=
  for_each order (fun k lines =>
    s <- getitem stops k ;; Ok (lines ++ [(k, name s)])) [].

(** The last section of the script, for a list of stops: the base matrix
    at 35 km/h, the factors, the adjusted matrix and the tour from stop 0.
    The values it prints are returned: the lines of the visit order, the
    total and the factors (the rounding of the last two for display is
    left out). *)
Definition main (L : Libm) (W : World) (solver : Solver) (fuel : nat) (stops : list Stop)
  : option (res (list (nat * string) * float * list float)) :=
  match build_base_time_matrix L stops 35.0 with
  | Raise e => Some (Raise e)
  | Ok base =>
      match get_stop_weather_factors W stops with
      | Raise e => Some (Raise e)
      | Ok factors =>
          match apply_weather_to_matrix base factors with
          | Raise e => Some (Raise e)
          | Ok weather_adj =>
              match solve_tsp solver fuel weather_adj 0 with
              | None => None
              | Some (Raise e) => Some (Raise e)
              | Some (Ok (order, total_min)) =>
                  Some (lines <- visit_lines stops order ;;
                        Ok (lines, total_min, factors))
              end
          end
      end
  end.

(** *** Further notions used in the statements *)

(** [data.get(field) or [0]] for the members of a [dict]. *)
Definition series_of (members : list (string * json)) (field : string) : json :=
  py_or (match lookup field members with Some v => v | None => JNull end)
        (JArr [JNum (PyInt 0)]).

(** A series as the service documents it: an array of numbers and
    [null]s. *)
Definition reading (v : json) : Prop :=
  match v with
  | JNull | JNum _ => True
  | _ => False
  end.

Definition readings (series : json) : Prop :=
  match series with
  | JArr items => Forall reading items
  | _ => False
  end.

(** The number of entries of a series. *)
Definition series_len (series : json) : nat :=
  match series with
  | JArr items => length items
  | _ => 0
  end.

(** A factor the rule set can produce: finite, between 1.0 and [max_factor]. *)
Definition factor_in_range (f : float) : Prop :=
  (1 <=? f)%float = true /\ (f <=? max_factor)%float = true /\ is_finite f = true.

(** [m[i][j] == m[j][i]] for all [i] and [j] below [n]. *)
Definition symmetric (n : nat) (m : matrix) : Prop :=
  forall i j, i < n -> j < n ->
    exists x y, entry m i j = Some x /\ entry m j i = Some y /\ (x =? y)%float = true.

(** The requested hour is not in ["time"]: not an entry of the array, or
    not a part of the string. *)
Definition lacks_hour (times : json) (key : string) : Prop :=
  match times with
  | JArr items => ~ In (JStr key) items
  | JStr s => String.index 0 key s = None
  | _ => False
  end.

Definition is_object (v : json) : bool :=
  match v with
  | JObj _ => true
  | _ => false
  end.

(** The values that have an [index] method: arrays and strings. *)
Definition has_index (v : json) : bool :=
  match v with
  | JArr _ | JStr _ => true
  | _ => false
  end.

(** The lookup of a stop in a stop list that begins with [s0]. *)
Definition stop_lookup (W : World) (s0 s : Stop) : res float :=
  get_weather_factor W (lat s) (lon s) (when_or (when s) (when s0)).

(** A forecast that holds the requested hour in second place and has no
    precipitation series. *)
Definition sparse_world : World :=
  {| parse_utc := fun _ => Ok ("2025-11-10", "13:00")%string;
     forecast := fun _ _ _ =>
       Answer 200 (Some (JObj [("hourly", JObj [
            ("time", JArr [JStr "2025-11-10T12:00"; JStr "2025-11-10T13:00"]);
            ("snowfall", JArr [JNum (PyFloat 0.0); JNum (PyFloat 0.0)]);
            ("wind_speed_10m", JArr [JNum (PyFloat 7.9); JNum (PyFloat 8.4)]);
            ("wind_gusts_10m", JArr [JNum (PyFloat 16.2); JNum (PyFloat 18.0)])])]))%string |}.

(** Stops of which only the first says when it is visited. *)
Definition untimed_stops : list Stop := [
  {| name := "Depot"; lat := 41.1176; lon := -85.0689; when := Some "2025-11-10T08:00:00-05:00" |};
  {| name := "Stop A"; lat := 41.1802; lon := -84.9960; when := None |};
  {| name := "Stop B"; lat := 41.0953; lon := -85.1394; when := Some "" |}
]%string%float.

(** Two stops at one place. *)
Definition twin_stops : list Stop := [
  {| name := "Dock 1"; lat := 41.1176; lon := -85.0689; when := Some "2025-11-10T08:00:00-05:00" |};
  {| name := "Dock 2"; lat := 41.1176; lon := -85.0689; when := Some "2025-11-10T08:05:00-05:00" |}
]%string%float.

(** *** Rounding to nearest on integers *)

(** [x / u] rounded to the nearest integer, ties to the even one. *)
Definition nearest_even (x u : Z) : Z :=
  let q := (x / u)%Z in
  match (2 * (x mod u) ?= u)%Z with
  | Lt => q
  | Gt => (q + 1)%Z
  | Eq => if Z.even q then q else (q + 1)%Z
  end.

(** What a shift record holds once [x] is shifted right by [j] bits: the
    quotient, and in its two bits where the remainder lies with respect
    to half of [2^j]. *)
Definition shr_stands_for (x j : Z) (r : shr_record) : Prop :=
  let rest := (x - shr_m r * 2 ^ j)%Z in
  (0 <= rest < 2 ^ j)%Z
  /\ (shr_r r, shr_s r) =
     match (2 * rest ?= 2 ^ j)%Z with
     | Lt => (false, negb (rest =? 0)%Z)
     | Eq => (true, false)
     | Gt => (true, true)
     end.

(** The unit of the binary64 grid around a value of magnitude [d] (a
    value below [2^d]), scaled like [val]. *)
Definition grid_unit (d : Z) : Z := (2 ^ (fexp prec emax d + bias))%Z.

(** Factors of a clear day and of rain at the second stop, and the times
    [sample_times] adjusted by the latter. *)
Definition clear_sky : list float := [1; 1; 1]%float.
Definition rain_at_second : list float := [1; 1.3; 1]%float.
Definition rainy_times : matrix :=
  [[0; 9.75; 9]; [9.75; 0; 0x1.619999999999ap+2]; [9; 0x1.619999999999ap+2; 0]]%float.

(** *** Cheapest tours

    A closed tour from [start] over [n] nodes: every node once, beginning
    with [start], and [start] again at the end. *)
Definition closed_tour (n start : nat) (order : list nat) : Prop :=
  exists p, order = p ++ [start] /\ hd_error p = Some start /\ NoDup p
            /\ forall i, In i p <-> i < n.

(** A cheapest closed tour of a matrix: no closed tour has a smaller
    total. *)
Definition optimal_tour (n start : nat) (time_matrix : matrix) (order : list nat) : Prop :=
  closed_tour n start order
  /\ forall order' total total',
       closed_tour n start order' ->
       total_minutes time_matrix order = Ok total ->
       total_minutes time_matrix order' = Ok total' ->
       (total' <? total)%float = false.

(** *** Numbers on the extended line

    The value of a Python number, scaled like [val]: an integer, one of
    the two infinities, or no number at all. *)
Inductive xnum : Type :=
| NegInf
| Fin (z : Z)
| PosInf
| NotANumber.

Definition SF_value (x : spec_float) : xnum :=
  match x with
  | S754_nan => NotANumber
  | S754_infinity s => if s then NegInf else PosInf
  | S754_zero _ => Fin 0
  | S754_finite s m e => Fin (cond_Zopp s (val (Z.pos m) e))
  end.

Definition py_value (v : pynum) : xnum :=
  match v with
  | PyInt z => Fin (z * 2 ^ bias)
  | PyFloat x => SF_value (Prim2SF x)
  end.

Definition xle (a b : xnum) : Prop :=
  match a, b with
  | NotANumber, _ | _, NotANumber => False
  | NegInf, _ => True
  | _, PosInf => True
  | Fin x, Fin y => (x <= y)%Z
  | _, _ => False
  end.

(** ** Part II: binary64 arithmetic *)

Section Binary64.
Local Open Scope Z_scope.

Lemma fexp_unfold e : fexp prec emax e = Z.max (e - 53) (-1074).
Proof. reflexivity. Qed.

Lemma digits2_pos_size p : digits2_pos p = Pos.size p.
Proof. induction p; simpl; congruence. Qed.

Lemma Zdigits2_bounds m :
  0 < m -> 0 < Zdigits2 m /\ 2 ^ (Zdigits2 m - 1) <= m < 2 ^ Zdigits2 m.
Proof.
  destruct m as [|p|p]; try lia. intros _. simpl Zdigits2.
  rewrite digits2_pos_size. split; [lia|].
  pose proof (Pos.size_gt p) as Hgt. pose proof (Pos.size_le p) as Hle.
  apply Pos2Z.pos_lt_pos in Hgt. apply Pos2Z.pos_le_pos in Hle.
  rewrite Pos2Z.inj_pow in Hgt, Hle.
  replace (Z.pos (Pos.size p)) with (Z.succ (Z.pos (Pos.size p) - 1)) in Hle by lia.
  rewrite Z.pow_succ_r in Hle by lia.
  rewrite (Pos2Z.inj_xO p) in Hle. lia.
Qed.

Lemma Zdigits2_le m d : 0 < m -> m < 2 ^ d -> Zdigits2 m <= d.
Proof.
  intros Hm Hd. destruct (Zdigits2_bounds m Hm) as (Hp & Hlo & _).
  destruct (Z_le_gt_dec (Zdigits2 m) d) as [|Hgt]; [assumption|exfalso].
  assert (0 <= d) by (destruct d; try lia; simpl in Hd; lia).
  assert (2 ^ d <= 2 ^ (Zdigits2 m - 1)) by (apply Z.pow_le_mono_r; lia).
  lia.
Qed.

Lemma Zdigits2_ge m d : 0 < m -> 2 ^ (d - 1) <= m -> d <= Zdigits2 m.
Proof.
  intros Hm Hd. destruct (Zdigits2_bounds m Hm) as (Hp & _ & Hhi).
  destruct (Z_le_gt_dec d (Zdigits2 m)) as [|Hgt]; [assumption|exfalso].
  assert (2 ^ Zdigits2 m <= 2 ^ (d - 1)) by (apply Z.pow_le_mono_r; lia).
  lia.
Qed.

Lemma shr_1_m r : 0 <= shr_m r -> shr_m (shr_1 r) = shr_m r / 2.
Proof.
  destruct r as [m r s]. simpl. intros Hm.
  destruct m as [|q|q]; [reflexivity| |lia].
  destruct q as [q|q|]; simpl.
  - rewrite (Pos2Z.inj_xI q). Z.to_euclidean_division_equations; lia.
  - rewrite (Pos2Z.inj_xO q). Z.to_euclidean_division_equations; lia.
  - reflexivity.
Qed.

Lemma iter_pos_shr_m p : forall r,
  0 <= shr_m r -> shr_m (iter_pos shr_1 p r) = shr_m r / 2 ^ Z.pos p.
Proof.
  induction p as [p IH|p IH|]; intros r Hr; simpl iter_pos.
  - assert (H1 : 0 <= shr_m (shr_1 r)) by (rewrite shr_1_m by assumption; apply Z.div_pos; lia).
    assert (H2 : 0 <= shr_m (iter_pos shr_1 p (shr_1 r))).
    { rewrite IH by assumption. apply Z.div_pos; [assumption|]. apply Z.pow_pos_nonneg; lia. }
    rewrite IH, IH, shr_1_m by assumption.
    assert (0 < 2 ^ Z.pos p) by (apply Z.pow_pos_nonneg; lia).
    rewrite !Z.div_div by lia.
    f_equal. rewrite (Pos2Z.inj_xI p).
    replace (2 * Z.pos p + 1) with (1 + Z.pos p + Z.pos p) by lia.
    rewrite !Z.pow_add_r by lia. lia.
  - assert (H2 : 0 <= shr_m (iter_pos shr_1 p r)).
    { rewrite IH by assumption. apply Z.div_pos; [assumption|]. apply Z.pow_pos_nonneg; lia. }
    rewrite IH, IH by assumption.
    assert (0 < 2 ^ Z.pos p) by (apply Z.pow_pos_nonneg; lia).
    rewrite !Z.div_div by lia.
    f_equal. rewrite (Pos2Z.inj_xO p).
    replace (2 * Z.pos p) with (Z.pos p + Z.pos p) by lia.
    rewrite !Z.pow_add_r by lia. lia.
  - rewrite shr_1_m by assumption. reflexivity.
Qed.

Lemma shr_record_of_loc_m m l : shr_m (shr_record_of_loc m l) = m.
Proof. destruct l as [|[]]; reflexivity. Qed.

Lemma shr_fexp_trunc m e l :
  0 <= m ->
  let '(r, e') := shr_fexp prec emax m e l in (shr_m r, e') = trunc m e.
Proof.
  intros Hm. unfold shr_fexp, trunc, shr.
  destruct (fexp prec emax (Zdigits2 m + e) - e) as [|k|k] eqn:Hk; simpl Z.ltb; cbv iota.
  - now rewrite shr_record_of_loc_m.
  - rewrite iter_pos_shr_m by (now rewrite shr_record_of_loc_m).
    now rewrite shr_record_of_loc_m.
  - now rewrite shr_record_of_loc_m.
Qed.

Lemma round_nearest_even_bounds m l :
  m <= round_nearest_even m l <= m + 1.
Proof. destruct l as [|[]]; simpl; try lia. destruct (Z.even m); lia. Qed.

Lemma trunc_nonneg m e : 0 <= m -> 0 <= fst (trunc m e).
Proof.
  intros Hm. unfold trunc.
  destruct (Z.ltb_spec 0 (fexp prec emax (Zdigits2 m + e) - e)); simpl; [|assumption].
  apply Z.div_pos; [assumption|]. apply Z.pow_pos_nonneg; lia.
Qed.

(** The rounding core of every binary64 operation, read on integers. *)
Lemma binary_round_aux_trunc s m e l :
  0 <= m ->
  exists m2,
    fst (trunc m e) <= m2 <= fst (trunc m e) + 1 /\
    (l = loc_Exact -> fexp prec emax (Zdigits2 m + e) <= e -> m2 = m) /\
    binary_round_aux prec emax s m e l =
      match fst (trunc m2 (snd (trunc m e))) with
      | Z0 => S754_zero s
      | Zpos p => if snd (trunc m2 (snd (trunc m e))) <=? emax - prec
                  then S754_finite s p (snd (trunc m2 (snd (trunc m e))))
                  else S754_infinity s
      | Zneg _ => S754_nan
      end.
Proof.
  intros Hm. unfold binary_round_aux.
  pose proof (shr_fexp_trunc m e l Hm) as H1.
  destruct (shr_fexp prec emax m e l) as [r1 e1] eqn:E1.
  set (m2 := round_nearest_even (shr_m r1) (loc_of_shr_record r1)).
  assert (Hm1 : 0 <= shr_m r1).
  { replace (shr_m r1) with (fst (trunc m e)) by (now rewrite <- H1). now apply trunc_nonneg. }
  assert (Hm2 : 0 <= m2) by (pose proof (round_nearest_even_bounds (shr_m r1) (loc_of_shr_record r1)); subst m2; lia).
  pose proof (shr_fexp_trunc m2 e1 loc_Exact Hm2) as H2.
  destruct (shr_fexp prec emax m2 e1 loc_Exact) as [r2 e2] eqn:E2.
  exists m2. rewrite <- H1. simpl fst. simpl snd. rewrite <- H2. simpl fst; simpl snd.
  split; [apply round_nearest_even_bounds|]. split; [|reflexivity].
  intros -> Hk. unfold shr_fexp, shr in E1.
  destruct (fexp prec emax (Zdigits2 m + e) - e) eqn:Hd; try lia;
    inversion E1; subst; reflexivity.
Qed.
Lemma pow2_pos a : 0 <= a -> 0 < 2 ^ a.
Proof. intros. apply Z.pow_pos_nonneg; lia. Qed.

Lemma val_scale m e k : 0 <= k -> - bias <= e -> val m (e + k) = m * 2 ^ k * 2 ^ (e + bias).
Proof.
  intros Hk He. unfold val. replace (e + k + bias) with (k + (e + bias)) by lia.
  rewrite Z.pow_add_r by lia. ring.
Qed.

Lemma canonical_unfold m e :
  canonical_mantissa prec emax m e = true ->
  Z.max (Z.pos (digits2_pos m) + e - 53) (-1074) = e.
Proof. unfold canonical_mantissa. rewrite fexp_unfold. intros H. now apply Z.eqb_eq in H. Qed.

(** Truncating a value to its own exponent grid never drops below a
    representable number that was below the value. *)
Lemma trunc_lower mx ex m e :
  canonical_mantissa prec emax mx ex = true ->
  0 < m -> - bias <= e ->
  val (Z.pos mx) ex <= val m e ->
  val (Z.pos mx) ex <= val (fst (trunc m e)) (snd (trunc m e))
  /\ e <= snd (trunc m e) /\ 0 < fst (trunc m e).
Proof.
  intros Hc Hm He Hv. apply canonical_unfold in Hc.
  assert (Hb : bias = 2200) by reflexivity.
  destruct (Zdigits2_bounds m Hm) as (Hd0 & Hdlo & Hdhi).
  destruct (Zdigits2_bounds (Z.pos mx) eq_refl) as (_ & Hxlo & Hxhi). simpl Zdigits2 in Hxlo, Hxhi.
  set (d := Zdigits2 m) in *. set (dx := Z.pos (digits2_pos mx)) in *.
  assert (Hdx : 0 < dx) by (subst dx; lia).
  unfold trunc. rewrite fexp_unfold. fold d.
  destruct (Z.ltb_spec 0 (Z.max (d + e - 53) (-1074) - e)) as [Hk|Hk]; simpl fst; simpl snd;
    [|repeat split; lia].
  set (g := Z.max (d + e - 53) (-1074)) in *.
  assert (Hpe : 0 < 2 ^ (e + bias)) by (apply pow2_pos; lia).
  assert (Hpx : 0 < 2 ^ (ex + bias)) by (apply pow2_pos; lia).
  (* the magnitude of the value bounds the magnitude of the representable number *)
  assert (HA : dx + ex <= d + e).
  { assert (H1 : 2 ^ (dx - 1 + (ex + bias)) < 2 ^ (d + (e + bias))).
    { rewrite (Z.pow_add_r 2 (dx - 1) (ex + bias)), (Z.pow_add_r 2 d (e + bias)) by lia.
      unfold val in Hv. nia. }
    apply Z.pow_lt_mono_r_iff in H1; lia. }
  assert (HB : ex <= g) by (subst g; lia).
  assert (Hq : 0 < 2 ^ (g - e)) by (apply pow2_pos; lia).
  destruct (Z.eq_dec g ex) as [Hg|Hg].
  - (* same grid: the representable number is a grid point *)
    assert (Hmx : Z.pos mx <= m / 2 ^ (g - e)).
    { apply Z.div_le_lower_bound; [assumption|].
      unfold val in Hv. replace (ex + bias) with ((g - e) + (e + bias)) in Hv by lia.
      rewrite Z.pow_add_r in Hv by lia. nia. }
    replace (e + (g - e)) with ex by lia. unfold val at 2.
    repeat split; [unfold val; nia|lia|lia].
  - (* coarser grid: the truncation keeps the leading bit, which already exceeds it *)
    assert (Hgd : g = d + e - 53) by (subst g; lia).
    assert (H52 : 2 ^ 52 <= m / 2 ^ (g - e)).
    { apply Z.div_le_lower_bound; [assumption|].
      rewrite <- Z.pow_add_r by lia. replace (g - e + 52) with (d - 1) by lia. lia. }
    assert (Hx53 : Z.pos mx < 2 ^ 53).
    { eapply Z.lt_le_trans; [apply Hxhi|]. apply Z.pow_le_mono_r; lia. }
    replace (e + (g - e)) with g by lia.
    repeat split; [|lia|lia].
    unfold val. replace (g + bias) with ((g - ex - 1) + (1 + (ex + bias))) by lia.
    rewrite (Z.pow_add_r 2 (g - ex - 1) (1 + (ex + bias))), (Z.pow_add_r 2 1 (ex + bias)) by lia.
    assert (0 < 2 ^ (g - ex - 1)) by (apply pow2_pos; lia).
    change (2 ^ 1) with 2. change (2 ^ 52) with 4503599627370496 in H52.
    change (2 ^ 53) with 9007199254740992 in Hx53.
    set (A := m / 2 ^ (g - e)) in *. set (Q := 2 ^ (g - ex - 1)) in *.
    set (P := 2 ^ (ex + bias)) in *.
    assert (H1 : Z.pos mx <= A * Q * 2) by nia.
    replace (A * (Q * (2 * P))) with (A * Q * 2 * P) by ring.
    apply Z.mul_le_mono_nonneg_r; lia.
Qed.

Lemma canonical_digits m e :
  canonical_mantissa prec emax m e = true ->
  - 1074 <= e /\ Z.pos (digits2_pos m) <= 53 /\ (- 1074 < e -> 2 ^ 52 <= Z.pos m).
Proof.
  intros Hc. apply canonical_unfold in Hc.
  destruct (Zdigits2_bounds (Z.pos m) eq_refl) as (_ & Hlo & _). simpl Zdigits2 in Hlo.
  repeat split; try lia. intros He.
  replace (Z.pos (digits2_pos m)) with 53 in Hlo by lia. exact Hlo.
Qed.

Lemma val_lt_canonical m1 e1 m2 e2 :
  canonical_mantissa prec emax m1 e1 = true ->
  canonical_mantissa prec emax m2 e2 = true ->
  e1 < e2 -> val (Z.pos m1) e1 < val (Z.pos m2) e2.
Proof.
  intros H1 H2 He.
  destruct (canonical_digits _ _ H1) as (He1 & Hd1 & _).
  destruct (canonical_digits _ _ H2) as (_ & _ & Hm2). specialize (Hm2 ltac:(lia)).
  destruct (Zdigits2_bounds (Z.pos m1) eq_refl) as (_ & _ & Hhi). simpl Zdigits2 in Hhi.
  assert (Hm1 : Z.pos m1 < 2 ^ 53).
  { eapply Z.lt_le_trans; [apply Hhi|]. apply Z.pow_le_mono_r; lia. }
  assert (Hb : bias = 2200) by reflexivity.
  unfold val. replace (e2 + bias) with ((e2 - e1 - 1) + (1 + (e1 + bias))) by lia.
  rewrite (Z.pow_add_r 2 (e2 - e1 - 1) (1 + (e1 + bias))), (Z.pow_add_r 2 1 (e1 + bias)) by lia.
  assert (HQ : 0 < 2 ^ (e2 - e1 - 1)) by (apply pow2_pos; lia).
  assert (HP : 0 < 2 ^ (e1 + bias)) by (apply pow2_pos; lia).
  change (2 ^ 1) with 2. change (2 ^ 52) with 4503599627370496 in Hm2.
  change (2 ^ 53) with 9007199254740992 in Hm1.
  set (Q := 2 ^ (e2 - e1 - 1)) in *. set (P := 2 ^ (e1 + bias)) in *.
  assert (Z.pos m1 < Z.pos m2 * Q * 2) by nia.
  replace (Z.pos m2 * (Q * (2 * P))) with (Z.pos m2 * Q * 2 * P) by ring.
  apply Z.mul_lt_mono_pos_r; lia.
Qed.

Lemma val_le_canonical m1 e1 m2 e2 :
  canonical_mantissa prec emax m1 e1 = true ->
  canonical_mantissa prec emax m2 e2 = true ->
  (val (Z.pos m1) e1 <= val (Z.pos m2) e2 <-> e1 < e2 \/ (e1 = e2 /\ (m1 <= m2)%positive)).
Proof.
  intros H1 H2.
  destruct (canonical_digits _ _ H1) as (He1 & _ & _).
  assert (Hb : bias = 2200) by reflexivity.
  destruct (Z.lt_trichotomy e1 e2) as [Hlt|[Heq|Hgt]].
  - pose proof (val_lt_canonical _ _ _ _ H1 H2 Hlt). split; [auto|lia].
  - subst e2. assert (HP : 0 < 2 ^ (e1 + bias)) by (apply pow2_pos; lia).
    unfold val. split.
    + intros Hv. right. split; [reflexivity|]. apply Pos2Z.pos_le_pos. nia.
    + intros [Hlt|[_ Hle]]; [lia|]. apply Pos2Z.pos_le_pos in Hle. nia.
  - pose proof (val_lt_canonical _ _ _ _ H2 H1 Hgt). split; [lia|].
    intros [Hlt|[Heq _]]; lia.
Qed.

Lemma SFleb_finite_pos m1 e1 m2 e2 :
  SFleb (S754_finite false m1 e1) (S754_finite false m2 e2) = true <->
  e1 < e2 \/ (e1 = e2 /\ (m1 <= m2)%positive).
Proof.
  unfold SFleb, SFcompare. destruct (Z.compare_spec e1 e2) as [Heq|Hlt|Hgt].
  - change (Pos.compare_cont Eq m1 m2) with (Pos.compare m1 m2).
    unfold Pos.le. destruct (m1 ?= m2)%positive; split; intros H.
    + right. split; [assumption|discriminate].
    + reflexivity.
    + right. split; [assumption|discriminate].
    + reflexivity.
    + discriminate.
    + destruct H as [H|[_ H]]; [lia|now elim H].
  - split; auto.
  - split; [discriminate|lia].
Qed.

Lemma SFleb_val m1 e1 m2 e2 :
  canonical_mantissa prec emax m1 e1 = true ->
  canonical_mantissa prec emax m2 e2 = true ->
  (SFleb (S754_finite false m1 e1) (S754_finite false m2 e2) = true <->
   val (Z.pos m1) e1 <= val (Z.pos m2) e2).
Proof. intros H1 H2. rewrite SFleb_finite_pos. symmetry. now apply val_le_canonical. Qed.

Lemma bounded_canonical m e :
  bounded prec emax m e = true -> canonical_mantissa prec emax m e = true.
Proof. unfold bounded. intros H. now apply andb_prop in H. Qed.


(** A factor of at least one never lowers a positive product. *)
Lemma SFmul_ge_self mx ex mf ef :
  bounded prec emax mx ex = true ->
  bounded prec emax mf ef = true ->
  SFleb SF1 (S754_finite false mf ef) = true ->
  valid_binary (SF64mul (S754_finite false mx ex) (S754_finite false mf ef)) = true ->
  SFleb (S754_finite false mx ex) (SF64mul (S754_finite false mx ex) (S754_finite false mf ef)) = true.
Proof.
  intros Hx Hf H1 Hvalid.
  apply bounded_canonical in Hx, Hf.
  assert (Hb : bias = 2200) by reflexivity.
  destruct (canonical_digits _ _ Hx) as (Hex & _ & _).
  destruct (canonical_digits _ _ Hf) as (_ & _ & Hmf).
  apply SFleb_finite_pos in H1.
  assert (Hef : - 52 <= ef) by lia. specialize (Hmf ltac:(lia)).
  unfold SF64mul, SFmul in *. simpl xorb in *.
  set (M := Z.pos (mx * mf)) in *. set (E := ex + ef) in *.
  assert (HM : 0 < M) by (subst M; lia).
  assert (Hv0 : val (Z.pos mx) ex <= val M E).
  { unfold val. subst M E. rewrite Pos2Z.inj_mul.
    assert (HP : 0 < 2 ^ (ex + bias)) by (apply pow2_pos; lia).
    destruct (Z_le_gt_dec 0 ef) as [Hpos|Hneg].
    - replace (ex + ef + bias) with (ef + (ex + bias)) by lia.
      rewrite (Z.pow_add_r 2 ef (ex + bias)) by lia.
      assert (0 < 2 ^ ef) by (apply pow2_pos; lia). nia.
    - replace (ex + bias) with (- ef + (ex + ef + bias)) by lia.
      rewrite (Z.pow_add_r 2 (- ef) (ex + ef + bias)) by lia.
      assert (HQ : 0 < 2 ^ (ex + ef + bias)) by (apply pow2_pos; lia).
      assert (2 ^ (- ef) <= 2 ^ 52) by (apply Z.pow_le_mono_r; lia).
      set (Q := 2 ^ (ex + ef + bias)) in *. set (R := 2 ^ (- ef)) in *.
      assert (R <= Z.pos mf) by lia.
      replace (Z.pos mx * (R * Q)) with (Z.pos mx * Q * R) by ring.
      replace (Z.pos mx * Z.pos mf * Q) with (Z.pos mx * Q * Z.pos mf) by ring.
      apply Z.mul_le_mono_nonneg_l; nia. }
  destruct (binary_round_aux_trunc false M E loc_Exact ltac:(lia)) as (m2 & Hm2 & _ & Hr).
  destruct (trunc_lower mx ex M E Hx HM ltac:(subst E; lia) Hv0) as (Hv1 & He1 & Hm1).
  set (m1 := fst (trunc M E)) in *. set (e1 := snd (trunc M E)) in *.
  assert (Hv2 : val (Z.pos mx) ex <= val m2 e1).
  { eapply Z.le_trans; [apply Hv1|]. unfold val.
    apply Z.mul_le_mono_nonneg_r; [|lia]. apply Z.lt_le_incl, pow2_pos. subst E. lia. }
  destruct (trunc_lower mx ex m2 e1 Hx ltac:(lia) ltac:(subst E; lia) Hv2) as (Hv3 & _ & Hm3).
  rewrite Hr in Hvalid |- *.
  destruct (fst (trunc m2 e1)) as [|m3|m3] eqn:E3; try lia.
  destruct (snd (trunc m2 e1) <=? emax - prec); [|reflexivity].
  simpl in Hvalid. apply bounded_canonical in Hvalid.
  apply SFleb_val; assumption.
Qed.

Local Open Scope float_scope.

Lemma Prim2SF_bounded x s m e :
  Prim2SF x = S754_finite s m e -> bounded prec emax m e = true.
Proof. intros H. pose proof (Prim2SF_valid x) as Hv. now rewrite H in Hv. Qed.

Lemma SFcompare_refl x : x <> S754_nan -> SFcompare x x = Some Eq.
Proof.
  destruct x as [s|s| |s m e]; try destruct s; simpl; intros H; try reflexivity;
    try (now elim H); rewrite Z.compare_refl;
    change (Pos.compare_cont Eq m m) with (Pos.compare m m); now rewrite Pos.compare_refl.
Qed.

Lemma is_nan_SF x :
  is_nan x = match Prim2SF x with S754_nan => true | _ => false end.
Proof.
  unfold is_nan. rewrite eqb_spec. unfold SFeqb.
  destruct (Prim2SF x) eqn:E; try (rewrite SFcompare_refl by discriminate; reflexivity).
  reflexivity.
Qed.

Lemma is_infinity_SF x :
  is_infinity x = match Prim2SF x with S754_infinity _ => true | _ => false end.
Proof.
  unfold is_infinity. rewrite eqb_spec, abs_spec.
  change (Prim2SF infinity) with (S754_infinity false).
  destruct (Prim2SF x) as [s|s| |s m e]; reflexivity.
Qed.

Lemma is_finite_SF x :
  is_finite x = match Prim2SF x with S754_zero _ | S754_finite _ _ _ => true | _ => false end.
Proof.
  unfold is_finite. rewrite is_nan_SF, is_infinity_SF.
  destruct (Prim2SF x); reflexivity.
Qed.

Lemma leb_zero_SF x :
  (0 <=? x) = true ->
  (exists s, Prim2SF x = S754_zero s) \/ (exists m e, Prim2SF x = S754_finite false m e)
  \/ Prim2SF x = S754_infinity false.
Proof.
  rewrite leb_spec. change (Prim2SF 0) with (S754_zero false).
  destruct (Prim2SF x) as [s|[]| |[] m e]; simpl; try discriminate; eauto.
Qed.

Lemma SF_nonneg_leb x :
  match Prim2SF x with
  | S754_zero _ | S754_finite false _ _ | S754_infinity false => True
  | _ => False
  end -> (0 <=? x) = true.
Proof.
  rewrite leb_spec. change (Prim2SF 0) with (S754_zero false).
  destruct (Prim2SF x) as [s|[]| |[] m e]; simpl; tauto.
Qed.

Lemma leb_one_SF f :
  (1 <=? f) = true ->
  (exists m e, Prim2SF f = S754_finite false m e /\ - 52 <= e)%Z
  \/ Prim2SF f = S754_infinity false.
Proof.
  rewrite leb_spec. change (Prim2SF 1) with SF1.
  destruct (Prim2SF f) as [s|[]| |[] m e] eqn:E; simpl; try discriminate; eauto.
  intros H. left. exists m, e. split; [reflexivity|].
  apply SFleb_finite_pos in H. lia.
Qed.

(** Multiplying a non-negative number by a finite factor of at least one
    does not make it smaller. *)
Lemma mul_ge_self x f :
  (0 <=? x) = true -> (1 <=? f) = true -> is_finite f = true -> (x <=? x * f) = true.
Proof.
  intros Hx Hf Hfin. pose proof Hf as Hf1.
  rewrite leb_spec, mul_spec. rewrite leb_spec in Hf1. change (Prim2SF 1) with SF1 in Hf1.
  rewrite is_finite_SF in Hfin.
  pose proof (Prim2SF_valid (x * f)) as Hv. rewrite mul_spec in Hv.
  destruct (leb_one_SF f Hf) as [(mf & ef & Ef & Hef)|Ef]; rewrite Ef in *; [|discriminate].
  destruct (leb_zero_SF x Hx) as [(s & Ex)|[(mx & ex & Ex)|Ex]]; rewrite Ex in *.
  - destruct s; reflexivity.
  - apply SFmul_ge_self; try assumption.
    + now apply (Prim2SF_bounded x false).
    + now apply (Prim2SF_bounded f false).
  - reflexivity.
Qed.

Local Open Scope Z_scope.

Lemma shr_1_exact q :
  0 <= q -> shr_1 (Build_shr_record (2 * q) false false) = Build_shr_record q false false.
Proof. destruct q as [|q|q]; [reflexivity|reflexivity|lia]. Qed.

Lemma iter_pos_shr_exact p : forall q,
  0 <= q ->
  iter_pos shr_1 p (Build_shr_record (2 ^ Z.pos p * q) false false)
  = Build_shr_record q false false.
Proof.
  induction p as [p IH|p IH|]; intros q Hq; cbn [iter_pos].
  - assert (Hp : 0 < 2 ^ Z.pos p) by (apply pow2_pos; lia).
    replace (2 ^ Z.pos p~1 * q) with (2 * (2 ^ Z.pos p * (2 ^ Z.pos p * q))).
    + rewrite shr_1_exact by nia. rewrite IH by nia. now apply IH.
    + rewrite (Pos2Z.inj_xI p). replace (2 * Z.pos p + 1) with (1 + Z.pos p + Z.pos p) by lia.
      rewrite !Z.pow_add_r by lia. change (2 ^ 1) with 2. ring.
  - assert (Hp : 0 < 2 ^ Z.pos p) by (apply pow2_pos; lia).
    replace (2 ^ Z.pos p~0 * q) with (2 ^ Z.pos p * (2 ^ Z.pos p * q)).
    + rewrite IH by nia. now apply IH.
    + rewrite (Pos2Z.inj_xO p). replace (2 * Z.pos p) with (Z.pos p + Z.pos p) by lia.
      rewrite !Z.pow_add_r by lia. ring.
  - change (2 ^ 1) with 2. now apply shr_1_exact.
Qed.

Lemma Zdigits2_shift m k :
  0 < m -> 0 <= k -> Zdigits2 (2 ^ k * m) = Zdigits2 m + k.
Proof.
  intros Hm Hk. destruct (Zdigits2_bounds m Hm) as (Hd & Hlo & Hhi).
  assert (Hp : 0 < 2 ^ k) by now apply pow2_pos.
  apply Z.le_antisymm.
  - apply Zdigits2_le; [nia|]. rewrite Z.pow_add_r by lia. nia.
  - apply Zdigits2_ge; [nia|].
    replace (Zdigits2 m + k - 1) with (k + (Zdigits2 m - 1)) by lia.
    rewrite Z.pow_add_r by lia. nia.
Qed.

Lemma SFmul_1_r x : valid_binary x = true -> SF64mul x SF1 = x.
Proof.
  destruct x as [[]|[]| |s m e]; try reflexivity. intros Hv. simpl in Hv.
  unfold bounded in Hv. apply andb_prop in Hv. destruct Hv as [Hc He].
  pose proof (canonical_unfold _ _ Hc) as Hc'. apply Z.leb_le in He.
  unfold SF64mul, SFmul, SF1, binary_round_aux.
  replace (xorb s false) with s by (destruct s; reflexivity).
  replace (Z.pos (m * 4503599627370496)) with (2 ^ 52 * Z.pos m) by (rewrite Pos2Z.inj_mul; change (2 ^ 52) with 4503599627370496; ring).
  assert (H1 : shr_fexp prec emax (2 ^ 52 * Z.pos m) (e + -52) loc_Exact
               = (Build_shr_record (Z.pos m) false false, e)).
  { unfold shr_fexp. rewrite fexp_unfold, Zdigits2_shift by lia. simpl Zdigits2.
    replace (Z.max (Z.pos (digits2_pos m) + 52 + (e + -52) - 53) (-1074) - (e + -52)) with 52 by lia.
    unfold shr, shr_record_of_loc.
    change (Z.pos 52) with 52. rewrite (iter_pos_shr_exact 52 (Z.pos m)) by lia.
    f_equal. lia. }
  rewrite H1. simpl shr_m. simpl loc_of_shr_record. simpl round_nearest_even.
  assert (H2 : shr_fexp prec emax (Z.pos m) e loc_Exact
               = (Build_shr_record (Z.pos m) false false, e)).
  { unfold shr_fexp. rewrite fexp_unfold. simpl Zdigits2.
    replace (Z.max (Z.pos (digits2_pos m) + e - 53) (-1074) - e) with 0 by lia.
    reflexivity. }
  rewrite H2. simpl shr_m.
  destruct (Z.leb_spec e (emax - prec)); [reflexivity|lia].
Qed.

Local Open Scope float_scope.

Lemma mul_1_r x : x * 1 = x.
Proof.
  apply Prim2SF_inj. rewrite mul_spec. change (Prim2SF 1) with SF1.
  apply SFmul_1_r, Prim2SF_valid.
Qed.

End Binary64.

(** *** Signs and exponents of results *)

Section Binary64Shape.
Local Open Scope Z_scope.

Lemma trunc_snd m e :
  snd (trunc m e) = Z.max e (fexp prec emax (Zdigits2 m + e)).
Proof.
  unfold trunc. destruct (Z.ltb_spec 0 (fexp prec emax (Zdigits2 m + e) - e)); simpl; lia.
Qed.

Lemma trunc_magnitude m e :
  0 < m ->
  fst (trunc m e) = 0 \/
  (0 < fst (trunc m e) /\ Zdigits2 (fst (trunc m e)) + snd (trunc m e) <= Zdigits2 m + e).
Proof.
  intros Hm. destruct (Zdigits2_bounds m Hm) as (Hd & _ & Hhi).
  unfold trunc. set (k := fexp prec emax (Zdigits2 m + e) - e).
  destruct (Z.ltb_spec 0 k) as [Hk|Hk]; simpl; [|right; split; lia].
  assert (Hp : 0 < 2 ^ k) by (apply pow2_pos; lia).
  assert (Hq : 0 <= m / 2 ^ k) by (apply Z.div_pos; lia).
  destruct (Z.eq_dec (m / 2 ^ k) 0) as [H0|H0]; [now left|right].
  split; [lia|].
  assert (Hkd : k < Zdigits2 m).
  { destruct (Z_lt_le_dec k (Zdigits2 m)) as [|Hge]; [assumption|exfalso].
    apply H0. apply Z.div_small. split; [lia|].
    eapply Z.lt_le_trans; [apply Hhi|]. apply Z.pow_le_mono_r; lia. }
  assert (Zdigits2 (m / 2 ^ k) <= Zdigits2 m - k); [|lia].
  apply Zdigits2_le; [lia|].
  apply Z.div_lt_upper_bound; [assumption|].
  rewrite <- Z.pow_add_r by lia. now replace (k + (Zdigits2 m - k)) with (Zdigits2 m) by lia.
Qed.

Lemma Zdigits2_succ m : 0 < m -> Zdigits2 (m + 1) <= Zdigits2 m + 1.
Proof.
  intros Hm. destruct (Zdigits2_bounds m Hm) as (Hd & _ & Hhi).
  apply Zdigits2_le; [lia|]. rewrite Z.pow_add_r by lia. change (2 ^ 1) with 2. lia.
Qed.

Lemma Zdigits2_mono a b : 0 < a -> a <= b -> Zdigits2 a <= Zdigits2 b.
Proof.
  intros Ha Hab. destruct (Zdigits2_bounds b ltac:(lia)) as (_ & _ & Hhi).
  apply Zdigits2_le; lia.
Qed.

Lemma fexp_mono a b : a <= b -> fexp prec emax a <= fexp prec emax b.
Proof. rewrite !fexp_unfold. lia. Qed.

(** The rounding core keeps the sign it is given. *)
Lemma binary_round_aux_signed s m e l :
  0 <= m -> SF_signed s (binary_round_aux prec emax s m e l).
Proof.
  intros Hm.
  destruct (binary_round_aux_trunc s m e l Hm) as (m2 & Hm2 & _ & Hr).
  pose proof (trunc_nonneg m e Hm) as Hm1.
  pose proof (trunc_nonneg m2 (snd (trunc m e)) ltac:(lia)) as Hm3.
  rewrite Hr.
  destruct (fst (trunc m2 (snd (trunc m e)))) as [|p|p]; try lia; simpl; auto.
  destruct (_ <=? _); reflexivity.
Qed.

(** Its result is finite when the exponent of the rounded magnitude
    stays in range. *)
Lemma binary_round_aux_expo s m e l :
  0 < m ->
  Z.max e (fexp prec emax (Zdigits2 m + e) + 1) <= emax - prec ->
  SF_expo_le (Z.max e (fexp prec emax (Zdigits2 m + e) + 1))
             (binary_round_aux prec emax s m e l).
Proof.
  intros Hm Hbound.
  destruct (binary_round_aux_trunc s m e l ltac:(lia)) as (m2 & Hm2 & _ & Hr).
  pose proof (trunc_nonneg m e ltac:(lia)) as Hm1.
  pose proof (trunc_nonneg m2 (snd (trunc m e)) ltac:(lia)) as Hm3.
  rewrite Hr.
  assert (He3 : snd (trunc m2 (snd (trunc m e)))
                <= Z.max e (fexp prec emax (Zdigits2 m + e) + 1)).
  { rewrite trunc_snd.
    destruct (Z.eq_dec m2 0) as [->|Hm20].
    - rewrite (trunc_snd m e). simpl Zdigits2. rewrite !fexp_unfold. lia.
    - destruct (trunc_magnitude m e Hm) as [H0|[Hpos Hmag]].
      + rewrite H0 in Hm2. replace m2 with 1 by lia. simpl Zdigits2.
        assert (He1 : snd (trunc m e) = fexp prec emax (Zdigits2 m + e)).
        { unfold trunc in H0 |- *.
          destruct (Z.ltb_spec 0 (fexp prec emax (Zdigits2 m + e) - e)); simpl in *; lia. }
        rewrite He1, !fexp_unfold. lia.
      + pose proof (Zdigits2_succ _ Hpos).
        pose proof (Zdigits2_mono m2 (fst (trunc m e) + 1) ltac:(lia) ltac:(lia)).
        assert (Hd2 : Zdigits2 m2 + snd (trunc m e) <= Zdigits2 m + e + 1) by lia.
        pose proof (fexp_mono _ _ Hd2) as Hf. rewrite (trunc_snd m e) in *.
        rewrite !fexp_unfold in *. lia. }
  change (emax - prec) with 971 in *.
  destruct (fst (trunc m2 (snd (trunc m e)))) as [|p|p]; try lia; [exact I|].
  destruct (Z.leb_spec (snd (trunc m2 (snd (trunc m e)))) 971); simpl; lia.
Qed.

Lemma digits2_pos_mul (a b : positive) :
  Z.pos (digits2_pos (a * b)) <= Z.pos (digits2_pos a) + Z.pos (digits2_pos b).
Proof.
  destruct (Zdigits2_bounds (Z.pos a) eq_refl) as (_ & _ & Ha).
  destruct (Zdigits2_bounds (Z.pos b) eq_refl) as (_ & _ & Hb).
  simpl Zdigits2 in Ha, Hb.
  change (Z.pos (digits2_pos (a * b))) with (Zdigits2 (Z.pos (a * b))).
  apply Zdigits2_le; [lia|]. rewrite Z.pow_add_r by lia. rewrite Pos2Z.inj_mul. nia.
Qed.

Lemma SFmul_signed x y sx sy :
  SF_signed sx x -> SF_signed sy y ->
  match x, y with
  | S754_zero _, S754_infinity _ | S754_infinity _, S754_zero _ => False
  | _, _ => True
  end ->
  SF_signed (xorb sx sy) (SF64mul x y).
Proof.
  destruct x as [s1|s1| |s1 m1 e1], y as [s2|s2| |s2 m2 e2]; simpl;
    intros Hx Hy Hok; subst; try reflexivity; try contradiction.
  apply binary_round_aux_signed. lia.
Qed.

Lemma SFmul_expo a b x y :
  SF_expo_le a x -> SF_expo_le b y ->
  valid_binary x = true -> valid_binary y = true ->
  Z.max (a + b + 54) (- 1073) <= emax - prec ->
  SF_expo_le (Z.max (a + b + 54) (- 1073)) (SF64mul x y).
Proof.
  destruct x as [s1|s1| |s1 m1 e1], y as [s2|s2| |s2 m2 e2]; simpl;
    intros Hx Hy Vx Vy Hb; try contradiction; try exact I.
  apply bounded_canonical in Vx, Vy.
  destruct (canonical_digits _ _ Vx) as (_ & Hd1 & _).
  destruct (canonical_digits _ _ Vy) as (_ & Hd2 & _).
  pose proof (digits2_pos_mul m1 m2) as Hd.
  pose proof (binary_round_aux_expo (xorb s1 s2) (Z.pos (m1 * m2)) (e1 + e2) loc_Exact eq_refl)
    as Hexp.
  simpl Zdigits2 in Hexp. rewrite fexp_unfold in Hexp.
  change (emax - prec) with 971 in *.
  assert (Hle : Z.max (e1 + e2) (Z.max (Z.pos (digits2_pos (m1 * m2)) + (e1 + e2) - 53) (-1074) + 1)
                <= Z.max (a + b + 54) (- 1073)) by lia.
  specialize (Hexp ltac:(lia)).
  destruct (binary_round_aux prec emax (xorb s1 s2) (Z.pos (m1 * m2)) (e1 + e2) loc_Exact);
    simpl in *; auto; lia.
Qed.

Lemma binary_round_signed s m e : SF_signed s (binary_round prec emax s m e).
Proof.
  unfold binary_round. destruct (shl_align m e _) as [mz ez].
  apply binary_round_aux_signed. lia.
Qed.

Lemma binary_normalize_not_nan m e : binary_normalize prec emax m e false <> S754_nan.
Proof.
  destruct m as [|p|p]; simpl; [discriminate| |].
  - pose proof (binary_round_signed false p e) as H.
    destruct (binary_round prec emax false p e); simpl in H; congruence.
  - pose proof (binary_round_signed true p e) as H.
    destruct (binary_round prec emax true p e); simpl in H; congruence.
Qed.

Lemma SFdiv_signed x y sx sy :
  SF_signed sx x -> SF_signed sy y ->
  match x, y with
  | S754_zero _, S754_zero _ | S754_infinity _, S754_infinity _ => False
  | _, _ => True
  end ->
  SF_signed (xorb sx sy) (SF64div x y).
Proof.
  destruct x as [s1|s1| |s1 m1 e1], y as [s2|s2| |s2 m2 e2]; simpl;
    intros Hx Hy Hok; subst; try reflexivity; try contradiction.
  unfold SFdiv_core_binary.
  set (e' := Z.min _ _). set (m' := match e1 - e2 - e' with Z0 => _ | Z.pos _ => _ | Z.neg _ => _ end).
  assert (Hm' : 0 <= m').
  { subst m'. destruct (e1 - e2 - e') eqn:E; try lia.
    rewrite Z.shiftl_mul_pow2 by lia. apply Z.mul_nonneg_nonneg; [lia|].
    apply Z.pow_nonneg. lia. }
  pose proof (Z.div_pos m' (Z.pos m2) Hm' eq_refl) as Hq. unfold Z.div in Hq.
  destruct (Z.div_eucl m' (Z.pos m2)) as [q r].
  now apply binary_round_aux_signed.
Qed.

Lemma SFsqrt_signed x :
  SF64sqrt x <> S754_nan -> SF_signed false (SF64sqrt x) \/ SF64sqrt x = S754_zero true.
Proof.
  destruct x as [[]|[]| |[] m e]; simpl; intros H; auto; try (now elim H).
  left. unfold SFsqrt_core_binary.
  set (e' := Z.min _ _). set (m' := match e - 2 * e' with Z0 => _ | Z.pos _ => _ | Z.neg _ => _ end).
  assert (Hm' : 0 <= m').
  { subst m'. destruct (e - 2 * e') eqn:E; try lia.
    rewrite Z.shiftl_mul_pow2 by lia. apply Z.mul_nonneg_nonneg; [lia|].
    apply Z.pow_nonneg. lia. }
  pose proof (Z.sqrtrem_spec m' Hm') as Hs.
  destruct (Z.sqrtrem m') as [q r].
  apply binary_round_aux_signed. lia.
Qed.

Lemma SFadd_not_nan x y :
  x <> S754_nan -> y <> S754_nan ->
  match x, y with
  | S754_infinity s1, S754_infinity s2 => s1 = s2
  | _, _ => True
  end ->
  SF64add x y <> S754_nan.
Proof.
  destruct x as [s1|s1| |s1 m1 e1], y as [s2|s2| |s2 m2 e2]; simpl;
    intros Hx Hy Hok; try congruence; try (now destruct s1, s2).
  apply binary_normalize_not_nan.
Qed.

Lemma SFsub_finite_not_nan x y :
  SF_expo_le 971 x -> SF_expo_le 971 y -> SF64sub x y <> S754_nan.
Proof.
  destruct x as [s1|s1| |s1 m1 e1], y as [s2|s2| |s2 m2 e2]; simpl;
    intros Hx Hy; try contradiction; try congruence; try (now destruct s1, s2).
  apply binary_normalize_not_nan.
Qed.

(** Negation commutes with the rounding core, hence with products,
    quotients and, up to the sign of an exact zero, differences. *)
Lemma binary_round_aux_opp s m e l :
  binary_round_aux prec emax (negb s) m e l = SFopp (binary_round_aux prec emax s m e l).
Proof.
  unfold binary_round_aux.
  destruct (shr_fexp prec emax m e l) as [r1 e1].
  destruct (shr_fexp prec emax _ e1 loc_Exact) as [r2 e2].
  destruct (shr_m r2); try reflexivity. destruct (_ <=? _); reflexivity.
Qed.

Lemma SFmul_opp_l x y : SF64mul (SFopp x) y = SFopp (SF64mul x y).
Proof.
  destruct x as [s1|s1| |s1 m1 e1], y as [s2|s2| |s2 m2 e2]; simpl;
    try reflexivity; try (now destruct s1, s2).
  rewrite <- binary_round_aux_opp. now destruct s1, s2.
Qed.

Lemma SFdiv_opp_l x y : SF64div (SFopp x) y = SFopp (SF64div x y).
Proof.
  destruct x as [s1|s1| |s1 m1 e1], y as [s2|s2| |s2 m2 e2]; simpl;
    try reflexivity; try (now destruct s1, s2).
  destruct (SFdiv_core_binary prec emax (Z.pos m1) e1 (Z.pos m2) e2) as [[mz ez] lz].
  rewrite <- binary_round_aux_opp. now destruct s1, s2.
Qed.

Lemma SFmul_comm x y : SF64mul x y = SF64mul y x.
Proof.
  destruct x as [s1|s1| |s1 m1 e1], y as [s2|s2| |s2 m2 e2]; simpl;
    try reflexivity; try (now destruct s1, s2).
  now rewrite (xorb_comm s1 s2), (Pos.mul_comm m1 m2), (Z.add_comm e1 e2).
Qed.

Lemma binary_round_opp s m e :
  binary_round prec emax (negb s) m e = SFopp (binary_round prec emax s m e).
Proof.
  unfold binary_round. destruct (shl_align m e _) as [mz ez]. apply binary_round_aux_opp.
Qed.

Lemma binary_normalize_opp m e :
  m <> 0 ->
  binary_normalize prec emax (- m) e false = SFopp (binary_normalize prec emax m e false).
Proof.
  destruct m as [|p|p]; simpl; intros H; [now elim H| |].
  - apply (binary_round_opp false).
  - apply (binary_round_opp true).
Qed.

Lemma SFsub_antisym x y :
  SF64sub y x = SFopp (SF64sub x y)
  \/ (SF64sub x y = S754_zero false /\ SF64sub y x = S754_zero false).
Proof.
  destruct x as [s1|s1| |s1 m1 e1], y as [s2|s2| |s2 m2 e2]; simpl;
    try (left; reflexivity); try (destruct s1, s2; simpl; auto; fail).
  rewrite (Z.min_comm e2 e1).
  set (a := cond_Zopp s1 (Z.pos (fst (shl_align m1 e1 (Z.min e1 e2))))).
  set (b := cond_Zopp s2 (Z.pos (fst (shl_align m2 e2 (Z.min e1 e2))))).
  destruct (Z.eq_dec (a - b) 0) as [H0|H0].
  - right. replace (b - a) with 0 by lia. rewrite H0. split; reflexivity.
  - left. replace (b - a) with (- (a - b)) by lia. now apply binary_normalize_opp.
Qed.

Lemma SFcompare_opp x y : SFcompare (SFopp x) (SFopp y) = SFcompare y x.
Proof.
  destruct x as [s1|s1| |s1 m1 e1], y as [s2|s2| |s2 m2 e2]; simpl;
    try reflexivity; try (now destruct s1, s2); try (now destruct s1); try (now destruct s2).
  destruct s1, s2; simpl; try reflexivity;
    rewrite (Z.compare_antisym e1 e2); destruct (e1 ?= e2); simpl; try reflexivity;
    first [ now rewrite (Pos.compare_cont_antisym m2 m1 Eq)
          | now rewrite (Pos.compare_cont_antisym m1 m2 Eq) ].
Qed.

Lemma SFcompare_antisym x y :
  SFcompare y x = option_map CompOpp (SFcompare x y).
Proof.
  destruct x as [s1|s1| |s1 m1 e1], y as [s2|s2| |s2 m2 e2]; simpl;
    try reflexivity; try (now destruct s1, s2); try (now destruct s1); try (now destruct s2).
  destruct s1, s2; simpl; try reflexivity;
    rewrite (Z.compare_antisym e1 e2); destruct (e1 ?= e2); simpl; try reflexivity;
    rewrite (Pos.compare_cont_antisym m1 m2 Eq); simpl; try reflexivity;
    now destruct (Pos.compare_cont Eq m1 m2).
Qed.

End Binary64Shape.

(** *** The primitive operations *)

Section PrimitiveFloats.
Local Open Scope float_scope.

Lemma leb_zero_iff x : (0 <=? x) = true <-> SF_nonneg (Prim2SF x).
Proof.
  rewrite leb_spec. change (Prim2SF 0) with (S754_zero false).
  destruct (Prim2SF x) as [s|[]| |[] m e]; simpl; split; intros H;
    try reflexivity; try exact I; try discriminate; try contradiction.
Qed.

Lemma is_nan_false_iff x : is_nan x = false <-> Prim2SF x <> S754_nan.
Proof.
  rewrite is_nan_SF. destruct (Prim2SF x); split; intros H; congruence.
Qed.

Lemma is_finite_expo x : is_finite x = true <-> expo_le 971 x.
Proof.
  rewrite is_finite_SF. unfold expo_le.
  pose proof (Prim2SF_valid x) as Hv.
  destruct (Prim2SF x) as [s|s| |s m e]; simpl in *; split; intros H;
    try reflexivity; try exact I; try discriminate; try contradiction.
  unfold bounded in Hv. apply andb_prop in Hv. destruct Hv as [_ Hv].
  apply Z.leb_le in Hv. exact Hv.
Qed.

Lemma expo_le_finite b x : expo_le b x -> is_finite x = true.
Proof.
  rewrite is_finite_SF. unfold expo_le.
  destruct (Prim2SF x); simpl; intros H; try reflexivity; contradiction.
Qed.

Lemma is_finite_not_nan x : is_finite x = true -> is_nan x = false.
Proof. rewrite is_finite_SF, is_nan_SF. destruct (Prim2SF x); congruence. Qed.

Lemma leb_not_nan_r x y : (x <=? y) = true -> is_nan y = false.
Proof.
  rewrite leb_spec, is_nan_SF. unfold SFleb.
  destruct (Prim2SF x), (Prim2SF y); simpl; congruence.
Qed.

Lemma leb_not_nan_l x y : (x <=? y) = true -> is_nan x = false.
Proof.
  rewrite leb_spec, is_nan_SF. unfold SFleb.
  destruct (Prim2SF x), (Prim2SF y); simpl; congruence.
Qed.

Lemma opp_involutive x : - - x = x.
Proof.
  apply Prim2SF_inj. rewrite !opp_spec.
  destruct (Prim2SF x) as [[]|[]| |[] m e]; reflexivity.
Qed.

Lemma mul_opp_l x y : (- x) * y = - (x * y).
Proof. apply Prim2SF_inj. rewrite opp_spec, !mul_spec, opp_spec. apply SFmul_opp_l. Qed.

Lemma div_opp_l x y : (- x) / y = - (x / y).
Proof. apply Prim2SF_inj. rewrite opp_spec, !div_spec, opp_spec. apply SFdiv_opp_l. Qed.

Lemma mul_comm x y : x * y = y * x.
Proof. apply Prim2SF_inj. rewrite !mul_spec. apply SFmul_comm. Qed.

Lemma sub_antisym x y : y - x = - (x - y) \/ (x - y = 0 /\ y - x = 0).
Proof.
  destruct (SFsub_antisym (Prim2SF x) (Prim2SF y)) as [H|[H1 H2]].
  - left. apply Prim2SF_inj. now rewrite opp_spec, !sub_spec.
  - right. split; apply Prim2SF_inj; rewrite sub_spec; assumption.
Qed.

Lemma abs_opp x : abs (- x) = abs x.
Proof.
  apply Prim2SF_inj. rewrite !abs_spec, opp_spec.
  destruct (Prim2SF x); reflexivity.
Qed.

Lemma is_nan_opp x : is_nan (- x) = is_nan x.
Proof. rewrite !is_nan_SF, opp_spec. destruct (Prim2SF x); reflexivity. Qed.

Lemma is_infinity_opp x : is_infinity (- x) = is_infinity x.
Proof. rewrite !is_infinity_SF, opp_spec. destruct (Prim2SF x); reflexivity. Qed.

Lemma is_finite_opp x : is_finite (- x) = is_finite x.
Proof. rewrite !is_finite_SF, opp_spec. destruct (Prim2SF x); reflexivity. Qed.

Lemma leb_opp x y : (- x <=? - y) = (y <=? x).
Proof. rewrite !leb_spec, !opp_spec. unfold SFleb. now rewrite SFcompare_opp. Qed.

Lemma ltb_opp x y : (- x <? - y) = (y <? x).
Proof. rewrite !ltb_spec, !opp_spec. unfold SFltb. now rewrite SFcompare_opp. Qed.

Lemma ltb_leb x y : (x <? y) = true -> (x <=? y) = true.
Proof.
  rewrite ltb_spec, leb_spec. unfold SFltb, SFleb.
  destruct (SFcompare (Prim2SF x) (Prim2SF y)) as [[]|]; congruence.
Qed.

Lemma ltb_eqb_false x y : (x <? y) = true -> (y =? x) = false.
Proof.
  rewrite ltb_spec, eqb_spec. unfold SFltb, SFeqb.
  rewrite (SFcompare_antisym (Prim2SF x) (Prim2SF y)).
  destruct (SFcompare (Prim2SF x) (Prim2SF y)) as [[]|]; simpl; congruence.
Qed.

Lemma leb_neq_ltb x y : (x <=? y) = true -> (x =? y) = false -> (x <? y) = true.
Proof.
  rewrite ltb_spec, leb_spec, eqb_spec. unfold SFltb, SFleb, SFeqb.
  destruct (SFcompare (Prim2SF x) (Prim2SF y)) as [[]|]; congruence.
Qed.

Lemma SFcompare_defined x y :
  x <> S754_nan -> y <> S754_nan -> exists c, SFcompare x y = Some c.
Proof.
  destruct x as [s1|s1| |s1 m1 e1], y as [s2|s2| |s2 m2 e2]; simpl; intros Hx Hy;
    try congruence; eauto.
Qed.

(** Two numbers are comparable: one is below or equal to the other. *)
Lemma leb_total x y :
  is_nan x = false -> is_nan y = false -> (x <=? y) = false -> (y <? x) = true.
Proof.
  rewrite !is_nan_false_iff, ltb_spec, leb_spec. unfold SFltb, SFleb. intros Hx Hy.
  rewrite (SFcompare_antisym (Prim2SF x) (Prim2SF y)).
  destruct (SFcompare_defined _ _ Hx Hy) as (c & ->). destruct c; simpl; congruence.
Qed.

Lemma ltb_total x y :
  is_nan x = false -> is_nan y = false -> (x <? y) = false -> (y <=? x) = true.
Proof.
  rewrite !is_nan_false_iff, ltb_spec, leb_spec. unfold SFltb, SFleb. intros Hx Hy.
  rewrite (SFcompare_antisym (Prim2SF x) (Prim2SF y)).
  destruct (SFcompare_defined _ _ Hx Hy) as (c & ->). destruct c; simpl; congruence.
Qed.

(** A number between two finite numbers is finite. *)
Lemma between_finite a b x :
  is_finite a = true -> is_finite b = true ->
  (a <=? x) = true -> (x <=? b) = true -> is_finite x = true.
Proof.
  rewrite !is_finite_SF, !leb_spec. unfold SFleb.
  destruct (Prim2SF a) as [sa|sa| |sa ma ea], (Prim2SF b) as [sb|sb| |sb mb eb],
    (Prim2SF x) as [s|[]| |s m e]; simpl; try congruence.
  all: try (destruct sa; simpl; congruence).
  all: try (destruct sb; simpl; congruence).
Qed.

Lemma sub_finite_not_nan x y :
  is_finite x = true -> is_finite y = true -> is_nan (x - y) = false.
Proof.
  rewrite !is_finite_expo. intros Hx Hy. apply is_nan_false_iff. rewrite sub_spec.
  now apply SFsub_finite_not_nan.
Qed.

Lemma mul_finite_nonzero_not_nan x c :
  is_nan x = false -> is_finite c = true -> (c =? 0) = false -> is_nan (x * c) = false.
Proof.
  rewrite !is_nan_false_iff, is_finite_SF, eqb_spec, mul_spec.
  change (Prim2SF 0) with (S754_zero false). intros Hx Hc Hc0.
  destruct (Prim2SF x) as [s1|s1| |s1 m1 e1] eqn:Ex; try congruence;
    destruct (Prim2SF c) as [s2|s2| |s2 m2 e2] eqn:Ec; try discriminate.
  all: try (unfold SF64mul; simpl; discriminate).
  all: try (unfold SFeqb in Hc0; simpl in Hc0; discriminate).
  pose proof (SFmul_signed (S754_finite s1 m1 e1) (S754_finite s2 m2 e2) s1 s2 eq_refl eq_refl I) as H.
  destruct (SF64mul _ _); simpl in H; congruence.
Qed.

Lemma div_finite_nonzero_not_nan x c :
  is_nan x = false -> is_finite c = true -> (c =? 0) = false -> is_nan (x / c) = false.
Proof.
  rewrite !is_nan_false_iff, is_finite_SF, eqb_spec, div_spec.
  change (Prim2SF 0) with (S754_zero false). intros Hx Hc Hc0.
  destruct (Prim2SF x) as [s1|s1| |s1 m1 e1] eqn:Ex; try congruence;
    destruct (Prim2SF c) as [s2|s2| |s2 m2 e2] eqn:Ec; try discriminate.
  all: try (unfold SF64div; simpl; discriminate).
  all: try (unfold SFeqb in Hc0; simpl in Hc0; discriminate).
  pose proof (SFdiv_signed (S754_finite s1 m1 e1) (S754_finite s2 m2 e2) s1 s2 eq_refl eq_refl I) as H.
  destruct (SF64div _ _); simpl in H; congruence.
Qed.

Lemma mul_finite_not_nan x y :
  is_finite x = true -> is_finite y = true -> is_nan (x * y) = false.
Proof.
  rewrite !is_finite_SF, is_nan_false_iff, mul_spec. intros Hx Hy.
  destruct (Prim2SF x) as [s1|s1| |s1 m1 e1] eqn:Ex; try discriminate;
    destruct (Prim2SF y) as [s2|s2| |s2 m2 e2] eqn:Ey; try discriminate.
  all: try (unfold SF64mul; simpl; discriminate).
  all: try (unfold SFeqb in Hc0; simpl in Hc0; discriminate).
  pose proof (SFmul_signed (S754_finite s1 m1 e1) (S754_finite s2 m2 e2) s1 s2 eq_refl eq_refl I) as H.
  destruct (SF64mul _ _); simpl in H; congruence.
Qed.

Lemma add_finite_l_not_nan x y :
  is_finite x = true -> is_nan y = false -> is_nan (x + y) = false.
Proof.
  rewrite is_finite_SF, !is_nan_false_iff, add_spec. intros Hx Hy.
  apply SFadd_not_nan; [destruct (Prim2SF x); congruence|assumption|].
  destruct (Prim2SF x); try discriminate; destruct (Prim2SF y); exact I.
Qed.

Lemma SFmul_nonneg x y :
  SF_nonneg x -> SF_nonneg y ->
  match x, y with
  | S754_zero _, S754_infinity _ | S754_infinity _, S754_zero _ => False
  | _, _ => True
  end ->
  SF_nonneg (SF64mul x y).
Proof.
  destruct x as [s1|[]| |[] m1 e1], y as [s2|[]| |[] m2 e2]; simpl;
    intros Hx Hy Hok; try contradiction; try exact I.
  pose proof (binary_round_aux_signed false (Z.pos (m1 * m2)) (e1 + e2) loc_Exact ltac:(lia)) as H.
  destruct (binary_round_aux _ _ _ _ _ _); simpl in H; subst; simpl; auto.
Qed.

Lemma SFdiv_nonneg x y :
  SF_nonneg x ->
  match y with
  | S754_finite false _ _ => True
  | S754_infinity false => match x with S754_infinity _ => False | _ => True end
  | _ => False
  end ->
  SF_nonneg (SF64div x y).
Proof.
  destruct x as [s1|[]| |[] m1 e1], y as [s2|[]| |[] m2 e2];
    intros Hx Hy; try contradiction; try exact I.
  pose proof (SFdiv_signed (S754_finite false m1 e1) (S754_finite false m2 e2) false false
                eq_refl eq_refl I) as H.
  destruct (SF64div _ _); simpl in H; subst; simpl; auto.
Qed.

(** Products and quotients of numbers that are not negative. *)
Lemma mul_nonneg x y :
  (0 <=? x) = true -> (0 <=? y) = true ->
  is_finite y = true -> (is_finite x = true \/ (y =? 0) = false) ->
  (0 <=? x * y) = true.
Proof.
  rewrite !leb_zero_iff, !is_finite_SF, eqb_spec, mul_spec.
  change (Prim2SF 0) with (S754_zero false). intros Hx Hy Hfy Hok.
  apply SFmul_nonneg; try assumption.
  destruct (Prim2SF x) as [s1|s1| |s1 m1 e1], (Prim2SF y) as [s2|s2| |s2 m2 e2];
    try exact I; try discriminate.
  destruct Hok as [H|H]; simpl in H; discriminate.
Qed.

Lemma div_nonneg x y :
  (0 <=? x) = true -> is_finite x = true -> (0 <? y) = true -> (0 <=? x / y) = true.
Proof.
  rewrite !leb_zero_iff, is_finite_SF, ltb_spec, div_spec.
  change (Prim2SF 0) with (S754_zero false). intros Hx Hfx Hy.
  apply SFdiv_nonneg; try assumption.
  destruct (Prim2SF y) as [s2|[]| |[] m2 e2]; simpl in *; try discriminate; try exact I.
  destruct (Prim2SF x); try discriminate; exact I.
Qed.

Lemma sqrt_nonneg x : is_nan (sqrt x) = false -> (0 <=? sqrt x) = true.
Proof.
  rewrite is_nan_false_iff, leb_zero_iff, sqrt_spec. intros H.
  destruct (SFsqrt_signed (Prim2SF x) H) as [Hs|Hz].
  - destruct (SF64sqrt (Prim2SF x)) as [s|s| |s m e]; simpl in *; subst; auto.
  - rewrite Hz. exact I.
Qed.

(** Exponents of numbers in a range, and of products. *)
Lemma unit_range_expo x : (-1 <=? x) = true -> (x <=? 1) = true -> expo_le (-52) x.
Proof.
  intros Hlo Hhi. unfold expo_le.
  rewrite <- (opp_involutive x) in Hlo. change (-1) with (- (1)) in Hlo.
  rewrite leb_opp in Hlo. rewrite leb_spec, opp_spec in Hlo. rewrite leb_spec in Hhi.
  change (Prim2SF 1) with SF1 in *.
  destruct (Prim2SF x) as [s|[]| |[] m e]; simpl SFopp in *; simpl SF_expo_le.
  - exact I.
  - vm_compute in Hlo. discriminate.
  - vm_compute in Hhi. discriminate.
  - vm_compute in Hhi. discriminate.
  - apply SFleb_finite_pos in Hlo.
    destruct Hlo as [H|[H _]]; [now apply Z.lt_le_incl|rewrite H; apply Z.le_refl].
  - apply SFleb_finite_pos in Hhi.
    destruct Hhi as [H|[H _]]; [now apply Z.lt_le_incl|rewrite H; apply Z.le_refl].
Qed.

Lemma upto_two_expo x : (0 <=? x) = true -> (x <=? 2) = true -> expo_le (-51) x.
Proof.
  intros Hlo Hhi. unfold expo_le. apply leb_zero_iff in Hlo.
  rewrite leb_spec in Hhi.
  change (Prim2SF 2) with (S754_finite false 4503599627370496 (-51)) in Hhi.
  destruct (Prim2SF x) as [s|[]| |[] m e]; simpl SF_expo_le; simpl SF_nonneg in Hlo.
  - exact I.
  - contradiction.
  - vm_compute in Hhi. discriminate.
  - contradiction.
  - contradiction.
  - apply SFleb_finite_pos in Hhi.
    destruct Hhi as [H|[H _]]; [now apply Z.lt_le_incl|rewrite H; apply Z.le_refl].
Qed.

Lemma mul_expo a b x y :
  expo_le a x -> expo_le b y ->
  (Z.max (a + b + 54) (- 1073) <= 971)%Z ->
  expo_le (Z.max (a + b + 54) (- 1073)) (x * y).
Proof.
  unfold expo_le. intros Hx Hy Hb. rewrite mul_spec.
  apply SFmul_expo; try assumption; apply Prim2SF_valid.
Qed.

End PrimitiveFloats.

(** *** The order is transitive *)

Section Binary64Order.
Local Open Scope Z_scope.

Lemma SFleb_key x y :
  SFleb x y = true <-> x <> S754_nan /\ y <> S754_nan /\ key_le (SF_key x) (SF_key y).
Proof.
  unfold SFleb.
  destruct x as [s1|[]| |[] m1 e1], y as [s2|[]| |[] m2 e2]; simpl;
    try (split; [intros _; repeat split; try discriminate; lia
                |intros _; reflexivity]);
    try (split; [discriminate|intros (H1 & H2 & H3); solve [congruence | lia]]).
  - (* both below zero *)
    change (Pos.compare_cont Eq m1 m2) with (Pos.compare m1 m2).
    destruct (Z.compare_spec e1 e2) as [He|He|He]; simpl.
    + destruct (Pos.compare_spec m1 m2) as [Hm|Hm|Hm]; simpl;
        (split; [intros H; try discriminate H; repeat split; try discriminate; lia
                |intros (_ & _ & H); try reflexivity; lia]).
    + split; [discriminate|intros (_ & _ & H); lia].
    + split; [intros _; repeat split; try discriminate; lia|reflexivity].
  - (* both above zero *)
    change (Pos.compare_cont Eq m1 m2) with (Pos.compare m1 m2).
    destruct (Z.compare_spec e1 e2) as [He|He|He]; simpl.
    + destruct (Pos.compare_spec m1 m2) as [Hm|Hm|Hm]; simpl;
        (split; [intros H; try discriminate H; repeat split; try discriminate; lia
                |intros (_ & _ & H); try reflexivity; lia]).
    + split; [intros _; repeat split; try discriminate; lia|reflexivity].
    + split; [discriminate|intros (_ & _ & H); lia].
Qed.

Lemma key_le_trans a b c : key_le a b -> key_le b c -> key_le a c.
Proof.
  destruct a as [[a1 a2] a3], b as [[b1 b2] b3], c as [[c1 c2] c3]. unfold key_le. lia.
Qed.

Lemma SFleb_trans x y z : SFleb x y = true -> SFleb y z = true -> SFleb x z = true.
Proof.
  rewrite !SFleb_key. intros (Hx & _ & Hxy) (_ & Hz & Hyz).
  repeat split; try assumption. eapply key_le_trans; eassumption.
Qed.

End Binary64Order.

Section PrimitiveOrder.
Local Open Scope float_scope.

Lemma leb_trans x y z : (x <=? y) = true -> (y <=? z) = true -> (x <=? z) = true.
Proof. rewrite !leb_spec. apply SFleb_trans. Qed.

Lemma leb_refl x : is_nan x = false -> (x <=? x) = true.
Proof.
  rewrite is_nan_false_iff, leb_spec. intros H. unfold SFleb.
  now rewrite SFcompare_refl.
Qed.

Lemma eqb_sym x y : (x =? y) = (y =? x).
Proof.
  rewrite !eqb_spec. unfold SFeqb.
  rewrite (SFcompare_antisym (Prim2SF x) (Prim2SF y)).
  destruct (SFcompare (Prim2SF x) (Prim2SF y)) as [[]|]; reflexivity.
Qed.

Lemma leb_abs x : is_nan x = false -> (x <=? abs x) = true.
Proof.
  rewrite is_nan_false_iff, leb_spec, abs_spec. intros H. unfold SFleb.
  destruct (Prim2SF x) as [s|[]| |[] m e] eqn:E; simpl; try reflexivity; try congruence.
  rewrite Z.compare_refl. change (Pos.compare_cont Eq m m) with (Pos.compare m m).
  now rewrite Pos.compare_refl.
Qed.

Lemma leb_opp_abs x : is_nan x = false -> (- abs x <=? x) = true.
Proof.
  rewrite is_nan_false_iff, leb_spec, opp_spec, abs_spec. intros H. unfold SFleb.
  destruct (Prim2SF x) as [s|[]| |[] m e] eqn:E; simpl; try reflexivity; try congruence.
  rewrite Z.compare_refl. change (Pos.compare_cont Eq m m) with (Pos.compare m m).
  now rewrite Pos.compare_refl.
Qed.

(** A magnitude bound bounds the number on both sides. *)
Lemma abs_leb_range x c :
  (abs x <=? c) = true -> (- c <=? x) = true /\ (x <=? c) = true.
Proof.
  intros H. assert (Hx : is_nan x = false).
  { apply leb_not_nan_l in H. rewrite is_nan_SF in *. rewrite abs_spec in H.
    destruct (Prim2SF x); simpl in *; congruence. }
  split.
  - apply leb_trans with (y := - abs x); [|now apply leb_opp_abs].
    now rewrite leb_opp.
  - apply leb_trans with (y := abs x); [now apply leb_abs|assumption].
Qed.

Lemma ltb_zero_opp x : (0 <? - x) = (x <? 0).
Proof.
  rewrite !ltb_spec, opp_spec. change (Prim2SF 0) with (S754_zero false).
  destruct (Prim2SF x) as [s|[]| |[] m e]; reflexivity.
Qed.

End PrimitiveOrder.

(** ** Part II: lists, matrices and the loop skeleton *)

Lemma bind_ok {A B : Type} (c : res A) (k : A -> res B) (b : B) :
  bind c k = Ok b -> exists a, c = Ok a /\ k a = Ok b.
Proof. destruct c as [a|e]; simpl; intros H; [eauto|discriminate]. Qed.

Lemma getitem_ok {A : Type} (l : list A) (i : nat) (x : A) :
  getitem l i = Ok x <-> nth_error l i = Some x.
Proof.
  unfold getitem. destruct (nth_error l i); split; intros H; congruence.
Qed.

Lemma getitem_in_range {A : Type} (l : list A) (i : nat) :
  i < length l -> exists x, getitem l i = Ok x /\ nth_error l i = Some x.
Proof.
  intros Hi. unfold getitem. destruct (nth_error l i) as [x|] eqn:E; [eauto|].
  apply nth_error_None in E. lia.
Qed.

Lemma replace_nth_length {A : Type} (l : list A) (i : nat) (v : A) :
  length (replace_nth l i v) = length l.
Proof.
  revert i. induction l as [|h t IH]; intros [|i]; simpl; try reflexivity.
  now rewrite IH.
Qed.

Lemma nth_error_replace_nth_eq {A : Type} (l : list A) (i : nat) (v : A) :
  i < length l -> nth_error (replace_nth l i v) i = Some v.
Proof.
  revert i. induction l as [|h t IH]; intros [|i]; simpl; intros Hi; try lia.
  - reflexivity.
  - apply IH. lia.
Qed.

Lemma nth_error_replace_nth_neq {A : Type} (l : list A) (i k : nat) (v : A) :
  k <> i -> nth_error (replace_nth l i v) k = nth_error l k.
Proof.
  revert i k. induction l as [|h t IH]; intros [|i] [|k]; simpl; intros Hk;
    try reflexivity; try lia.
  apply IH. lia.
Qed.

Lemma entry_row (m : matrix) (i j : nat) (row : list float) :
  nth_error m i = Some row -> entry m i j = nth_error row j.
Proof. unfold entry. now intros ->. Qed.

Lemma getitem2_entry (m : matrix) (i j : nat) (x : float) :
  getitem2 m i j = Ok x <-> entry m i j = Some x.
Proof.
  unfold getitem2, entry, getitem.
  destruct (nth_error m i) as [row|]; simpl; [|split; discriminate].
  destruct (nth_error row j); split; intros H; congruence.
Qed.

Lemma is_square_row (n : nat) (m : matrix) (i : nat) :
  is_square n m -> i < n -> exists row, nth_error m i = Some row /\ length row = n.
Proof.
  intros [Hlen Hrows] Hi.
  destruct (nth_error m i) as [row|] eqn:E.
  - exists row. split; [reflexivity|].
    rewrite Forall_forall in Hrows. apply Hrows. eapply nth_error_In; eassumption.
  - apply nth_error_None in E. lia.
Qed.

Lemma is_square_entry (n : nat) (m : matrix) (i j : nat) :
  is_square n m -> i < n -> j < n -> exists x, entry m i j = Some x.
Proof.
  intros Hsq Hi Hj. destruct (is_square_row n m i Hsq Hi) as (row & Hrow & Hlen).
  rewrite (entry_row m i j row Hrow).
  destruct (nth_error row j) as [x|] eqn:E; [eauto|].
  apply nth_error_None in E. lia.
Qed.

Lemma is_square_replace (n : nat) (m : matrix) (i : nat) (row : list float) :
  is_square n m -> length row = n -> is_square n (replace_nth m i row).
Proof.
  intros [Hlen Hrows] Hrow. split; [now rewrite replace_nth_length|].
  clear Hlen. revert i. induction Hrows as [|h t Hh Ht IH]; intros [|i]; simpl;
    constructor; auto.
Qed.

Lemma zeros_square (n : nat) : is_square n (zeros n).
Proof.
  unfold zeros. split; [apply repeat_length|].
  apply Forall_forall. intros row Hin. apply repeat_spec in Hin. subst row.
  apply repeat_length.
Qed.

Lemma nth_error_repeat_lt {A : Type} (x : A) (n i : nat) :
  i < n -> nth_error (repeat x n) i = Some x.
Proof.
  revert i. induction n as [|n IH]; intros [|i] Hi; simpl; try lia; [reflexivity|].
  apply IH. lia.
Qed.

Lemma zeros_entry (n i j : nat) : i < n -> j < n -> entry (zeros n) i j = Some 0%float.
Proof.
  intros Hi Hj. unfold entry, zeros.
  rewrite (nth_error_repeat_lt _ n i Hi). now apply nth_error_repeat_lt.
Qed.

(** The effect of one store [m[i][j] = v] on a square matrix. *)
Lemma setitem2_square (n : nat) (m : matrix) (i j : nat) (v : float) :
  is_square n m -> i < n -> j < n ->
  exists m', setitem2 m i j v = Ok m' /\ is_square n m'
    /\ entry m' i j = Some v
    /\ (forall a b, (a, b) <> (i, j) -> entry m' a b = entry m a b).
Proof.
  intros Hsq Hi Hj. destruct (is_square_row n m i Hsq Hi) as (row & Hrow & Hlen).
  pose proof Hsq as [Hm _].
  unfold setitem2, getitem, setitem. rewrite Hrow. simpl.
  replace (j <? length row) with true by (symmetry; apply Nat.ltb_lt; lia). simpl.
  replace (i <? length m) with true by (symmetry; apply Nat.ltb_lt; lia).
  eexists. split; [reflexivity|]. split; [|split].
  - apply is_square_replace; [assumption|]. now rewrite replace_nth_length.
  - unfold entry. rewrite nth_error_replace_nth_eq by lia.
    apply nth_error_replace_nth_eq. lia.
  - intros a b Hab. unfold entry.
    destruct (Nat.eq_dec a i) as [->|Ha].
    + rewrite nth_error_replace_nth_eq by lia. rewrite Hrow.
      apply nth_error_replace_nth_neq. congruence.
    + now rewrite nth_error_replace_nth_neq.
Qed.

Section FillOffDiagonal.
Variable n : nat.
Variable cell : nat -> nat -> res float.

Let inner (i : nat) : nat -> matrix -> res matrix :=
  fun j m => if i =? j then Ok m else v <- cell i j ;; setitem2 m i j v.

(** What the inner loop has done to row [i] once it is through [js]. *)
Lemma inner_loop_inv (i : nat) (js : list nat) : forall m m',
  for_each js (inner i) m = Ok m' ->
  is_square n m -> i < n -> Forall (fun j => j < n) js -> NoDup js ->
  is_square n m'
  /\ (forall b, In b js -> b <> i -> exists v, cell i b = Ok v /\ entry m' i b = Some v)
  /\ (forall a b, ~ (a = i /\ In b js /\ b <> i) -> entry m' a b = entry m a b).
Proof.
  induction js as [|j js IH]; intros m m' Hrun Hsq Hi Hjs Hnd.
  - simpl in Hrun. inversion Hrun; subst m'. split; [exact Hsq|]. split.
    + intros b [].
    + reflexivity.
  - simpl in Hrun. apply bind_ok in Hrun. destruct Hrun as (m1 & Hbody & Hrest).
    inversion Hjs as [|? ? Hj Hjs']; subst. inversion Hnd as [|? ? Hnotin Hnd']; subst.
    unfold inner in Hbody. destruct (Nat.eqb_spec i j) as [Heq|Hneq].
    + inversion Hbody; subst m1. subst j.
      destruct (IH m m' Hrest Hsq Hi Hjs' Hnd') as (Hsq' & Hset & Hkeep).
      split; [assumption|]. split.
      * intros b [Hb|Hb] Hbi; [congruence|]. now apply Hset.
      * intros a b Hab. apply Hkeep. intros (Ha & Hb & Hbi). apply Hab. simpl. tauto.
    + apply bind_ok in Hbody. destruct Hbody as (v & Hcell & Hstore).
      destruct (setitem2_square n m i j v Hsq Hi Hj) as (m1' & Hstore' & Hsq1 & Hij & Hother).
      rewrite Hstore in Hstore'. inversion Hstore'; subst m1'.
      destruct (IH m1 m' Hrest Hsq1 Hi Hjs' Hnd') as (Hsq' & Hset & Hkeep).
      split; [assumption|]. split.
      * intros b [Hb|Hb] Hbi.
        -- subst b. exists v. split; [assumption|].
           rewrite Hkeep; [assumption|]. intros (_ & Hin & _). contradiction.
        -- now apply Hset.
      * intros a b Hab. rewrite Hkeep.
        -- apply Hother. intros Heq. inversion Heq; subst. apply Hab. simpl. auto.
        -- intros (Ha & Hb & Hbi). apply Hab. simpl. tauto.
Qed.

(** The inner loop runs to its end when every cell it needs is computed. *)
Lemma inner_loop_runs (i : nat) (js : list nat) : forall m,
  is_square n m -> i < n -> Forall (fun j => j < n) js ->
  (forall j, In j js -> j <> i -> exists v, cell i j = Ok v) ->
  exists m', for_each js (inner i) m = Ok m' /\ is_square n m'.
Proof.
  induction js as [|j js IH]; intros m Hsq Hi Hjs Hcells; simpl.
  - eauto.
  - inversion Hjs as [|? ? Hj Hjs']; subst.
    unfold inner at 1. destruct (Nat.eqb_spec i j) as [Heq|Hneq]; simpl.
    + apply IH; auto. intros k Hk. apply Hcells. now right.
    + destruct (Hcells j (or_introl eq_refl) (fun H => Hneq (eq_sym H))) as (v & Hv).
      rewrite Hv. simpl.
      destruct (setitem2_square n m i j v Hsq Hi Hj) as (m1 & Hstore & Hsq1 & _).
      rewrite Hstore. simpl. apply IH; auto. intros k Hk. apply Hcells. now right.
Qed.

Let outer : nat -> matrix -> res matrix :=
  fun i m => for_each (range n) (inner i) m.

Lemma range_bounded : Forall (fun j => j < n) (range n).
Proof. apply Forall_forall. intros j Hj. apply in_seq in Hj. lia. Qed.

Lemma outer_loop_inv (rows : list nat) : forall m m',
  for_each rows outer m = Ok m' ->
  is_square n m -> Forall (fun i => i < n) rows -> NoDup rows ->
  is_square n m'
  /\ (forall a b, In a rows -> b < n -> b <> a ->
        exists v, cell a b = Ok v /\ entry m' a b = Some v)
  /\ (forall a b, ~ (In a rows /\ b < n /\ b <> a) -> entry m' a b = entry m a b).
Proof.
  induction rows as [|i rows IH]; intros m m' Hrun Hsq Hrows Hnd.
  - simpl in Hrun. inversion Hrun; subst m'. split; [exact Hsq|]. split.
    + intros a b [].
    + reflexivity.
  - simpl in Hrun. apply bind_ok in Hrun. destruct Hrun as (m1 & Hbody & Hrest).
    inversion Hrows as [|? ? Hi Hrows']; subst. inversion Hnd as [|? ? Hnotin Hnd']; subst.
    destruct (inner_loop_inv i (range n) m m1 Hbody Hsq Hi range_bounded (seq_NoDup n 0))
      as (Hsq1 & Hset1 & Hkeep1).
    destruct (IH m1 m' Hrest Hsq1 Hrows' Hnd') as (Hsq' & Hset & Hkeep).
    split; [assumption|]. split.
    + intros a b [Ha|Ha] Hb Hba.
      * subst a. destruct (Hset1 b) as (v & Hv & Hentry); [apply in_seq; lia|assumption|].
        exists v. split; [assumption|]. rewrite Hkeep; [assumption|].
        intros (Hin & _). contradiction.
      * now apply Hset.
    + intros a b Hab. rewrite Hkeep.
      * apply Hkeep1. intros (Ha & Hb & Hbi). apply Hab. subst a. simpl.
        apply in_seq in Hb. split; [auto|]. split; [lia|assumption].
      * intros (Ha & Hb & Hbi). apply Hab. simpl. tauto.
Qed.

Lemma outer_loop_runs (rows : list nat) : forall m,
  is_square n m -> Forall (fun i => i < n) rows ->
  (forall i j, In i rows -> j < n -> j <> i -> exists v, cell i j = Ok v) ->
  exists m', for_each rows outer m = Ok m'.
Proof.
  induction rows as [|i rows IH]; intros m Hsq Hrows Hcells; simpl.
  - eauto.
  - inversion Hrows as [|? ? Hi Hrows']; subst.
    destruct (inner_loop_runs i (range n) m Hsq Hi range_bounded) as (m1 & Hrun & Hsq1).
    { intros j Hj Hji. apply Hcells; [now left| |assumption]. apply in_seq in Hj. lia. }
    unfold outer at 1. rewrite Hrun. simpl. apply IH; auto.
    intros k j Hk. apply Hcells. now right.
Qed.

(** A finished fill: the shape is kept, the diagonal is untouched and
    every other entry holds what [cell] computed for it. *)
Lemma fill_off_diagonal_inv (m m' : matrix) :
  fill_off_diagonal n cell m = Ok m' -> is_square n m ->
  is_square n m'
  /\ (forall i, entry m' i i = entry m i i)
  /\ (forall i j, i < n -> j < n -> i <> j ->
        exists v, cell i j = Ok v /\ entry m' i j = Some v).
Proof.
  intros Hrun Hsq.
  destruct (outer_loop_inv (range n) m m' Hrun Hsq range_bounded (seq_NoDup n 0))
    as (Hsq' & Hset & Hkeep).
  split; [assumption|]. split.
  - intros i. apply Hkeep. intros (_ & _ & H). now apply H.
  - intros i j Hi Hj Hij. apply Hset; [apply in_seq; lia|assumption|congruence].
Qed.

(** The fill finishes when every off-diagonal cell is computed. *)
Lemma fill_off_diagonal_runs (m : matrix) :
  is_square n m ->
  (forall i j, i < n -> j < n -> i <> j -> exists v, cell i j = Ok v) ->
  exists m', fill_off_diagonal n cell m = Ok m'.
Proof.
  intros Hsq Hcells. apply outer_loop_runs; [assumption|apply range_bounded|].
  intros i j Hi Hj Hji. apply Hcells; [apply in_seq in Hi; lia|assumption|congruence].
Qed.

(** The first cell the loops reach is row 0, column 1: its exception
    ends the fill. *)
Lemma fill_off_diagonal_first_raise (m : matrix) (e : exn) :
  2 <= n -> cell 0 1 = Raise e -> fill_off_diagonal n cell m = Raise e.
Proof.
  intros Hn Hcell. unfold fill_off_diagonal, range.
  destruct n as [|[|k]]; try lia. simpl. now rewrite Hcell.
Qed.
End FillOffDiagonal.

(** ** Part III: the weather-adjusted matrix *)

Section AdjustedMatrix.
Local Open Scope float_scope.

Lemma py_max_cases (a b : float) : py_max a b = a \/ py_max a b = b.
Proof. unfold py_max. destruct (a <? b); auto. Qed.

Lemma eqb_zero_leb (d : float) : (d =? 0) = true -> (d <=? 0) = true.
Proof.
  rewrite eqb_spec, leb_spec. unfold SFeqb, SFleb.
  destruct (SFcompare (Prim2SF d) (Prim2SF 0)) as [[]|]; congruence.
Qed.

Lemma eqb_zero_sym (d : float) : (d =? 0) = true -> (0 =? d) = true.
Proof.
  rewrite !eqb_spec. change (Prim2SF 0) with (S754_zero false). unfold SFeqb.
  destruct (Prim2SF d) as [s|[]| |[] m e]; simpl; congruence.
Qed.

Lemma leb_zero_eqb_refl (x : float) : (0 <=? x) = true -> (x =? x) = true.
Proof.
  intros H. rewrite eqb_spec. unfold SFeqb.
  destruct (leb_zero_SF x H) as [(s & E)|[(m & e & E)|E]]; rewrite E;
    now rewrite SFcompare_refl.
Qed.

(** What [apply_weather_to_matrix] returns on a square matrix with one
    factor per row. *)
Lemma apply_weather_to_matrix_spec (n : nat) (base : matrix) (factors : list float) :
  is_square n base -> length factors = n ->
  exists m, apply_weather_to_matrix base factors = Ok m
    /\ is_square n m
    /\ (forall i, i < n -> entry m i i = Some 0)
    /\ (forall i j, i < n -> j < n -> i <> j ->
          exists b fi fj,
            entry base i j = Some b /\ nth_error factors i = Some fi
            /\ nth_error factors j = Some fj
            /\ entry m i j = Some (b * py_max fi fj)).
Proof.
  intros Hsq Hlen. pose proof Hsq as [Hn _].
  assert (Hcell : forall i j, i < n -> j < n ->
            exists b fi fj, entry base i j = Some b /\ nth_error factors i = Some fi
              /\ nth_error factors j = Some fj
              /\ adjusted_minutes base factors i j = Ok (b * py_max fi fj)).
  { intros i j Hi Hj.
    destruct (is_square_entry n base i j Hsq Hi Hj) as (b & Hb).
    destruct (getitem_in_range factors i ltac:(lia)) as (fi & Hgi & Hfi).
    destruct (getitem_in_range factors j ltac:(lia)) as (fj & Hgj & Hfj).
    exists b, fi, fj. repeat (split; [assumption|]).
    unfold adjusted_minutes. apply getitem2_entry in Hb. rewrite Hb, Hgi, Hgj. reflexivity. }
  unfold apply_weather_to_matrix. rewrite Hn.
  destruct (fill_off_diagonal_runs n (adjusted_minutes base factors) (zeros n) (zeros_square n))
    as (m & Hrun).
  { intros i j Hi Hj _. destruct (Hcell i j Hi Hj) as (b & fi & fj & _ & _ & _ & H). eauto. }
  exists m. split; [assumption|].
  destruct (fill_off_diagonal_inv n _ _ m Hrun (zeros_square n)) as (Hsq' & Hdiag & Hoff).
  split; [assumption|]. split.
  - intros i Hi. rewrite Hdiag. now apply zeros_entry.
  - intros i j Hi Hj Hij. destruct (Hoff i j Hi Hj Hij) as (v & Hv & Hentry).
    destruct (Hcell i j Hi Hj) as (b & fi & fj & Hb & Hfi & Hfj & Hadj).
    exists b, fi, fj. repeat (split; [assumption|]). congruence.
Qed.

End AdjustedMatrix.

Section AdjustedMatrixProperties.

Lemma entry_in_range (n : nat) (m : matrix) (i j : nat) (x : float) :
  is_square n m -> entry m i j = Some x -> i < n /\ j < n.
Proof.
  intros [Hlen Hrows] H. unfold entry in H.
  destruct (nth_error m i) as [row|] eqn:E; [|discriminate].
  assert (Hi : i < length m) by (apply nth_error_Some; congruence).
  assert (Hj : j < length row) by (apply nth_error_Some; congruence).
  rewrite Forall_forall in Hrows. rewrite (Hrows row) in Hj by (eapply nth_error_In; eassumption).
  lia.
Qed.

Lemma leb_zero_trans (x y : float) :
  (0 <=? x)%float = true -> (x <=? y)%float = true -> (0 <=? y)%float = true.
Proof.
  intros Hx Hxy. apply SF_nonneg_leb. rewrite leb_spec in Hxy.
  destruct (leb_zero_SF x Hx) as [(s & E)|[(m & e & E)|E]]; rewrite E in Hxy;
    destruct (Prim2SF y) as [s'|[]| |[] m' e']; simpl in Hxy; try discriminate; exact I.
Qed.

Lemma is_square_b_sound (n : nat) (m : matrix) : is_square_b n m = true -> is_square n m.
Proof.
  unfold is_square_b. intros H. apply andb_prop in H. destruct H as [H1 H2].
  split; [now apply Nat.eqb_eq|].
  apply Forall_forall. intros row Hin. rewrite forallb_forall in H2.
  apply Nat.eqb_eq. now apply H2.
Qed.

Lemma nonneg_matrix_b_sound (m : matrix) : nonneg_matrix_b m = true -> nonneg_matrix m.
Proof.
  unfold nonneg_matrix_b, nonneg_matrix, entry. intros H i j x Hx.
  rewrite forallb_forall in H.
  destruct (nth_error m i) as [row|] eqn:E; [|discriminate].
  specialize (H row (nth_error_In _ _ E)). rewrite forallb_forall in H.
  apply H. eapply nth_error_In; eassumption.
Qed.

Lemma zero_diagonal_b_sound (n : nat) (m : matrix) :
  zero_diagonal_b n m = true -> zero_diagonal n m.
Proof.
  unfold zero_diagonal_b, zero_diagonal. intros H i Hi.
  rewrite forallb_forall in H. specialize (H i ltac:(apply in_seq; lia)).
  destruct (entry m i i) as [d|]; [eauto|discriminate].
Qed.

Lemma factors_ok_b_sound (factors : list float) :
  factors_ok_b factors = true ->
  forall f, In f factors -> (1 <=? f)%float = true /\ is_finite f = true.
Proof.
  unfold factors_ok_b. intros H f Hf. rewrite forallb_forall in H.
  now apply andb_prop, H.
Qed.

(** C1 (amended): on a square base matrix with one factor per stop,
    [apply_weather_to_matrix] returns a matrix of the same shape whose
    entry (i,j) is [base(i,j) * max(factor(i), factor(j))] off the diagonal
    and [0.0] on it; when no base entry is negative and the factors are
    finite and at least 1.0, no entry of the result is negative. *)
Theorem apply_weather_to_matrix_adjusts (n : nat) (base : matrix) (factors : list float) :
  is_square n base -> length factors = n ->
  exists m, apply_weather_to_matrix base factors = Ok m
    /\ is_square n m
    /\ (forall i j, i < n -> j < n -> i <> j ->
          exists b fi fj,
            entry base i j = Some b /\ nth_error factors i = Some fi
            /\ nth_error factors j = Some fj
            /\ entry m i j = Some (b * py_max fi fj)%float)
    /\ (forall i, i < n -> entry m i i = Some 0%float)
    /\ (nonneg_matrix base ->
        (forall f, In f factors -> (1 <=? f)%float = true /\ is_finite f = true) ->
        nonneg_matrix m).
Proof.
  intros Hsq Hlen.
  destruct (apply_weather_to_matrix_spec n base factors Hsq Hlen)
    as (m & Hrun & Hsq' & Hdiag & Hoff).
  exists m. repeat (split; [assumption|]).
  intros Hbase Hfac i j x Hx.
  destruct (entry_in_range n m i j x Hsq' Hx) as [Hi Hj].
  destruct (Nat.eq_dec i j) as [->|Hij].
  - rewrite Hdiag in Hx by assumption. now inversion Hx.
  - destruct (Hoff i j Hi Hj Hij) as (b & fi & fj & Hb & Hfi & Hfj & Hm).
    rewrite Hm in Hx. inversion Hx; subst x. clear Hx.
    assert (Hmax : (1 <=? py_max fi fj)%float = true /\ is_finite (py_max fi fj) = true).
    { destruct (py_max_cases fi fj) as [-> | ->]; apply Hfac; eapply nth_error_In; eassumption. }
    apply leb_zero_trans with (x := b); [eapply Hbase; eassumption|].
    apply mul_ge_self; [eapply Hbase; eassumption|apply Hmax|apply Hmax].
Qed.

Lemma apply_weather_to_matrix_adjusts_witness :
  exists m, apply_weather_to_matrix sample_base sample_factors = Ok m
    /\ is_square 2 m
    /\ (forall i j, i < 2 -> j < 2 -> i <> j ->
          exists b fi fj,
            entry sample_base i j = Some b /\ nth_error sample_factors i = Some fi
            /\ nth_error sample_factors j = Some fj
            /\ entry m i j = Some (b * py_max fi fj)%float)
    /\ (forall i, i < 2 -> entry m i i = Some 0%float)
    /\ (nonneg_matrix sample_base ->
        (forall f, In f sample_factors -> (1 <=? f)%float = true /\ is_finite f = true) ->
        nonneg_matrix m).
Proof.
  apply (apply_weather_to_matrix_adjusts 2 sample_base sample_factors).
  - apply is_square_b_sound. vm_compute. reflexivity.
  - reflexivity.
Defined.

(** C1, as stated, fails: an infinite factor is at least 1.0, and on a
    zero base entry it yields [0.0 * inf = nan], which is not [>= 0]. *)
Lemma infinite_factor_breaks_nonnegativity :
  is_square 2 colocated_base
  /\ length unbounded_factors = 2
  /\ nonneg_matrix colocated_base
  /\ (forall f, In f unbounded_factors -> (1 <=? f)%float = true)
  /\ exists m x, apply_weather_to_matrix colocated_base unbounded_factors = Ok m
       /\ entry m 0 1 = Some x /\ (0 <=? x)%float = false.
Proof.
  split; [apply is_square_b_sound; vm_compute; reflexivity|].
  split; [reflexivity|].
  split; [apply nonneg_matrix_b_sound; vm_compute; reflexivity|].
  split.
  - intros f [<-|[<-|[]]]; vm_compute; reflexivity.
  - eexists. eexists. split; [vm_compute; reflexivity|].
    split; vm_compute; reflexivity.
Qed.

(** C7 (amended): on a base matrix of the data model (square, zero
    diagonal, no negative entry) and finite factors of at least 1.0, every
    entry of the adjusted matrix is at least the base entry; when every
    factor is exactly 1.0 the adjusted matrix has the shape and the entries
    of the base matrix. *)
Theorem adjusted_matrix_dominates_base (n : nat) (base : matrix) (factors : list float) :
  TimeMatrix n base -> length factors = n ->
  (forall f, In f factors -> (1 <=? f)%float = true /\ is_finite f = true) ->
  exists m, apply_weather_to_matrix base factors = Ok m
    /\ is_square n m
    /\ (forall i j, i < n -> j < n ->
          exists b x, entry base i j = Some b /\ entry m i j = Some x
                      /\ (b <=? x)%float = true)
    /\ ((forall f, In f factors -> f = 1%float) ->
        forall i j, i < n -> j < n ->
          exists b x, entry base i j = Some b /\ entry m i j = Some x
                      /\ (x =? b)%float = true /\ (i <> j -> x = b)).
Proof.
  intros (Hsq & Hzero & Hnonneg) Hlen Hfac.
  destruct (apply_weather_to_matrix_spec n base factors Hsq Hlen)
    as (m & Hrun & Hsq' & Hdiag & Hoff).
  exists m. repeat (split; [assumption|]). split.
  - intros i j Hi Hj. destruct (Nat.eq_dec i j) as [<-|Hij].
    + destruct (Hzero i Hi) as (d & Hd & Hd0).
      exists d, 0%float. repeat split; auto. now apply eqb_zero_leb.
    + destruct (Hoff i j Hi Hj Hij) as (b & fi & fj & Hb & Hfi & Hfj & Hm).
      exists b, (b * py_max fi fj)%float. repeat split; auto.
      assert (Hmax : (1 <=? py_max fi fj)%float = true /\ is_finite (py_max fi fj) = true).
      { destruct (py_max_cases fi fj) as [-> | ->]; apply Hfac; eapply nth_error_In; eassumption. }
      apply mul_ge_self; [eapply Hnonneg; eassumption|apply Hmax|apply Hmax].
  - intros Hone i j Hi Hj. destruct (Nat.eq_dec i j) as [<-|Hij].
    + destruct (Hzero i Hi) as (d & Hd & Hd0).
      exists d, 0%float. repeat split; auto.
      * now apply eqb_zero_sym.
      * intros H. now elim H.
    + destruct (Hoff i j Hi Hj Hij) as (b & fi & fj & Hb & Hfi & Hfj & Hm).
      assert (Hmax : py_max fi fj = 1%float).
      { destruct (py_max_cases fi fj) as [-> | ->]; apply Hone; eapply nth_error_In; eassumption. }
      rewrite Hmax, mul_1_r in Hm.
      exists b, b. repeat split; auto.
      apply leb_zero_eqb_refl. eapply Hnonneg; eassumption.
Qed.

Lemma adjusted_matrix_dominates_base_witness :
  exists m, apply_weather_to_matrix sample_base neutral_factors = Ok m
    /\ is_square 2 m
    /\ (forall i j, i < 2 -> j < 2 ->
          exists b x, entry sample_base i j = Some b /\ entry m i j = Some x
                      /\ (b <=? x)%float = true)
    /\ ((forall f, In f neutral_factors -> f = 1%float) ->
        forall i j, i < 2 -> j < 2 ->
          exists b x, entry sample_base i j = Some b /\ entry m i j = Some x
                      /\ (x =? b)%float = true /\ (i <> j -> x = b)).
Proof.
  apply (adjusted_matrix_dominates_base 2 sample_base neutral_factors).
  - split; [|split].
    + apply is_square_b_sound. vm_compute. reflexivity.
    + apply zero_diagonal_b_sound. vm_compute. reflexivity.
    + apply nonneg_matrix_b_sound. vm_compute. reflexivity.
  - reflexivity.
  - apply factors_ok_b_sound. vm_compute. reflexivity.
Defined.

(** C7, as stated, fails on a matrix of the data model: with two stops
    at one place and an infinite factor the adjusted entry is [nan], which
    is not [>=] the base entry [0.0]. *)
Lemma infinite_factor_breaks_domination :
  TimeMatrix 3 triangle_base
  /\ length triangle_factors = 3
  /\ (forall f, In f triangle_factors -> (1 <=? f)%float = true)
  /\ exists m b x, apply_weather_to_matrix triangle_base triangle_factors = Ok m
       /\ entry triangle_base 0 1 = Some b /\ entry m 0 1 = Some x
       /\ (b <=? x)%float = false.
Proof.
  split.
  { split; [|split].
    - apply is_square_b_sound. vm_compute. reflexivity.
    - apply zero_diagonal_b_sound. vm_compute. reflexivity.
    - apply nonneg_matrix_b_sound. vm_compute. reflexivity. }
  split; [reflexivity|]. split.
  - intros f [<-|[<-|[<-|[]]]]; vm_compute; reflexivity.
  - eexists. eexists. eexists. split; [vm_compute; reflexivity|].
    repeat split; vm_compute; reflexivity.
Qed.

End AdjustedMatrixProperties.

(** ** Part IV: weather factors *)

Section WeatherFactor.

Ltac factor_cases :=
  repeat match goal with
         | |- context [py_ge ?a ?b] => destruct (py_ge a b)
         end.

(** C5: the factor of a resolved observation is 1.0 plus, added in this
    order, +0.10 for precipitation >= 0.5, a further +0.10 for
    precipitation >= 5.0, +0.20 for snowfall >= 0.1, a further +0.30 for
    snowfall >= 1.0, +0.05 for wind >= 30 and +0.10 for gusts >= 50; each
    penalty depends on its own threshold only. *)
Theorem weather_factor_stacks (precip snow wind gust : pynum) :
  weather_factor precip snow wind gust =
  (1.0 + penalty (py_ge precip (PyFloat 0.5)) 0.10
       + penalty (py_ge precip (PyFloat 5.0)) 0.10
       + penalty (py_ge snow (PyFloat 0.1)) 0.20
       + penalty (py_ge snow (PyFloat 1.0)) 0.30
       + penalty (py_ge wind (PyInt 30)) 0.05
       + penalty (py_ge gust (PyInt 50)) 0.10)%float.
Proof.
  unfold weather_factor. factor_cases; vm_compute; reflexivity.
Qed.

Lemma weather_factor_bounds (precip snow wind gust : pynum) :
  (1.0 <=? weather_factor precip snow wind gust)%float = true
  /\ (weather_factor precip snow wind gust <=? max_factor)%float = true.
Proof.
  unfold weather_factor. factor_cases; vm_compute; split; reflexivity.
Qed.

(** A returned factor is the neutral one, when the hour is not found, or
    the factor of four numbers. *)
Lemma get_weather_factor_value (W : World) (lat lon : float) (when_iso : option string)
  (f : float) :
  get_weather_factor W lat lon when_iso = Ok f ->
  f = 1.0%float \/ exists precip snow wind gust, f = weather_factor precip snow wind gust.
Proof.
  unfold get_weather_factor. destruct when_iso as [w|]; [|discriminate].
  destruct (parse_utc W w) as [dt|e]; cbn [bind]; [|discriminate].
  destruct (forecast W lat lon (fst dt)) as [|status body]; [discriminate|].
  destruct (raise_for_status status) as [[]|e]; cbn [bind]; [|discriminate].
  destruct body as [obj|]; [|discriminate].
  destruct (dict_get obj "hourly" (JObj [])) as [data|e]; cbn [bind]; [|discriminate].
  destruct (dict_get data "time" (JArr [])) as [times|e]; cbn [bind]; [|discriminate].
  destruct (py_index times _) as [idx|[]]; try discriminate.
  - intros H.
    apply bind_ok in H. destruct H as (v1 & _ & H).
    apply bind_ok in H. destruct H as (v2 & _ & H).
    apply bind_ok in H. destruct H as (v3 & _ & H).
    apply bind_ok in H. destruct H as (v4 & _ & H).
    apply bind_ok in H. destruct H as (precip & _ & H).
    apply bind_ok in H. destruct H as (snow & _ & H).
    apply bind_ok in H. destruct H as (wind & _ & H).
    apply bind_ok in H. destruct H as (gust & _ & H).
    inversion H. right. eauto.
  - intros H. inversion H. now left.
Qed.

(** C10 (amended): whenever [get_weather_factor] returns a factor it lies
    between 1.0 and [max_factor], the binary64 sum of the base and the six
    penalties, which is one unit in the last place above 1.85. *)
Theorem get_weather_factor_bounds (W : World) (lat lon : float) (when_iso : option string)
  (f : float) :
  get_weather_factor W lat lon when_iso = Ok f ->
  (1.0 <=? f)%float = true /\ (f <=? max_factor)%float = true.
Proof.
  intros H.
  destruct (get_weather_factor_value W lat lon when_iso f H)
    as [->|(precip & snow & wind & gust & ->)].
  - vm_compute. split; reflexivity.
  - apply weather_factor_bounds.
Qed.

Lemma get_weather_factor_bounds_witness :
  (1.0 <=? max_factor)%float = true /\ (max_factor <=? max_factor)%float = true.
Proof.
  apply (get_weather_factor_bounds storm_world 41.1176 (-85.0689)
           (Some "2025-11-10T08:00:00-05:00"%string) max_factor).
  vm_compute. reflexivity.
Defined.

(** C10, as stated, fails: when every threshold is met the factor is
    1.8500000000000003, which is above 1.85. *)
Lemma storm_factor_exceeds_1_85 :
  exists f, get_weather_factor storm_world 41.1176 (-85.0689)
              (Some "2025-11-10T08:00:00-05:00"%string) = Ok f
            /\ (f <=? 1.85)%float = false.
Proof. eexists. split; vm_compute; reflexivity. Qed.

Lemma for_each_collect (W : World) (default_when : option string) (ss : list Stop) :
  forall acc : list float,
  for_each ss (fun s factors =>
      f <- get_weather_factor W (lat s) (lon s) (when_or (when s) default_when) ;;
      Ok (factors ++ [f])) acc
  = (l <- collect (map (fun s => get_weather_factor W (lat s) (lon s)
                                   (when_or (when s) default_when)) ss) ;;
     Ok (acc ++ l)).
Proof.
  induction ss as [|s ss IH]; intros acc; simpl.
  - now rewrite app_nil_r.
  - destruct (get_weather_factor W (lat s) (lon s) (when_or (when s) default_when))
      as [f|e]; simpl; [|reflexivity].
    rewrite IH. destruct (collect _) as [l|e]; simpl; [|reflexivity].
    now rewrite <- app_assoc.
Qed.

(** The factor list is the list of the lookups' results, in stop order,
    and the first exception of a lookup is the exception of the whole. *)
Lemma get_stop_weather_factors_collect (W : World) (s0 : Stop) (rest : list Stop) :
  get_stop_weather_factors W (s0 :: rest)
  = collect (map (fun s => get_weather_factor W (lat s) (lon s)
                             (when_or (when s) (when s0))) (s0 :: rest)).
Proof.
  unfold get_stop_weather_factors.
  change (getitem (s0 :: rest) 0) with (Ok s0). cbn [bind].
  rewrite for_each_collect. destruct (collect _) as [l|e]; reflexivity.
Qed.

Lemma collect_returns {A : Type} (cs : list (res A)) (l : list A) :
  Forall2 (fun c a => c = Ok a) cs l -> collect cs = Ok l.
Proof.
  induction 1 as [|c a cs l Hc _ IH]; simpl; [reflexivity|].
  now rewrite Hc, IH.
Qed.

Lemma collect_first_raise {A : Type} (cs : list (res A)) (e : exn) : forall k,
  nth_error cs k = Some (Raise e) ->
  (forall i c, i < k -> nth_error cs i = Some c -> exists a, c = Ok a) ->
  collect cs = Raise e.
Proof.
  induction cs as [|c cs IH]; intros [|k] Hk Hbefore; try discriminate.
  - simpl in Hk. inversion Hk. reflexivity.
  - destruct (Hbefore 0 c ltac:(lia) eq_refl) as (a & ->). simpl.
    rewrite (IH k Hk); [reflexivity|].
    intros i c' Hi Hc'. apply (Hbefore (S i) c'); [lia|exact Hc'].
Qed.

Lemma eq_str_true (item : json) (key : string) :
  eq_str item key = true -> item = JStr key.
Proof.
  destruct item; try discriminate. simpl. intros H.
  apply String.eqb_eq in H. now subst.
Qed.

Lemma index_of_absent (items : list json) (key : string) :
  ~ In (JStr key) items -> index_of items key = None.
Proof.
  induction items as [|t items IH]; intros Hnot; simpl; [reflexivity|].
  destruct (eq_str t key) eqn:E.
  - apply eq_str_true in E. elim Hnot. now left.
  - rewrite IH; [reflexivity|]. intros H. apply Hnot. now right.
Qed.

(** The failure that is caught: [times.index] finds no entry. *)
Lemma py_index_lacks (times : json) (key : string) :
  lacks_hour times key -> py_index times key = Raise ValueError.
Proof.
  destruct times; simpl; try contradiction.
  - intros H. now rewrite H.
  - intros H. now rewrite index_of_absent.
Qed.

Lemma py_index_no_method (times : json) (key : string) :
  has_index times = false -> py_index times key = Raise AttributeError.
Proof. destruct times; simpl; try discriminate; reflexivity. Qed.

Lemma dict_get_no_method (d : json) (key : string) (default : json) :
  is_object d = false -> dict_get d key default = Raise AttributeError.
Proof. destruct d; simpl; try discriminate; reflexivity. Qed.

(** C3 (amended): the one failure a lookup survives is a ["time"] array
    (or string) without the requested hour, which also covers an absent
    ["hourly"] or ["time"] member: the factor is exactly 1.0.  Nothing
    else is caught: a ["time"] that is neither array nor string, an
    ["hourly"] or a body that is not an object ([AttributeError]), a
    service that cannot be reached, an error status and a body that is not
    JSON make the lookup raise.  [get_stop_weather_factors] returns the
    factors when every lookup returns, and ends with the exception of the
    first lookup that raises, whichever stop it belongs to. *)
Theorem weather_lookup_degradation (W : World) (la lo : float) (w : string)
  (dt : string * string) :
  parse_utc W w = Ok dt ->
  (forall status body data times,
     forecast W la lo (fst dt) = Answer status (Some body) ->
     raise_for_status status = Ok tt ->
     dict_get body "hourly" (JObj []) = Ok data ->
     dict_get data "time" (JArr []) = Ok times ->
     (lacks_hour times (fst dt ++ "T" ++ snd dt)%string ->
      get_weather_factor W la lo (Some w) = Ok 1.0%float)
     /\ (has_index times = false ->
         get_weather_factor W la lo (Some w) = Raise AttributeError))
  /\ (forall status body,
        forecast W la lo (fst dt) = Answer status (Some body) ->
        raise_for_status status = Ok tt ->
        (is_object body = false ->
         get_weather_factor W la lo (Some w) = Raise AttributeError)
        /\ (forall data,
              dict_get body "hourly" (JObj []) = Ok data -> is_object data = false ->
              get_weather_factor W la lo (Some w) = Raise AttributeError))
  /\ (forecast W la lo (fst dt) = Unreachable ->
      get_weather_factor W la lo (Some w) = Raise ConnectionError)
  /\ (forall status body,
        forecast W la lo (fst dt) = Answer status body ->
        400 <= status < 600 ->
        get_weather_factor W la lo (Some w) = Raise HTTPError)
  /\ (forall status,
        forecast W la lo (fst dt) = Answer status None ->
        raise_for_status status = Ok tt ->
        get_weather_factor W la lo (Some w) = Raise JSONDecodeError)
  /\ (forall s0 rest fs,
        Forall2 (fun s f => stop_lookup W s0 s = Ok f) (s0 :: rest) fs ->
        get_stop_weather_factors W (s0 :: rest) = Ok fs)
  /\ (forall s0 rest k s e,
        nth_error (s0 :: rest) k = Some s ->
        (forall i si, i < k -> nth_error (s0 :: rest) i = Some si ->
           exists f, stop_lookup W s0 si = Ok f) ->
        stop_lookup W s0 s = Raise e ->
        get_stop_weather_factors W (s0 :: rest) = Raise e).
Proof.
  intros Hparse. unfold get_weather_factor at 1 2 3 4 5 6 7. rewrite Hparse. cbn [bind].
  split; [|split; [|split; [|split; [|split; [|split]]]]].
  - intros status body data times Hans Hstatus Hdata Htimes.
    rewrite Hans, Hstatus. cbn [bind]. rewrite Hdata. cbn [bind].
    rewrite Htimes. cbn [bind]. split; intros H.
    + now rewrite (py_index_lacks _ _ H).
    + now rewrite (py_index_no_method _ _ H).
  - intros status body Hans Hstatus. rewrite Hans, Hstatus. cbn [bind]. split.
    + intros H. now rewrite (dict_get_no_method _ _ _ H).
    + intros data Hdata H. rewrite Hdata. cbn [bind].
      now rewrite (dict_get_no_method _ _ _ H).
  - now intros ->.
  - intros status body Hans Hstatus. rewrite Hans. unfold raise_for_status.
    replace (400 <=? status) with true by (symmetry; apply Nat.leb_le; lia).
    replace (status <? 600) with true by (symmetry; apply Nat.ltb_lt; lia).
    reflexivity.
  - intros status Hans Hstatus. now rewrite Hans, Hstatus.
  - intros s0 rest fs H. rewrite get_stop_weather_factors_collect.
    apply collect_returns. remember (s0 :: rest) as ss eqn:E. clear E.
    induction H as [|s f ss fs Hs _ IH]; simpl; constructor; assumption.
  - intros s0 rest k s e Hk Hbefore Hraise. rewrite get_stop_weather_factors_collect.
    apply (collect_first_raise _ e k).
    + rewrite nth_error_map, Hk. simpl. now rewrite <- Hraise.
    + intros i c Hi Hc. rewrite nth_error_map in Hc.
      destruct (nth_error (s0 :: rest) i) as [si|] eqn:Esi; [|discriminate].
      simpl in Hc. inversion Hc. apply (Hbefore i si Hi Esi).
Qed.

Lemma weather_lookup_degradation_witness :
  get_weather_factor stale_world 41.1176 (-85.0689)
    (Some "2025-11-10T08:00:00-05:00"%string) = Ok 1.0%float.
Proof.
  refine (proj1 (proj1 (weather_lookup_degradation stale_world 41.1176 (-85.0689)
            "2025-11-10T08:00:00-05:00"%string ("2025-11-10", "13:00")%string eq_refl)
          200 _ _ _ eq_refl eq_refl eq_refl eq_refl) _).
  simpl. intros [H|[H|[]]]; discriminate H.
Defined.

(** C3, as stated, fails: when the service cannot be reached, or answers
    with an error status, the lookup raises instead of yielding 1.0, and
    so does the acquisition for the stop list of the program; and a
    response without a bucket for the hour whose ["time"] is [null] ends
    the lookup with [AttributeError]. *)
Lemma unreachable_service_aborts :
  get_weather_factor offline_world 41.1176 (-85.0689)
    (Some "2025-11-10T08:00:00-05:00"%string) = Raise ConnectionError
  /\ get_stop_weather_factors offline_world stops = Raise ConnectionError
  /\ get_stop_weather_factors failing_world stops = Raise HTTPError
  /\ get_weather_factor null_time_world 41.1176 (-85.0689)
       (Some "2025-11-10T08:00:00-05:00"%string) = Raise AttributeError.
Proof. repeat split; vm_compute; reflexivity. Qed.

End WeatherFactor.

(** ** Part V: the tour *)

Section Tour.
Variable n : nat.
Variable start : nat.
Variable next : nat -> nat.

Let manager : RoutingIndexManager := {| num_nodes := n; depot := start |}.

Lemma route_from_bounded (i : nat) (p : list nat) :
  route_from n next i p -> Forall (fun k => k < n) p.
Proof. induction 1; repeat constructor; assumption. Qed.

Lemma route_from_head (i : nat) (p : list nat) :
  route_from n next i p -> exists q, p = i :: q.
Proof. destruct 1; eauto. Qed.

Lemma extract_route_at_end (fuel idx : nat) (order : list nat) :
  n <= idx -> extract_route fuel manager next idx order = Some order.
Proof.
  intros H. destruct fuel; simpl; unfold IsEnd, manager; cbn [num_nodes];
    replace (n <=? idx) with true by (symmetry; apply Nat.leb_le; lia); reflexivity.
Qed.

Lemma extract_route_step (fuel idx : nat) (order : list nat) :
  idx < n ->
  extract_route (S fuel) manager next idx order
  = extract_route fuel manager next (next idx)
      (order ++ [IndexToNode manager (next idx)]).
Proof.
  intros H. simpl. unfold IsEnd, manager. cbn [num_nodes].
  replace (n <=? idx) with false by (symmetry; apply Nat.leb_gt; lia). reflexivity.
Qed.

(** The extraction loop follows a route to its end, given fuel for every
    step, and appends the node of each index it reaches. *)
Lemma extract_route_follows (i : nat) (p : list nat) :
  route_from n next i p ->
  forall fuel order, length p <= fuel ->
  extract_route fuel manager next i order = Some (order ++ tl p ++ [start]).
Proof.
  induction 1 as [i Hi Hend|i p Hi Hroute IH]; intros fuel order Hfuel.
  - destruct fuel as [|fuel]; [simpl in Hfuel; lia|].
    rewrite extract_route_step by assumption. rewrite Hend.
    rewrite extract_route_at_end by lia.
    unfold IndexToNode, manager. cbn [num_nodes depot]. now rewrite Nat.ltb_irrefl.
  - destruct fuel as [|fuel]; [simpl in Hfuel; lia|].
    rewrite extract_route_step by assumption.
    destruct (route_from_head _ _ Hroute) as (q & ->).
    rewrite IH by (simpl in *; lia).
    assert (Hlt : next i < n).
    { apply route_from_bounded in Hroute. now inversion Hroute. }
    unfold IndexToNode, manager. cbn [num_nodes depot].
    replace (next i <? n) with true by (symmetry; apply Nat.ltb_lt; lia).
    simpl. now rewrite <- app_assoc.
Qed.

Lemma route_covers_length (p : list nat) :
  Forall (fun k => k < n) p -> NoDup p -> (forall i, i < n -> In i p) -> length p = n.
Proof.
  intros Hb Hnd Hall. transitivity (length (seq 0 n)); [|apply length_seq].
  apply Nat.le_antisymm.
  - apply NoDup_incl_length; [assumption|]. intros k Hk. apply in_seq.
    rewrite Forall_forall in Hb. specialize (Hb k Hk). lia.
  - apply NoDup_incl_length; [apply seq_NoDup|]. intros k Hk. apply in_seq in Hk.
    apply Hall. lia.
Qed.

Lemma legs_cons (a b : nat) (rest : list nat) :
  legs (a :: b :: rest) = (a, b) :: legs (b :: rest).
Proof. reflexivity. Qed.

(** The total the program reports is the sum along the tour's
    consecutive pairs of the entries of the matrix it was given. *)
Lemma total_minutes_tour_cost (tm : matrix) (order : list nat) : forall acc total,
  for_each (legs order) (fun ab t =>
      x <- getitem2 tm (fst ab) (snd ab) ;; Ok (t + x)%float) acc = Ok total
  <-> tour_cost tm order acc = Some total.
Proof.
  induction order as [|a [|b rest] IH]; intros acc total.
  - simpl. split; intros H; inversion H; reflexivity.
  - simpl. split; intros H; inversion H; reflexivity.
  - rewrite legs_cons. cbn [for_each tour_cost fst snd].
    destruct (entry tm a b) as [x|] eqn:E.
    + apply getitem2_entry in E. rewrite E. cbn [bind]. apply IH.
    + destruct (getitem2 tm a b) as [x|e] eqn:G.
      * apply getitem2_entry in G. congruence.
      * simpl. split; discriminate.
Qed.

Lemma tour_cost_defined (tm : matrix) (order : list nat) :
  is_square n tm -> Forall (fun k => k < n) order ->
  forall acc, exists total, tour_cost tm order acc = Some total.
Proof.
  intros Hsq. induction order as [|a [|b rest] IH]; intros Hb acc; simpl; eauto.
  inversion Hb as [|? ? Ha Hb']; subst. inversion Hb' as [|? ? Hbn _]; subst.
  destruct (is_square_entry n tm a b Hsq Ha Hbn) as (x & ->).
  apply IH. assumption.
Qed.

End Tour.

(** C2: when the solver succeeds on an n x n matrix, with a solution of
    the routing model, the tour [solve_tsp] returns has n + 1 entries,
    starts and ends at the start index and holds every other index exactly
    once, and the total it returns is the sum of the entries of the matrix
    as given (not scaled) along the tour's consecutive pairs. *)
Theorem solve_tsp_closed_tour (solver : Solver) (n fuel : nat) (tm : matrix)
  (start : nat) (next : nat -> nat) :
  is_square n tm -> start < n ->
  solver {| num_nodes := n; depot := start |}
         (time_callback tm {| num_nodes := n; depot := start |}) = Some next ->
  routing_solution n start next ->
  n <= fuel ->
  exists order total,
    solve_tsp solver fuel tm start = Some (Ok (order, total))
    /\ length order = n + 1
    /\ hd_error order = Some start
    /\ last order n = start
    /\ (forall k, k < n -> k <> start -> count_occ Nat.eq_dec order k = 1)
    /\ count_occ Nat.eq_dec order start = 2
    /\ tour_cost tm order 0 = Some total.
Proof.
  intros Hsq Hstart Hsolve (p & Hroute & Hnd & Hall) Hfuel.
  pose proof Hsq as [Hlen _].
  pose proof (route_from_bounded n next start p Hroute) as Hb.
  pose proof (route_covers_length n p Hb Hnd Hall) as Hp.
  destruct (route_from_head n next start p Hroute) as (q & Hq).
  set (order := p ++ [start]).
  assert (Horder : Forall (fun k => k < n) order).
  { apply Forall_app. split; [assumption|]. repeat constructor. assumption. }
  destruct (tour_cost_defined n tm order Hsq Horder 0%float) as (total & Htotal).
  exists order, total.
  split.
  { unfold solve_tsp. rewrite Hlen, Hsolve.
    rewrite (extract_route_follows n start next start p Hroute) by lia.
    unfold Start, IndexToNode. cbn [num_nodes depot].
    replace (start <? n) with true by (symmetry; apply Nat.ltb_lt; lia).
    replace ([start] ++ tl p ++ [start]) with order by (subst order p; reflexivity).
    unfold total_minutes.
    apply (total_minutes_tour_cost tm order 0%float total) in Htotal.
    now rewrite Htotal. }
  split; [subst order; rewrite length_app; simpl; lia|].
  split; [subst order p; reflexivity|].
  split; [subst order; apply last_last|].
  split; [|split; [|assumption]].
  - intros k Hk Hks. subst order. rewrite count_occ_app. simpl.
    destruct (Nat.eq_dec start k) as [Heq|_]; [congruence|].
    rewrite Nat.add_0_r. apply NoDup_count_occ'; auto.
  - subst order. rewrite count_occ_app. simpl.
    destruct (Nat.eq_dec start start) as [_|Hne]; [|now elim Hne].
    rewrite (proj1 (NoDup_count_occ' Nat.eq_dec p) Hnd start (Hall start Hstart)).
    reflexivity.
Qed.

Lemma solve_tsp_closed_tour_witness :
  exists order total,
    solve_tsp index_order_solver 3 sample_times 0 = Some (Ok (order, total))
    /\ length order = 3 + 1
    /\ hd_error order = Some 0
    /\ last order 3 = 0
    /\ (forall k, k < 3 -> k <> 0 -> count_occ Nat.eq_dec order k = 1)
    /\ count_occ Nat.eq_dec order 0 = 2
    /\ tour_cost sample_times order 0 = Some total.
Proof.
  apply (solve_tsp_closed_tour index_order_solver 3 3 sample_times 0 S).
  - apply is_square_b_sound. vm_compute. reflexivity.
  - lia.
  - reflexivity.
  - exists [0; 1; 2]. split; [|split].
    + apply route_step; [lia|]. apply route_step; [lia|]. apply route_last; [lia|reflexivity].
    + repeat constructor; simpl; intuition lia.
    + intros i Hi. simpl. lia.
  - lia.
Defined.

(** ** Part VI: distances and the base matrix *)

Section Geo.
Variable L : Libm.
Local Open Scope float_scope.

Lemma bind_assoc {A B C : Type} (c : res A) (f : A -> res B) (g : B -> res C) :
  bind (bind c f) g = bind c (fun a => bind (f a) g).
Proof. destruct c; reflexivity. Qed.

Lemma math_1_ok (func : float -> float) (x r : float) :
  math_1 func x = Ok r ->
  r = func x /\ (is_nan x = false -> is_nan r = false)
  /\ (is_finite x = true -> is_infinity r = false).
Proof.
  unfold math_1.
  destruct (is_nan (func x)) eqn:Hn, (is_nan x) eqn:Hx; simpl; try discriminate;
    destruct (is_infinity (func x)) eqn:Hi, (is_finite x) eqn:Hf; simpl; try discriminate;
    intros H; inversion H; subst r; repeat split; congruence.
Qed.

Lemma math_1_raise (func : float -> float) (x : float) (e : exn) :
  math_1 func x = Raise e -> e = ValueError.
Proof.
  unfold math_1. destruct (_ && _); [congruence|]. destruct (_ && _); congruence.
Qed.

Lemma math_1_odd (func : float -> float) (x : float) :
  (forall y, func (- y) = - func y) ->
  math_1 func (- x) = r <- math_1 func x ;; Ok (- r).
Proof.
  intros Hodd. unfold math_1. rewrite Hodd.
  rewrite !is_nan_opp, is_infinity_opp, is_finite_opp.
  destruct (_ && _); [reflexivity|]. destruct (_ && _); reflexivity.
Qed.

Lemma finite_nonzero_shape x :
  is_nan x = false -> is_infinity x = false -> (x =? 0) = false ->
  exists s m e, Prim2SF x = S754_finite s m e.
Proof.
  rewrite is_nan_SF, is_infinity_SF, eqb_spec. change (Prim2SF 0) with (S754_zero false).
  destruct (Prim2SF x) as [s|s| |s m e]; try discriminate; eauto.
Qed.

Lemma finite_sign_tests x s m e :
  Prim2SF x = S754_finite s m e -> (x <? 0) = s /\ (- x <? 0) = negb s.
Proof.
  intros E. rewrite !ltb_spec, opp_spec, E. change (Prim2SF 0) with (S754_zero false).
  destruct s; split; reflexivity.
Qed.

Lemma eqb_opp_zero x : (- x =? 0) = (x =? 0).
Proof.
  rewrite !eqb_spec, opp_spec. change (Prim2SF 0) with (S754_zero false).
  destruct (Prim2SF x) as [s|[]| |[] m e]; reflexivity.
Qed.

Lemma opp_nan x : is_nan x = true -> - x = x.
Proof.
  rewrite is_nan_SF. intros H. apply Prim2SF_inj. rewrite opp_spec.
  destruct (Prim2SF x); try discriminate; reflexivity.
Qed.

(** A square does not see the sign of its base. *)
Lemma float_pow2_opp (s : float) : float_pow2 L (- s) = float_pow2 L s.
Proof.
  unfold float_pow2. rewrite is_nan_opp, is_infinity_opp, eqb_opp_zero.
  destruct (is_nan s) eqn:Hn; [now rewrite opp_nan|].
  destruct (is_infinity s) eqn:Hi; [now rewrite abs_opp|].
  destruct (s =? 0) eqn:Hz; [reflexivity|].
  destruct (finite_nonzero_shape s Hn Hi Hz) as (s0 & m & e & E).
  destruct (finite_sign_tests s s0 m e E) as [-> ->].
  destruct s0; simpl; [reflexivity|]. now rewrite opp_involutive.
Qed.

Lemma hav_opp (d : float) : sin_odd L -> hav L (- d) = hav L d.
Proof.
  intros Hodd. unfold hav, radians, math_sin.
  rewrite mul_opp_l, div_opp_l, (math_1_odd (c_sin L) _ Hodd), bind_assoc.
  destruct (math_1 (c_sin L) (d * degToRad / 2)) as [r|e]; simpl; [|reflexivity].
  apply float_pow2_opp.
Qed.

Lemma hav_sub_sym (x y : float) : sin_odd L -> hav L (y - x) = hav L (x - y).
Proof.
  intros Hodd. destruct (sub_antisym x y) as [H|[H1 H2]].
  - rewrite H. now apply hav_opp.
  - now rewrite H1, H2.
Qed.

Lemma haversine_km_hav (lat1 lon1 lat2 lon2 : float) :
  haversine_km L lat1 lon1 lat2 lon2 =
  (h1 <- hav L (lat2 - lat1) ;;
   c1 <- math_cos L (radians lat1) ;;
   c2 <- math_cos L (radians lat2) ;;
   h2 <- hav L (lon2 - lon1) ;;
   r <- math_sqrt (h1 + c1 * c2 * h2) ;;
   t <- math_asin L r ;;
   Ok (2 * 6371.0088 * t)).
Proof.
  unfold haversine_km, hav. rewrite bind_assoc.
  destruct (math_sin L (radians (lat2 - lat1) / 2)) as [s1|e]; simpl; [|reflexivity].
  destruct (float_pow2 L s1) as [h1|e]; simpl; [|reflexivity].
  destruct (math_cos L (radians lat1)) as [c1|e]; simpl; [|reflexivity].
  destruct (math_cos L (radians lat2)) as [c2|e]; simpl; [|reflexivity].
  now rewrite bind_assoc.
Qed.

(** The distance does not depend on the direction of travel, when the
    platform's [sin] is odd. *)
Lemma haversine_km_sym (lat1 lon1 lat2 lon2 : float) :
  sin_odd L ->
  haversine_km L lat1 lon1 lat2 lon2 = haversine_km L lat2 lon2 lat1 lon1.
Proof.
  intros Hodd. rewrite !haversine_km_hav.
  rewrite (hav_sub_sym lat1 lat2 Hodd), (hav_sub_sym lon1 lon2 Hodd).
  destruct (hav L (lat1 - lat2)) as [h1|e]; simpl; [|reflexivity].
  unfold math_cos.
  destruct (math_1 (c_cos L) (radians lat1)) as [c1|e1] eqn:E1,
           (math_1 (c_cos L) (radians lat2)) as [c2|e2] eqn:E2; simpl;
    try reflexivity.
  - now rewrite (mul_comm c2 c1).
  - apply math_1_raise in E1, E2. now subst.
Qed.

Lemma is_finite_not_inf x : is_finite x = true -> is_infinity x = false.
Proof. rewrite is_finite_SF, is_infinity_SF. destruct (Prim2SF x); congruence. Qed.

Lemma unit_interval_finite x :
  (0 <=? x) = true -> (x <=? 1) = true -> is_finite x = true.
Proof. apply between_finite; reflexivity. Qed.

Lemma radians_not_nan x : is_nan x = false -> is_nan (radians x) = false.
Proof. intros H. unfold radians. apply mul_finite_nonzero_not_nan; [assumption| |]; reflexivity. Qed.

Lemma half_angle_not_nan x y :
  is_finite x = true -> is_finite y = true -> is_nan (radians (y - x) / 2) = false.
Proof.
  intros Hx Hy. apply div_finite_nonzero_not_nan; [|reflexivity|reflexivity].
  apply radians_not_nan. now apply sub_finite_not_nan.
Qed.

Section SaneLibm.
Hypothesis Hsane : libm_sane L.

Lemma math_sin_range (w s : float) :
  is_nan w = false -> math_sin L w = Ok s -> (-1 <=? s) = true /\ (s <=? 1) = true.
Proof.
  intros Hw H. apply math_1_ok in H. destruct H as (-> & Hn & _).
  destruct (sin_range L Hsane w) as [Hnan|Hr]; [|assumption].
  rewrite (Hn Hw) in Hnan. discriminate.
Qed.

Lemma math_cos_range (w c : float) :
  is_nan w = false -> math_cos L w = Ok c -> (-1 <=? c) = true /\ (c <=? 1) = true.
Proof.
  intros Hw H. apply math_1_ok in H. destruct H as (-> & Hn & _).
  destruct (cos_range L Hsane w) as [Hnan|Hr]; [|assumption].
  rewrite (Hn Hw) in Hnan. discriminate.
Qed.

(** The square of a number of magnitude at most one lies in [0, 1]. *)
Lemma float_pow2_range (s h : float) :
  (-1 <=? s) = true -> (s <=? 1) = true -> float_pow2 L s = Ok h ->
  (0 <=? h) = true /\ (h <=? 1) = true.
Proof.
  intros Hlo Hhi. unfold float_pow2.
  pose proof (leb_not_nan_r _ _ Hlo) as Hn.
  pose proof (between_finite (-1) 1 s eq_refl eq_refl Hlo Hhi) as Hf.
  rewrite Hn, (is_finite_not_inf s Hf).
  destruct (s =? 0) eqn:Hz; [intros H; inversion H; subst h; split; reflexivity|].
  destruct (finite_nonzero_shape s Hn (is_finite_not_inf s Hf) Hz) as (s0 & m & e & E).
  destruct (finite_sign_tests s s0 m e E) as [Hneg _]. rewrite Hneg.
  set (iv := if s0 then - s else s).
  assert (Hiv : (0 <? iv) = true /\ (iv <=? 1) = true).
  { subst iv. destruct s0.
    - split; [now rewrite ltb_zero_opp|].
      change 1 with (- (-1)). now rewrite leb_opp.
    - split; [|assumption]. rewrite ltb_spec, E. reflexivity. }
  destruct Hiv as [Hpos Hle].
  destruct (iv =? 1) eqn:H1; [intros H; inversion H; subst h; split; reflexivity|].
  destruct (pow_range L Hsane iv Hpos (leb_neq_ltb _ _ Hle H1)) as [Hp0 Hp1].
  rewrite (is_finite_not_inf _ (unit_interval_finite _ Hp0 Hp1)).
  intros H. inversion H; subst h. now split.
Qed.

Lemma hav_range (x y h : float) :
  is_finite x = true -> is_finite y = true -> hav L (y - x) = Ok h ->
  (0 <=? h) = true /\ (h <=? 1) = true.
Proof.
  intros Hx Hy H. unfold hav in H. apply bind_ok in H. destruct H as (s & Hs & Hh).
  destruct (math_sin_range _ s (half_angle_not_nan x y Hx Hy) Hs) as [Hlo Hhi].
  now apply (float_pow2_range s h).
Qed.

(** A computed distance is finite and not negative. *)
Lemma haversine_km_nonneg (lat1 lon1 lat2 lon2 km : float) :
  is_finite lat1 = true -> is_finite lon1 = true ->
  is_finite lat2 = true -> is_finite lon2 = true ->
  haversine_km L lat1 lon1 lat2 lon2 = Ok km ->
  (0 <=? km) = true /\ is_finite km = true.
Proof.
  intros Hlat1 Hlon1 Hlat2 Hlon2 H. rewrite haversine_km_hav in H.
  apply bind_ok in H. destruct H as (h1 & Hh1 & H).
  apply bind_ok in H. destruct H as (c1 & Hc1 & H).
  apply bind_ok in H. destruct H as (c2 & Hc2 & H).
  apply bind_ok in H. destruct H as (h2 & Hh2 & H).
  apply bind_ok in H. destruct H as (r & Hr & H).
  apply bind_ok in H. destruct H as (t & Ht & H).
  inversion H; subst km. clear H.
  destruct (hav_range _ _ h1 Hlat1 Hlat2 Hh1) as [Hh1lo Hh1hi].
  destruct (hav_range _ _ h2 Hlon1 Hlon2 Hh2) as [Hh2lo Hh2hi].
  destruct (math_cos_range _ c1 (radians_not_nan _ (is_finite_not_nan _ Hlat1)) Hc1) as [Hc1lo Hc1hi].
  destruct (math_cos_range _ c2 (radians_not_nan _ (is_finite_not_nan _ Hlat2)) Hc2) as [Hc2lo Hc2hi].
  assert (Hcc : is_finite (c1 * c2) = true).
  { eapply expo_le_finite.
    apply (mul_expo (-52) (-52)); [now apply unit_range_expo|now apply unit_range_expo|].
    vm_compute. discriminate. }
  assert (Ha : is_nan (h1 + c1 * c2 * h2) = false).
  { apply add_finite_l_not_nan; [now apply unit_interval_finite|].
    apply mul_finite_not_nan; [assumption|now apply unit_interval_finite]. }
  apply math_1_ok in Hr. destruct Hr as (Hr & Hrn & _). specialize (Hrn Ha).
  assert (Hr0 : (0 <=? r) = true) by (subst r; now apply sqrt_nonneg).
  apply math_1_ok in Ht. destruct Ht as (Ht & Htn & _). specialize (Htn Hrn).
  destruct (asin_range L Hsane r Hr0) as [Hnan|[Ht0 Ht2]];
    [rewrite <- Ht, Htn in Hnan; discriminate|].
  rewrite <- Ht in Ht0, Ht2.
  split.
  - apply mul_nonneg; [reflexivity|assumption| |left; reflexivity].
    now apply (between_finite 0 2).
  - eapply expo_le_finite.
    apply (mul_expo (-39) (-51)); [|now apply upto_two_expo|vm_compute; discriminate].
    unfold expo_le.
    change (Prim2SF (2 * 6371.0088)) with (S754_finite false 7004998256263220 (-39)).
    apply Z.le_refl.
Qed.

End SaneLibm.

Lemma sub_self x : is_finite x = true -> x - x = 0.
Proof.
  rewrite is_finite_SF. intros H. apply Prim2SF_inj. rewrite sub_spec.
  change (Prim2SF 0) with (S754_zero false).
  destruct (Prim2SF x) as [[]|s| |s m e]; try discriminate; try reflexivity.
  unfold SF64sub, SFsub. rewrite Z.sub_diag. reflexivity.
Qed.

Lemma square_times_zero c :
  (-1 <=? c) = true -> (c <=? 1) = true -> c * c * 0 = 0.
Proof.
  intros Hlo Hhi.
  assert (Hexp : expo_le (-50) (c * c)).
  { apply (mul_expo (-52) (-52)); [now apply unit_range_expo|now apply unit_range_expo|].
    vm_compute. discriminate. }
  apply Prim2SF_inj. rewrite !mul_spec. change (Prim2SF 0) with (S754_zero false).
  unfold expo_le in Hexp. rewrite mul_spec in Hexp.
  assert (Hs : SF_signed false (SF64mul (Prim2SF c) (Prim2SF c))).
  { pose proof (between_finite (-1) 1 c eq_refl eq_refl Hlo Hhi) as Hf.
    rewrite is_finite_SF in Hf.
    destruct (Prim2SF c) as [s|s| |s m e] eqn:E; try discriminate.
    - simpl. now destruct s.
    - replace false with (xorb s s) by (now destruct s).
      now apply SFmul_signed. }
  destruct (SF64mul (Prim2SF c) (Prim2SF c)) as [s|s| |s m e]; simpl in *;
    try contradiction; subst; reflexivity.
Qed.

(** The distance from a place to itself is zero, when the platform's
    [sin] and [asin] keep zero and its [cos] is defined there. *)
Lemma haversine_km_self (la lo : float) :
  libm_sane L -> c_sin L 0 = 0 -> c_asin L 0 = 0 ->
  is_finite la = true -> is_finite lo = true ->
  is_nan (c_cos L (radians la)) = false ->
  haversine_km L la lo la lo = Ok 0.
Proof.
  intros Hsane Hsin Hasin Hla Hlo Hcos.
  assert (Hhav : hav L 0 = Ok 0).
  { unfold hav, math_sin, math_1.
    change (radians 0 / 2) with 0. rewrite Hsin. reflexivity. }
  rewrite haversine_km_hav, !sub_self, Hhav by assumption. cbn [bind].
  destruct (cos_range L Hsane (radians la)) as [Hnan|[Hclo Hchi]]; [congruence|].
  assert (Hc : math_cos L (radians la) = Ok (c_cos L (radians la))).
  { unfold math_cos, math_1. rewrite Hcos. simpl.
    rewrite (is_finite_not_inf _ (between_finite (-1) 1 _ eq_refl eq_refl Hclo Hchi)).
    reflexivity. }
  rewrite Hc. cbn [bind]. rewrite square_times_zero by assumption.
  change (0 + 0) with 0.
  unfold math_sqrt, math_asin, math_1. change (sqrt 0) with 0.
  change (is_nan 0) with false. change (is_infinity 0) with false. cbn [andb bind].
  rewrite Hasin. reflexivity.
Qed.

End Geo.

Section SmallAngle.
Local Open Scope float_scope.

Lemma small_angle_sane : libm_sane small_angle.
Proof.
  constructor; simpl; intros x.
  - destruct (abs x <=? 1) eqn:E; [right; exact (abs_leb_range x 1 E)|left; reflexivity].
  - right. split; reflexivity.
  - intros H0 H1.
    assert (Hf : is_finite x = true)
      by (apply (between_finite 0 1); auto using ltb_leb).
    assert (Hr : (0 <=? x * x) = true)
      by (apply mul_nonneg; auto using ltb_leb).
    destruct (x * x <=? 1) eqn:E; split; auto.
  - intros H0. destruct (abs x <=? 1) eqn:E; [right|left; reflexivity].
    split; [assumption|].
    apply leb_trans with (y := 1); [exact (proj2 (abs_leb_range x 1 E))|reflexivity].
Qed.

Lemma small_angle_odd : sin_odd small_angle.
Proof.
  intros x. simpl. rewrite abs_opp. destruct (abs x <=? 1); reflexivity.
Qed.

End SmallAngle.

Section BaseMatrix.
Variable L : Libm.

Lemma legal_coordinates_finite (s : Stop) :
  legal_coordinates s -> is_finite (lat s) = true /\ is_finite (lon s) = true.
Proof.
  intros (H1 & H2 & H3 & H4). split.
  - now apply (between_finite (-90) 90).
  - now apply (between_finite (-180) 180).
Qed.

Lemma legal_coordinates_b_sound (ss : list Stop) :
  forallb legal_coordinates_b ss = true -> Forall legal_coordinates ss.
Proof.
  intros H. apply Forall_forall. intros s Hs. rewrite forallb_forall in H.
  specialize (H s Hs). unfold legal_coordinates_b in H.
  repeat (apply andb_prop in H; destruct H as [H ?]). repeat split; assumption.
Qed.

Lemma float_div_ok (a b q : float) :
  float_div a b = Ok q -> (b =? 0)%float = false /\ q = (a / b)%float.
Proof.
  unfold float_div. destruct (b =? 0)%float; [discriminate|].
  intros H. inversion H. auto.
Qed.

(** What a computed cell of the base matrix is. *)
Lemma base_minutes_ok (ss : list Stop) (speed : float) (i j : nat) (v : float) :
  base_minutes L ss speed i j = Ok v ->
  exists si sj km,
    nth_error ss i = Some si /\ nth_error ss j = Some sj
    /\ haversine_km L (lat si) (lon si) (lat sj) (lon sj) = Ok km
    /\ (speed =? 0)%float = false /\ v = (km / speed * 60)%float.
Proof.
  unfold base_minutes. intros H.
  apply bind_ok in H. destruct H as (si & Hsi & H).
  apply bind_ok in H. destruct H as (sj & Hsj & H).
  apply bind_ok in H. destruct H as (km & Hkm & H).
  apply bind_ok in H. destruct H as (q & Hq & H).
  apply float_div_ok in Hq. destruct Hq as [Hnz ->]. inversion H; subst v.
  apply getitem_ok in Hsi, Hsj. exists si, sj, km. auto.
Qed.

Lemma base_minutes_sym (ss : list Stop) (speed : float) (i j : nat) :
  sin_odd L -> base_minutes L ss speed i j = base_minutes L ss speed j i.
Proof.
  intros Hodd. unfold base_minutes.
  destruct (getitem ss i) as [si|e1] eqn:Ei, (getitem ss j) as [sj|e2] eqn:Ej; simpl;
    try reflexivity.
  - now rewrite (haversine_km_sym L (lat si) (lon si) (lat sj) (lon sj) Hodd).
  - unfold getitem in Ei, Ej.
    destruct (nth_error ss i), (nth_error ss j); congruence.
Qed.

End BaseMatrix.

(** What a returned base matrix looks like. *)
Lemma build_base_time_matrix_result (L : Libm) (ss : list Stop) (speed : float)
  (m : matrix) :
  libm_sane L -> sin_odd L ->
  Forall legal_coordinates ss ->
  (0 <? speed)%float = true ->
  build_base_time_matrix L ss speed = Ok m ->
  is_square (length ss) m
  /\ (forall i, i < length ss -> entry m i i = Some 0%float)
  /\ (forall i j si sj,
        nth_error ss i = Some si -> nth_error ss j = Some sj -> i <> j ->
        exists km, haversine_km L (lat si) (lon si) (lat sj) (lon sj) = Ok km
                   /\ entry m i j = Some (km / speed * 60)%float)
  /\ nonneg_matrix m
  /\ (forall i j, entry m i j = entry m j i).
Proof.
  intros Hsane Hodd Hlegal Hspeed Hrun. unfold build_base_time_matrix in Hrun.
  set (n := length ss) in *.
  destruct (fill_off_diagonal_inv n _ _ m Hrun (zeros_square n)) as (Hsq & Hdiag & Hoff).
  assert (Hcell : forall i j, i < n -> j < n -> i <> j ->
            exists si sj km,
              nth_error ss i = Some si /\ nth_error ss j = Some sj
              /\ haversine_km L (lat si) (lon si) (lat sj) (lon sj) = Ok km
              /\ entry m i j = Some (km / speed * 60)%float).
  { intros i j Hi Hj Hij. destruct (Hoff i j Hi Hj Hij) as (v & Hv & Hentry).
    apply base_minutes_ok in Hv.
    destruct Hv as (si & sj & km & Hsi & Hsj & Hkm & _ & ->). eauto 8. }
  split; [assumption|]. split; [|split; [|split]].
  - intros i Hi. rewrite Hdiag. now apply zeros_entry.
  - intros i j si sj Hsi Hsj Hij.
    assert (Hi : i < n) by (apply nth_error_Some; congruence).
    assert (Hj : j < n) by (apply nth_error_Some; congruence).
    destruct (Hcell i j Hi Hj Hij) as (si' & sj' & km & Hsi' & Hsj' & Hkm & Hentry).
    exists km. split; congruence.
  - intros i j x Hx. destruct (entry_in_range n m i j x Hsq Hx) as [Hi Hj].
    destruct (Nat.eq_dec i j) as [->|Hij].
    + rewrite Hdiag, zeros_entry in Hx by assumption. now inversion Hx.
    + destruct (Hcell i j Hi Hj Hij) as (si & sj & km & Hsi & Hsj & Hkm & Hentry).
      rewrite Hentry in Hx. inversion Hx; subst x. clear Hx.
      rewrite Forall_forall in Hlegal.
      destruct (legal_coordinates_finite si (Hlegal si (nth_error_In _ _ Hsi))) as [Hf1 Hf2].
      destruct (legal_coordinates_finite sj (Hlegal sj (nth_error_In _ _ Hsj))) as [Hf3 Hf4].
      destruct (haversine_km_nonneg L Hsane _ _ _ _ km Hf1 Hf2 Hf3 Hf4 Hkm) as [Hkm0 Hkmf].
      apply mul_nonneg; [now apply div_nonneg|reflexivity|reflexivity|right; reflexivity].
  - intros i j.
    destruct (Nat.eq_dec i j) as [->|Hij]; [reflexivity|].
    destruct (entry m i j) as [x|] eqn:Ex, (entry m j i) as [y|] eqn:Ey.
    + destruct (entry_in_range n m i j x Hsq Ex) as [Hi Hj].
      destruct (Hoff i j Hi Hj Hij) as (v & Hv & Hentry).
      destruct (Hoff j i Hj Hi (fun H => Hij (eq_sym H))) as (v' & Hv' & Hentry').
      rewrite (base_minutes_sym L ss speed i j Hodd) in Hv. congruence.
    + destruct (entry_in_range n m i j x Hsq Ex) as [Hi Hj].
      destruct (is_square_entry n m j i Hsq Hj Hi) as (y & Hy). congruence.
    + destruct (entry_in_range n m j i y Hsq Ey) as [Hj Hi].
      destruct (is_square_entry n m i j Hsq Hi Hj) as (x & Hx). congruence.
    + reflexivity.
Qed.

(** A returned base matrix means every distance was computed. *)
Lemma build_base_time_matrix_distances (L : Libm) (ss : list Stop) (speed : float)
  (m : matrix) :
  build_base_time_matrix L ss speed = Ok m ->
  forall i j si sj,
    nth_error ss i = Some si -> nth_error ss j = Some sj -> i <> j ->
    exists km, haversine_km L (lat si) (lon si) (lat sj) (lon sj) = Ok km.
Proof.
  intros Hrun i j si sj Hsi Hsj Hij. unfold build_base_time_matrix in Hrun.
  destruct (fill_off_diagonal_inv _ _ _ m Hrun (zeros_square _)) as (_ & _ & Hoff).
  assert (Hi : i < length ss) by (apply nth_error_Some; congruence).
  assert (Hj : j < length ss) by (apply nth_error_Some; congruence).
  destruct (Hoff i j Hi Hj Hij) as (v & Hv & _). apply base_minutes_ok in Hv.
  destruct Hv as (si' & sj' & km & Hsi' & Hsj' & Hkm & _).
  exists km. congruence.
Qed.

(** The builder returns a matrix once the distances are computed and the
    speed is not zero. *)
Lemma build_base_time_matrix_runs (L : Libm) (ss : list Stop) (speed : float) :
  (speed =? 0)%float = false ->
  (forall i j si sj,
     nth_error ss i = Some si -> nth_error ss j = Some sj -> i <> j ->
     exists km, haversine_km L (lat si) (lon si) (lat sj) (lon sj) = Ok km) ->
  exists m, build_base_time_matrix L ss speed = Ok m.
Proof.
  intros Hnz Hdist. unfold build_base_time_matrix.
  apply fill_off_diagonal_runs; [apply zeros_square|].
  intros i j Hi Hj Hij.
  destruct (getitem_in_range ss i Hi) as (si & Hgi & Hsi).
  destruct (getitem_in_range ss j Hj) as (sj & Hgj & Hsj).
  destruct (Hdist i j si sj Hsi Hsj Hij) as (km & Hkm).
  unfold base_minutes. rewrite Hgi, Hgj. simpl. rewrite Hkm. simpl.
  unfold float_div. rewrite Hnz. simpl. eauto.
Qed.

(** C6: for n stops with legal coordinates and a speed above zero,
    [build_base_time_matrix] returns, once [haversine_km] has a value for
    every pair of stops, a matrix that is n x n, is 0.0 on the diagonal,
    holds [distance(i,j) / speed * 60] elsewhere, has no negative entry
    and is symmetric (the C library being as [libm_sane] and [sin_odd]
    describe it). *)
Theorem build_base_time_matrix_contract (L : Libm) (ss : list Stop) (speed : float) :
  libm_sane L -> sin_odd L ->
  Forall legal_coordinates ss ->
  (0 <? speed)%float = true ->
  (forall i j si sj,
     nth_error ss i = Some si -> nth_error ss j = Some sj -> i <> j ->
     exists km, haversine_km L (lat si) (lon si) (lat sj) (lon sj) = Ok km) ->
  exists m,
    build_base_time_matrix L ss speed = Ok m
    /\ is_square (length ss) m
    /\ (forall i, i < length ss -> entry m i i = Some 0%float)
    /\ (forall i j si sj,
          nth_error ss i = Some si -> nth_error ss j = Some sj -> i <> j ->
          exists km, haversine_km L (lat si) (lon si) (lat sj) (lon sj) = Ok km
                     /\ entry m i j = Some (km / speed * 60)%float)
    /\ nonneg_matrix m
    /\ (forall i j, entry m i j = entry m j i).
Proof.
  intros Hsane Hodd Hlegal Hspeed Hdist.
  destruct (build_base_time_matrix_runs L ss speed (ltb_eqb_false _ _ Hspeed) Hdist)
    as (m & Hm).
  exists m. split; [assumption|].
  now apply (build_base_time_matrix_result L ss speed m).
Qed.

Lemma build_base_time_matrix_contract_witness :
  exists m,
    build_base_time_matrix small_angle stops 35 = Ok m
    /\ is_square (length stops) m
    /\ (forall i, i < length stops -> entry m i i = Some 0%float)
    /\ (forall i j si sj,
          nth_error stops i = Some si -> nth_error stops j = Some sj -> i <> j ->
          exists km, haversine_km small_angle (lat si) (lon si) (lat sj) (lon sj) = Ok km
                     /\ entry m i j = Some (km / 35 * 60)%float)
    /\ nonneg_matrix m
    /\ (forall i j, entry m i j = entry m j i).
Proof.
  apply (build_base_time_matrix_contract small_angle stops 35%float).
  - exact small_angle_sane.
  - exact small_angle_odd.
  - apply legal_coordinates_b_sound. vm_compute. reflexivity.
  - vm_compute. reflexivity.
  - apply (build_base_time_matrix_distances small_angle stops 35%float sample_base_matrix).
    vm_compute. reflexivity.
Defined.

(** C4 (amended): [build_base_time_matrix] does not check the speed.
    With a speed at or below zero it returns the all-zero matrix for
    fewer than two stops; with two or more stops a zero speed raises
    [ZeroDivisionError] at the first division, once the first distance
    is computed, and a speed below zero yields a matrix whenever the
    distances are computed. *)
Theorem build_base_time_matrix_unchecked_speed (L : Libm) (ss : list Stop) (speed : float) :
  (speed <=? 0)%float = true ->
  (length ss < 2 -> build_base_time_matrix L ss speed = Ok (zeros (length ss)))
  /\ (forall s0 s1 rest km,
        ss = s0 :: s1 :: rest -> (speed =? 0)%float = true ->
        haversine_km L (lat s0) (lon s0) (lat s1) (lon s1) = Ok km ->
        build_base_time_matrix L ss speed = Raise ZeroDivisionError)
  /\ ((speed <? 0)%float = true ->
      (forall i j si sj,
         nth_error ss i = Some si -> nth_error ss j = Some sj -> i <> j ->
         exists km, haversine_km L (lat si) (lon si) (lat sj) (lon sj) = Ok km) ->
      exists m, build_base_time_matrix L ss speed = Ok m /\ is_square (length ss) m).
Proof.
  intros Hspeed. split; [|split].
  - intros Hlen. destruct ss as [|s0 [|s1 rest]]; simpl in Hlen; try lia; reflexivity.
  - intros s0 s1 rest km -> Hzero Hkm. unfold build_base_time_matrix.
    apply fill_off_diagonal_first_raise; [simpl; lia|].
    unfold base_minutes. simpl. rewrite Hkm. simpl. unfold float_div. now rewrite Hzero.
  - intros Hneg Hdist. unfold build_base_time_matrix.
    destruct (fill_off_diagonal_runs (length ss) (base_minutes L ss speed)
                (zeros (length ss)) (zeros_square _)) as (m & Hm).
    + intros i j Hi Hj Hij.
      destruct (getitem_in_range ss i Hi) as (si & Hgi & Hsi).
      destruct (getitem_in_range ss j Hj) as (sj & Hgj & Hsj).
      destruct (Hdist i j si sj Hsi Hsj Hij) as (km & Hkm).
      unfold base_minutes. rewrite Hgi, Hgj. simpl. rewrite Hkm. simpl.
      unfold float_div. rewrite (ltb_eqb_false speed 0 Hneg) || rewrite eqb_sym, (ltb_eqb_false speed 0 Hneg).
      simpl. eauto.
    + exists m. split; [assumption|].
      now destruct (fill_off_diagonal_inv _ _ _ m Hm (zeros_square _)).
Qed.

Lemma build_base_time_matrix_unchecked_speed_witness :
  build_base_time_matrix small_angle depot_only (-35)%float = Ok [[0%float]].
Proof.
  refine (proj1 (build_base_time_matrix_unchecked_speed small_angle depot_only (-35)%float
                   eq_refl) _).
  simpl. lia.
Defined.

(** C4, as stated, fails: with a single stop and a negative or a zero
    speed the builder returns the 1 x 1 zero matrix, and with the stops of
    the program and a negative speed it returns a matrix as well. *)
Lemma nonpositive_speed_is_not_rejected :
  build_base_time_matrix small_angle depot_only (-35)%float = Ok [[0%float]]
  /\ build_base_time_matrix small_angle depot_only 0%float = Ok [[0%float]]
  /\ exists m, build_base_time_matrix small_angle stops (-35)%float = Ok m.
Proof.
  split; [reflexivity|]. split; [reflexivity|].
  eexists. vm_compute. reflexivity.
Qed.

(** ** Part VII: the distance function *)

(** The distance between two places is the same in both directions,
    whether it is a number or an error, when the platform's [sin] is an
    odd function. *)
Theorem haversine_km_symmetric (L : Libm) (lat1 lon1 lat2 lon2 : float) :
  sin_odd L ->
  haversine_km L lat1 lon1 lat2 lon2 = haversine_km L lat2 lon2 lat1 lon1.
Proof. apply haversine_km_sym. Qed.

Lemma haversine_km_symmetric_witness :
  haversine_km small_angle 41.1176 (-85.0689) 41.1306 (-85.1289)
  = haversine_km small_angle 41.1306 (-85.1289) 41.1176 (-85.0689).
Proof.
  apply (haversine_km_symmetric small_angle 41.1176 (-85.0689) 41.1306 (-85.1289))%float.
  exact small_angle_odd.
Defined.

(** The distance from a place with finite coordinates to itself is
    exactly [0.0], when the platform's [sin] and [asin] keep zero and
    its [cos] has a value at the latitude. *)
Theorem haversine_km_zero_at_self (L : Libm) (la lo : float) :
  libm_sane L -> c_sin L 0%float = 0%float -> c_asin L 0%float = 0%float ->
  is_finite la = true -> is_finite lo = true ->
  is_nan (c_cos L (radians la)) = false ->
  haversine_km L la lo la lo = Ok 0%float.
Proof. apply haversine_km_self. Qed.

Lemma haversine_km_zero_at_self_witness :
  haversine_km small_angle 41.1176 (-85.0689) 41.1176 (-85.0689) = Ok 0%float.
Proof.
  apply (haversine_km_zero_at_self small_angle 41.1176 (-85.0689))%float;
    solve [exact small_angle_sane | reflexivity].
Defined.

(** A distance that is computed between places with finite coordinates
    is a finite number, not below zero. *)
Theorem haversine_km_finite_nonneg (L : Libm) (lat1 lon1 lat2 lon2 km : float) :
  libm_sane L ->
  is_finite lat1 = true -> is_finite lon1 = true ->
  is_finite lat2 = true -> is_finite lon2 = true ->
  haversine_km L lat1 lon1 lat2 lon2 = Ok km ->
  (0 <=? km)%float = true /\ is_finite km = true.
Proof. intros Hsane. now apply haversine_km_nonneg. Qed.

Lemma haversine_km_finite_nonneg_witness :
  (0 <=? 0x1.b4e5844cba7eap+2)%float = true
  /\ is_finite 0x1.b4e5844cba7eap+2%float = true.
Proof.
  apply (haversine_km_finite_nonneg small_angle 41.1176 (-85.0689) 41.1306 (-85.1289))%float;
    solve [exact small_angle_sane | reflexivity | vm_compute; reflexivity].
Defined.

(** ** Part VIII: the lookups of a stop list *)

Section WeatherLookups.

Lemma collect_ok {A : Type} (cs : list (res A)) : forall l,
  collect cs = Ok l -> Forall2 (fun c a => c = Ok a) cs l.
Proof.
  induction cs as [|c cs IH]; intros l; simpl; intros H.
  - inversion H. constructor.
  - apply bind_ok in H. destruct H as (a & Ha & H).
    apply bind_ok in H. destruct H as (l' & Hl' & H).
    inversion H; subst l. constructor; auto.
Qed.

(** A returned factor is a finite number between 1.0 and [max_factor]. *)
Lemma get_weather_factor_range (W : World) (la lo : float) (w : option string) (f : float) :
  get_weather_factor W la lo w = Ok f -> factor_in_range f.
Proof.
  intros H.
  assert (Hb : (1.0 <=? f)%float = true /\ (f <=? max_factor)%float = true).
  { destruct (get_weather_factor_value W la lo w f H)
      as [->|(precip & snow & wind & gust & ->)].
    - vm_compute. split; reflexivity.
    - apply weather_factor_bounds. }
  destruct Hb as [Hlo Hhi]. split; [assumption|]. split; [assumption|].
  now apply (between_finite 1.0 max_factor).
Qed.

(** The lookups behind a returned factor list, stop by stop. *)
Lemma get_stop_weather_factors_lookups (W : World) (ss : list Stop) (fs : list float) :
  get_stop_weather_factors W ss = Ok fs ->
  exists s0 rest, ss = s0 :: rest
    /\ Forall2 (fun s f => get_weather_factor W (lat s) (lon s)
                             (when_or (when s) (when s0)) = Ok f) ss fs.
Proof.
  destruct ss as [|s0 rest]; [discriminate|]. intros H.
  exists s0, rest. split; [reflexivity|].
  rewrite get_stop_weather_factors_collect in H. apply collect_ok in H.
  remember (s0 :: rest) as ss eqn:E. clear E rest.
  remember (map _ ss) as cs eqn:Ecs. revert ss Ecs.
  induction H as [|c f cs fs Hc Hrest IH]; intros [|s ss] Ecs; try discriminate.
  - constructor.
  - simpl in Ecs. inversion Ecs; subst c cs. constructor; auto.
Qed.

Lemma Forall2_nth_error {A B : Type} (R : A -> B -> Prop) (l : list A) (l' : list B) :
  Forall2 R l l' ->
  forall k a, nth_error l k = Some a -> exists b, nth_error l' k = Some b /\ R a b.
Proof.
  induction 1 as [|x y l l' Hxy Hrest IH]; intros [|k] a Ha; simpl in *; try discriminate.
  - inversion Ha; subst. eauto.
  - eauto.
Qed.

Lemma get_stop_weather_factors_shape (W : World) (ss : list Stop) (fs : list float) :
  get_stop_weather_factors W ss = Ok fs ->
  length fs = length ss /\ Forall factor_in_range fs.
Proof.
  intros H. destruct (get_stop_weather_factors_lookups W ss fs H) as (s0 & rest & _ & HF).
  clear H. induction HF as [|s f ss' fs' Hf Hrest IH]; simpl.
  - split; [reflexivity|constructor].
  - destruct IH as [Hlen Hall]. split; [now rewrite Hlen|].
    constructor; [|assumption]. eapply get_weather_factor_range; eassumption.
Qed.

(** One factor per stop: when [get_stop_weather_factors] returns, its list
    has as many entries as there are stops, and each is a finite number
    between 1.0 and [max_factor]. *)
Theorem get_stop_weather_factors_one_per_stop (W : World) (ss : list Stop)
  (fs : list float) :
  get_stop_weather_factors W ss = Ok fs ->
  length fs = length ss /\ Forall factor_in_range fs.
Proof. apply get_stop_weather_factors_shape. Qed.

Lemma get_stop_weather_factors_one_per_stop_witness :
  length [max_factor; max_factor; max_factor; max_factor] = length stops
  /\ Forall factor_in_range [max_factor; max_factor; max_factor; max_factor].
Proof.
  apply (get_stop_weather_factors_one_per_stop storm_world stops).
  vm_compute. reflexivity.
Defined.

(** The time of a lookup: a stop is looked up at its own ["when"], and a
    stop whose ["when"] is absent or empty at the ["when"] of the first
    stop. *)
Theorem get_stop_weather_factors_times (W : World) (s0 : Stop) (rest : list Stop)
  (fs : list float) (k : nat) (s : Stop) :
  get_stop_weather_factors W (s0 :: rest) = Ok fs ->
  nth_error (s0 :: rest) k = Some s ->
  exists f, nth_error fs k = Some f
    /\ (when s = None \/ when s = Some ""%string ->
        get_weather_factor W (lat s) (lon s) (when s0) = Ok f)
    /\ (forall w, when s = Some w -> w <> ""%string ->
        get_weather_factor W (lat s) (lon s) (Some w) = Ok f).
Proof.
  intros H Hs.
  destruct (get_stop_weather_factors_lookups W _ fs H) as (s0' & rest' & E & HF).
  inversion E; subst s0' rest'.
  destruct (Forall2_nth_error _ _ _ HF k s Hs) as (f & Hf & Hlookup).
  exists f. split; [assumption|]. split.
  - intros [Hw|Hw]; rewrite Hw in Hlookup; exact Hlookup.
  - intros w Hw Hne. rewrite Hw in Hlookup.
    destruct w as [|c w']; [now elim Hne|exact Hlookup].
Qed.

Lemma get_stop_weather_factors_times_witness :
  exists f, nth_error [max_factor; max_factor; max_factor] 1 = Some f
    /\ (@None string = None \/ @None string = Some ""%string ->
        get_weather_factor storm_world 41.1802 (-84.9960)
          (Some "2025-11-10T08:00:00-05:00"%string) = Ok f)
    /\ (forall w, @None string = Some w -> w <> ""%string ->
        get_weather_factor storm_world 41.1802 (-84.9960) (Some w) = Ok f).
Proof.
  apply (get_stop_weather_factors_times storm_world
           {| name := "Depot"; lat := 41.1176; lon := -85.0689;
              when := Some "2025-11-10T08:00:00-05:00"%string |}
           [ {| name := "Stop A"; lat := 41.1802; lon := -84.9960; when := None |};
             {| name := "Stop B"; lat := 41.0953; lon := -85.1394; when := Some ""%string |} ]
           [max_factor; max_factor; max_factor] 1
           {| name := "Stop A"; lat := 41.1802; lon := -84.9960; when := None |}).
  - vm_compute. reflexivity.
  - reflexivity.
Defined.

(** Without stops there is no first stop to take the default time from:
    [IndexError]; and when the first stop has no ["when"], its own lookup
    has no time to parse: [TypeError]. *)
Theorem get_stop_weather_factors_no_time (W : World) :
  get_stop_weather_factors W [] = Raise IndexError
  /\ forall s0 rest, when s0 = None ->
       get_stop_weather_factors W (s0 :: rest) = Raise TypeError.
Proof.
  split; [reflexivity|]. intros s0 rest Hw.
  rewrite get_stop_weather_factors_collect. simpl. rewrite Hw. reflexivity.
Qed.

Lemma series_at_members (members : list (string * json)) (field : string) (idx : nat) :
  series_at (JObj members) field idx
  = (v <- subscript (series_of members field) idx ;; Ok (py_or v (JNum (PyInt 0)))).
Proof. reflexivity. Qed.

(** Within a series of numbers and [null]s the value read is a number. *)
Lemma series_at_ok (members : list (string * json)) (field : string) (idx : nat) :
  readings (series_of members field) -> idx < series_len (series_of members field) ->
  exists v x, series_at (JObj members) field idx = Ok v /\ as_number v = Ok x.
Proof.
  rewrite series_at_members. destruct (series_of members field) as [| | | |items|];
    try contradiction.
  intros Hall Hidx. cbn [readings series_len subscript] in *.
  destruct (getitem_in_range items idx Hidx) as (v & Hv & Hnth). rewrite Hv. cbn [bind].
  apply nth_error_In in Hnth. rewrite Forall_forall in Hall. specialize (Hall v Hnth).
  destruct v as [| |x| | |]; try contradiction.
  - exists (JNum (PyInt 0)), (PyInt 0). split; reflexivity.
  - unfold py_or, json_truthy. destruct (truthy x); eexists; eexists; split; reflexivity.
Qed.

Lemma series_at_raise (members : list (string * json)) (field : string) (idx : nat) :
  readings (series_of members field) -> series_len (series_of members field) <= idx ->
  series_at (JObj members) field idx = Raise IndexError.
Proof.
  rewrite series_at_members. destruct (series_of members field) as [| | | |items|];
    try contradiction.
  intros _ Hidx. cbn [series_len subscript] in *.
  unfold getitem. apply nth_error_None in Hidx. now rewrite Hidx.
Qed.

Lemma series_at_cases (members : list (string * json)) (field : string) (idx : nat) :
  readings (series_of members field) ->
  (exists v x, series_at (JObj members) field idx = Ok v /\ as_number v = Ok x)
  \/ series_at (JObj members) field idx = Raise IndexError.
Proof.
  intros Hall.
  destruct (Nat.lt_ge_cases idx (series_len (series_of members field))) as [H|H].
  - left. now apply series_at_ok.
  - right. now apply series_at_raise.
Qed.

(** The four series are read at the position of the hour in ["time"]:
    for series of numbers and [null]s, the lookup returns a factor when
    each series (or [[0]] in place of an absent or empty one) reaches that
    position, and ends with [IndexError] when one of them is shorter. *)
Theorem get_weather_factor_series (W : World) (la lo : float) (w : string)
  (dt : string * string) (status : nat) (body : json) (members : list (string * json))
  (times : json) (idx : nat) :
  parse_utc W w = Ok dt ->
  forecast W la lo (fst dt) = Answer status (Some body) ->
  raise_for_status status = Ok tt ->
  dict_get body "hourly" (JObj []) = Ok (JObj members) ->
  dict_get (JObj members) "time" (JArr []) = Ok times ->
  py_index times (fst dt ++ "T" ++ snd dt)%string = Ok idx ->
  readings (series_of members "precipitation") ->
  readings (series_of members "snowfall") ->
  readings (series_of members "wind_speed_10m") ->
  readings (series_of members "wind_gusts_10m") ->
  (idx < series_len (series_of members "precipitation")
   /\ idx < series_len (series_of members "snowfall")
   /\ idx < series_len (series_of members "wind_speed_10m")
   /\ idx < series_len (series_of members "wind_gusts_10m") ->
   exists f, get_weather_factor W la lo (Some w) = Ok f)
  /\ (series_len (series_of members "precipitation") <= idx
      \/ series_len (series_of members "snowfall") <= idx
      \/ series_len (series_of members "wind_speed_10m") <= idx
      \/ series_len (series_of members "wind_gusts_10m") <= idx ->
      get_weather_factor W la lo (Some w) = Raise IndexError).
Proof.
  intros Hparse Hans Hstatus Hdata Htimes Hidx R1 R2 R3 R4.
  unfold get_weather_factor. rewrite Hparse. cbn [bind]. rewrite Hans, Hstatus. cbn [bind].
  rewrite Hdata. cbn [bind]. rewrite Htimes. cbn [bind]. rewrite Hidx. split.
  - intros (H1 & H2 & H3 & H4).
    destruct (series_at_ok _ _ _ R1 H1) as (v1 & p & -> & Hp).
    destruct (series_at_ok _ _ _ R2 H2) as (v2 & s & -> & Hs).
    destruct (series_at_ok _ _ _ R3 H3) as (v3 & wi & -> & Hw).
    destruct (series_at_ok _ _ _ R4 H4) as (v4 & g & -> & Hg).
    cbn [bind]. rewrite Hp, Hs, Hw, Hg. cbn [bind]. eauto.
  - intros H.
    destruct (series_at_cases members "precipitation" idx R1) as [(v1 & p & Hv1 & Hp)|Hv1];
      [|now rewrite Hv1].
    destruct (series_at_cases members "snowfall" idx R2) as [(v2 & s & Hv2 & Hs)|Hv2];
      [|now rewrite Hv1, Hv2].
    destruct (series_at_cases members "wind_speed_10m" idx R3) as [(v3 & wi & Hv3 & Hw)|Hv3];
      [|now rewrite Hv1, Hv2, Hv3].
    destruct (series_at_cases members "wind_gusts_10m" idx R4) as [(v4 & g & Hv4 & Hg)|Hv4];
      [|now rewrite Hv1, Hv2, Hv3, Hv4].
    exfalso.
    destruct H as [H|[H|[H|H]]]; apply series_at_raise in H; try assumption; congruence.
Qed.

Lemma get_weather_factor_series_witness :
  get_weather_factor sparse_world 41.1176 (-85.0689)
    (Some "2025-11-10T08:00:00-05:00"%string) = Raise IndexError.
Proof.
  refine (proj2 (get_weather_factor_series sparse_world 41.1176 (-85.0689)
            "2025-11-10T08:00:00-05:00"%string ("2025-11-10", "13:00")%string 200 _ _ _ 1
            eq_refl eq_refl eq_refl eq_refl eq_refl eq_refl _ _ _ _) _).
  - simpl. repeat constructor.
  - simpl. repeat constructor.
  - simpl. repeat constructor.
  - simpl. repeat constructor.
  - left. simpl. lia.
Defined.

End WeatherLookups.

(** ** Part IX: errors of the loop skeleton and of the adjustment *)

Lemma for_each_ext {A S : Type} (xs : list A) (f g : A -> S -> res S) :
  (forall x s, In x xs -> f x s = g x s) ->
  forall s, for_each xs f s = for_each xs g s.
Proof.
  induction xs as [|x xs IH]; intros Hfg s; simpl; [reflexivity|].
  rewrite (Hfg x s (or_introl eq_refl)). destruct (g x s) as [s'|e]; simpl; [|reflexivity].
  apply IH. intros y t Hy. apply Hfg. now right.
Qed.

Section FillErrors.
Variable n : nat.
Variable cell : nat -> nat -> res float.

Let inner (i : nat) : nat -> matrix -> res matrix :=
  fun j m => if i =? j then Ok m else v <- cell i j ;; setitem2 m i j v.

(** An exception of the inner loop is the exception of one of its cells. *)
Lemma inner_loop_raise (i : nat) (js : list nat) : forall m e,
  for_each js (inner i) m = Raise e ->
  is_square n m -> i < n -> Forall (fun j => j < n) js ->
  exists j, In j js /\ j <> i /\ cell i j = Raise e.
Proof.
  induction js as [|j js IH]; intros m e Hrun Hsq Hi Hjs; simpl in Hrun; [discriminate|].
  inversion Hjs as [|? ? Hj Hjs']; subst.
  unfold inner at 1 in Hrun. destruct (Nat.eqb_spec i j) as [Heq|Hneq]; simpl in Hrun.
  - destruct (IH m e Hrun Hsq Hi Hjs') as (k & Hk & Hki & Hcell).
    exists k. simpl. auto.
  - destruct (cell i j) as [v|e'] eqn:Hcell; simpl in Hrun.
    + destruct (setitem2_square n m i j v Hsq Hi Hj) as (m1 & Hstore & Hsq1 & _).
      rewrite Hstore in Hrun. simpl in Hrun.
      destruct (IH m1 e Hrun Hsq1 Hi Hjs') as (k & Hk & Hki & Hcell').
      exists k. simpl. auto.
    + inversion Hrun; subst e'. exists j. simpl. split; [auto|]. split; [congruence|assumption].
Qed.

Lemma inner_loop_square (i : nat) (js : list nat) : forall m m',
  for_each js (inner i) m = Ok m' ->
  is_square n m -> i < n -> Forall (fun j => j < n) js -> is_square n m'.
Proof.
  induction js as [|j js IH]; intros m m' Hrun Hsq Hi Hjs; simpl in Hrun.
  - now inversion Hrun; subst.
  - inversion Hjs as [|? ? Hj Hjs']; subst.
    apply bind_ok in Hrun. destruct Hrun as (m1 & Hbody & Hrest).
    unfold inner in Hbody. destruct (Nat.eqb_spec i j) as [Heq|Hneq].
    + inversion Hbody; subst m1. eapply IH; eassumption.
    + apply bind_ok in Hbody. destruct Hbody as (v & Hcell & Hstore).
      destruct (setitem2_square n m i j v Hsq Hi Hj) as (m1' & Hstore' & Hsq1 & _).
      rewrite Hstore in Hstore'. inversion Hstore'; subst m1'.
      eapply IH; eassumption.
Qed.

Let outer : nat -> matrix -> res matrix :=
  fun i m => for_each (range n) (inner i) m.

Lemma outer_loop_raise (rows : list nat) : forall m e,
  for_each rows outer m = Raise e ->
  is_square n m -> Forall (fun i => i < n) rows ->
  exists i j, i < n /\ j < n /\ i <> j /\ cell i j = Raise e.
Proof.
  induction rows as [|i rows IH]; intros m e Hrun Hsq Hrows; simpl in Hrun; [discriminate|].
  inversion Hrows as [|? ? Hi Hrows']; subst.
  unfold outer at 1 in Hrun.
  destruct (for_each (range n) (inner i) m) as [m1|e'] eqn:Hrow; simpl in Hrun.
  - apply (IH m1 e Hrun); [|assumption].
    apply (inner_loop_square i (range n) m m1 Hrow Hsq Hi (range_bounded n)).
  - inversion Hrun; subst e'.
    destruct (inner_loop_raise i (range n) m e Hrow Hsq Hi (range_bounded n))
      as (j & Hj & Hji & Hcell).
    exists i, j. apply in_seq in Hj. repeat split; try assumption; lia.
Qed.

(** An exception of the fill is the exception of an off-diagonal cell:
    the stores themselves do not fail on a square matrix. *)
Lemma fill_off_diagonal_raise (m : matrix) (e : exn) :
  fill_off_diagonal n cell m = Raise e -> is_square n m ->
  exists i j, i < n /\ j < n /\ i <> j /\ cell i j = Raise e.
Proof.
  intros Hrun Hsq. apply (outer_loop_raise (range n) m e Hrun Hsq (range_bounded n)).
Qed.

End FillErrors.

(** The fill reads [cell] at indices below [n] only. *)
Lemma fill_off_diagonal_ext (n : nat) (cell cell' : nat -> nat -> res float) (m : matrix) :
  (forall i j, i < n -> j < n -> cell i j = cell' i j) ->
  fill_off_diagonal n cell m = fill_off_diagonal n cell' m.
Proof.
  intros H. unfold fill_off_diagonal. apply for_each_ext.
  intros i mi Hi. apply for_each_ext. intros j mj Hj.
  apply in_seq in Hi, Hj. destruct (i =? j); [reflexivity|].
  rewrite (H i j) by lia. reflexivity.
Qed.

Section AdjustmentErrors.

Lemma getitem_raise {A : Type} (l : list A) (i : nat) (e : exn) :
  getitem l i = Raise e -> e = IndexError.
Proof. unfold getitem. destruct (nth_error l i); congruence. Qed.

Lemma adjusted_minutes_raise (base : matrix) (factors : list float) (i j : nat) (e : exn) :
  adjusted_minutes base factors i j = Raise e -> e = IndexError.
Proof.
  unfold adjusted_minutes, getitem2.
  destruct (getitem base i) as [row|e1] eqn:E1; simpl;
    [|intros H; inversion H; subst; eapply getitem_raise; eassumption].
  destruct (getitem row j) as [b|e2] eqn:E2; simpl;
    [|intros H; inversion H; subst; eapply getitem_raise; eassumption].
  destruct (getitem factors i) as [fi|e3] eqn:E3; simpl;
    [|intros H; inversion H; subst; eapply getitem_raise; eassumption].
  destruct (getitem factors j) as [fj|e4] eqn:E4; simpl;
    [discriminate|intros H; inversion H; subst; eapply getitem_raise; eassumption].
Qed.

Lemma nth_error_firstn_lt {A : Type} (l : list A) : forall n i,
  i < n -> nth_error (firstn n l) i = nth_error l i.
Proof.
  induction l as [|x l IH]; intros [|n] [|i] Hi; simpl; try reflexivity; try lia.
  apply IH. lia.
Qed.

(** Too few factors: on a square matrix with two or more rows the
    adjustment ends with [IndexError]; a matrix with a single row has no
    off-diagonal entry and needs no factor. *)
Theorem apply_weather_to_matrix_short_factors (n : nat) (base : matrix)
  (factors : list float) :
  is_square n base -> length factors < n ->
  (2 <= n -> apply_weather_to_matrix base factors = Raise IndexError)
  /\ (n = 1 -> apply_weather_to_matrix base factors = Ok [[0%float]]).
Proof.
  intros Hsq Hlen. pose proof Hsq as [Hn _]. split.
  - intros Hn2. unfold apply_weather_to_matrix. rewrite Hn.
    destruct (fill_off_diagonal n (adjusted_minutes base factors) (zeros n)) as [m|e] eqn:Hrun.
    + exfalso.
      destruct (fill_off_diagonal_inv n _ _ m Hrun (zeros_square n)) as (_ & _ & Hoff).
      destruct (Hoff 0 (n - 1)) as (v & Hv & _); try lia.
      unfold adjusted_minutes in Hv.
      apply bind_ok in Hv. destruct Hv as (b & _ & Hv).
      apply bind_ok in Hv. destruct Hv as (fi & _ & Hv).
      apply bind_ok in Hv. destruct Hv as (fj & Hfj & _).
      apply getitem_ok in Hfj.
      assert (n - 1 < length factors) by (apply nth_error_Some; congruence). lia.
    + destruct (fill_off_diagonal_raise n _ _ e Hrun (zeros_square n))
        as (i & j & _ & _ & _ & Hcell).
      apply adjusted_minutes_raise in Hcell. now subst e.
  - intros H1. unfold apply_weather_to_matrix. rewrite Hn, H1. reflexivity.
Qed.

Lemma apply_weather_to_matrix_short_factors_witness :
  apply_weather_to_matrix sample_base [1.3%float] = Raise IndexError.
Proof.
  refine (proj1 (apply_weather_to_matrix_short_factors 2 sample_base [1.3%float] _ _) _).
  - apply is_square_b_sound. vm_compute. reflexivity.
  - simpl. lia.
  - lia.
Defined.

(** Factors beyond the number of rows are never read. *)
Theorem apply_weather_to_matrix_surplus_factors (base : matrix) (factors : list float) :
  apply_weather_to_matrix base factors
  = apply_weather_to_matrix base (firstn (length base) factors).
Proof.
  unfold apply_weather_to_matrix. apply fill_off_diagonal_ext.
  intros i j Hi Hj. unfold adjusted_minutes, getitem.
  now rewrite !nth_error_firstn_lt.
Qed.

Lemma SFcompare_eq_above_zero (x y : spec_float) :
  match x with
  | S754_finite false _ _ | S754_infinity false => True
  | _ => False
  end ->
  SFcompare x y = Some Eq -> x = y.
Proof.
  destruct x as [s1|[]| |[] m1 e1]; try contradiction; intros _;
    destruct y as [s2|[]| |[] m2 e2]; simpl; try discriminate; try reflexivity.
  destruct (Z.compare_spec e1 e2) as [He|He|He]; try discriminate.
  change (Pos.compare_cont Eq m1 m2) with (Pos.compare m1 m2).
  destruct (Pos.compare_spec m1 m2) as [Hm|Hm|Hm]; try discriminate.
  intros _. now subst.
Qed.

(** [max] does not depend on the order of its arguments when both are at
    least 1.0. *)
Lemma py_max_comm (a b : float) :
  (1 <=? a)%float = true -> (1 <=? b)%float = true -> py_max a b = py_max b a.
Proof.
  intros Ha Hb. unfold py_max. rewrite !ltb_spec. unfold SFltb.
  rewrite (SFcompare_antisym (Prim2SF a) (Prim2SF b)).
  destruct (SFcompare (Prim2SF a) (Prim2SF b)) as [[]|] eqn:Hc; simpl; try reflexivity.
  - apply Prim2SF_inj. apply SFcompare_eq_above_zero; [|assumption].
    destruct (leb_one_SF a Ha) as [(m & e & -> & _)| ->]; exact I.
  - exfalso. apply leb_not_nan_r in Ha, Hb. rewrite is_nan_false_iff in Ha, Hb.
    destruct (SFcompare_defined _ _ Ha Hb) as (c & Hc'). congruence.
Qed.

Lemma SFcompare_eq_cases (x y : spec_float) :
  SFcompare x y = Some Eq ->
  x = y \/ exists s s', x = S754_zero s /\ y = S754_zero s'.
Proof.
  destruct x as [s1|[]| |[] m1 e1], y as [s2|[]| |[] m2 e2]; simpl;
    try discriminate; try solve [intros _; now left];
    try solve [intros _; right; eauto].
  - destruct (Z.compare_spec e1 e2) as [He|He|He]; try discriminate.
    change (Pos.compare_cont Eq m1 m2) with (Pos.compare m1 m2).
    destruct (Pos.compare_spec m1 m2) as [Hm|Hm|Hm]; try discriminate.
    intros _. left. now subst.
  - destruct (Z.compare_spec e1 e2) as [He|He|He]; try discriminate.
    change (Pos.compare_cont Eq m1 m2) with (Pos.compare m1 m2).
    destruct (Pos.compare_spec m1 m2) as [Hm|Hm|Hm]; try discriminate.
    intros _. left. now subst.
Qed.

(** Numbers that are [==] have products with a finite factor of at least
    1.0 that are [==]. *)
Lemma eqb_mul_r (b b' f : float) :
  (b =? b')%float = true -> (1 <=? f)%float = true -> is_finite f = true ->
  (b * f =? b' * f)%float = true.
Proof.
  intros Hbb H1 Hfin.
  destruct (leb_one_SF f H1) as [(m & e & Ef & _)|Ef];
    [|rewrite is_finite_SF, Ef in Hfin; discriminate].
  assert (Hnz : (f =? 0)%float = false).
  { rewrite eqb_spec, Ef. reflexivity. }
  rewrite eqb_spec in Hbb. unfold SFeqb in Hbb.
  destruct (SFcompare (Prim2SF b) (Prim2SF b')) as [[]|] eqn:Hc; try discriminate.
  assert (Hnb : is_nan b = false).
  { apply is_nan_false_iff. intros Hn. rewrite Hn in Hc. discriminate. }
  destruct (SFcompare_eq_cases _ _ Hc) as [E|(s & s' & E1 & E2)].
  - apply Prim2SF_inj in E. subst b'.
    rewrite eqb_spec. unfold SFeqb. rewrite SFcompare_refl; [reflexivity|].
    apply is_nan_false_iff. now apply mul_finite_nonzero_not_nan.
  - rewrite eqb_spec, !mul_spec, E1, E2, Ef. reflexivity.
Qed.

(** A base matrix that is symmetric under [==] stays so under finite
    factors of at least 1.0. *)
Theorem apply_weather_to_matrix_symmetric (n : nat) (base : matrix)
  (factors : list float) :
  is_square n base -> length factors = n -> symmetric n base ->
  (forall f, In f factors -> (1 <=? f)%float = true /\ is_finite f = true) ->
  exists m, apply_weather_to_matrix base factors = Ok m /\ symmetric n m.
Proof.
  intros Hsq Hlen Hsym Hfac.
  destruct (apply_weather_to_matrix_spec n base factors Hsq Hlen)
    as (m & Hrun & Hsqm & Hdiag & Hoff).
  exists m. split; [assumption|]. intros i j Hi Hj.
  destruct (Nat.eq_dec i j) as [<-|Hij].
  - exists 0%float, 0%float. rewrite Hdiag by assumption. repeat split; reflexivity.
  - destruct (Hoff i j Hi Hj Hij) as (b & fi & fj & Hb & Hfi & Hfj & Hx).
    destruct (Hoff j i Hj Hi (fun H => Hij (eq_sym H)))
      as (b' & fj' & fi' & Hb' & Hfj' & Hfi' & Hy).
    assert (fi' = fi) by congruence. assert (fj' = fj) by congruence. subst fi' fj'.
    destruct (Hsym i j Hi Hj) as (x & y & Ex & Ey & Exy).
    assert (x = b) by congruence. assert (y = b') by congruence. subst x y.
    destruct (Hfac fi (nth_error_In _ _ Hfi)) as [Hi1 Hifin].
    destruct (Hfac fj (nth_error_In _ _ Hfj)) as [Hj1 Hjfin].
    exists (b * py_max fi fj)%float, (b' * py_max fj fi)%float.
    split; [assumption|]. split; [assumption|].
    rewrite (py_max_comm fj fi) by assumption.
    apply eqb_mul_r; [assumption| |];
      destruct (py_max_cases fi fj) as [-> | ->]; assumption.
Qed.

Lemma apply_weather_to_matrix_symmetric_witness :
  exists m, apply_weather_to_matrix sample_base sample_factors = Ok m /\ symmetric 2 m.
Proof.
  apply (apply_weather_to_matrix_symmetric 2 sample_base sample_factors).
  - apply is_square_b_sound. vm_compute. reflexivity.
  - reflexivity.
  - intros [|[|i]] [|[|j]] Hi Hj; try lia;
      eexists; eexists; (split; [reflexivity|split; reflexivity]).
  - intros f [<-|[<-|[]]]; vm_compute; split; reflexivity.
Defined.

End AdjustmentErrors.

(** ** Part X: errors and zero entries of the base matrix *)

Section BaseMatrixErrors.
Variable L : Libm.

Lemma float_pow2_raise (s : float) (e : exn) :
  float_pow2 L s = Raise e -> e = OverflowError.
Proof.
  unfold float_pow2.
  destruct (is_nan s); [discriminate|]. destruct (is_infinity s); [discriminate|].
  destruct (s =? 0)%float; [discriminate|]. destruct (_ =? 1)%float; [discriminate|].
  destruct (is_infinity _); congruence.
Qed.

Lemma hav_raise (d : float) (e : exn) :
  hav L d = Raise e -> e = ValueError \/ e = OverflowError.
Proof.
  unfold hav, math_sin.
  destruct (math_1 (c_sin L) (radians d / 2)) as [s|e'] eqn:Hs; simpl.
  - intros H. right. eapply float_pow2_raise; eassumption.
  - intros H. inversion H; subst e'. left. eapply math_1_raise; eassumption.
Qed.

(** The exceptions of the distance: a domain error of a libm function, or
    an overflow of the square. *)
Lemma haversine_km_raise (lat1 lon1 lat2 lon2 : float) (e : exn) :
  haversine_km L lat1 lon1 lat2 lon2 = Raise e -> e = ValueError \/ e = OverflowError.
Proof.
  rewrite haversine_km_hav.
  destruct (hav L (lat2 - lat1)) as [h1|e1] eqn:H1; simpl;
    [|intros H; inversion H; subst; eapply hav_raise; eassumption].
  unfold math_cos.
  destruct (math_1 (c_cos L) (radians lat1)) as [c1|e1] eqn:Hc1; simpl;
    [|intros H; inversion H; subst; left; eapply math_1_raise; eassumption].
  destruct (math_1 (c_cos L) (radians lat2)) as [c2|e1] eqn:Hc2; simpl;
    [|intros H; inversion H; subst; left; eapply math_1_raise; eassumption].
  destruct (hav L (lon2 - lon1)) as [h2|e1] eqn:H2; simpl;
    [|intros H; inversion H; subst; eapply hav_raise; eassumption].
  unfold math_sqrt, math_asin.
  destruct (math_1 PrimFloat.sqrt _) as [r|e1] eqn:Hr; simpl;
    [|intros H; inversion H; subst; left; eapply math_1_raise; eassumption].
  destruct (math_1 (c_asin L) r) as [t|e1] eqn:Ht; simpl;
    [discriminate|intros H; inversion H; subst; left; eapply math_1_raise; eassumption].
Qed.

Section SaneErrors.
Hypothesis Hsane : libm_sane L.

(** With a square that stays in [0, 1] nothing overflows. *)
Lemma float_pow2_no_overflow (s : float) :
  (-1 <=? s)%float = true -> (s <=? 1)%float = true -> float_pow2 L s <> Raise OverflowError.
Proof.
  intros Hlo Hhi. unfold float_pow2.
  pose proof (leb_not_nan_r _ _ Hlo) as Hn.
  pose proof (between_finite (-1) 1 s eq_refl eq_refl Hlo Hhi) as Hf.
  rewrite Hn, (is_finite_not_inf s Hf).
  destruct (s =? 0)%float eqn:Hz; [discriminate|].
  destruct (finite_nonzero_shape s Hn (is_finite_not_inf s Hf) Hz) as (s0 & m & e & E).
  destruct (finite_sign_tests s s0 m e E) as [Hneg _]. rewrite Hneg.
  set (iv := if s0 then (- s)%float else s).
  assert (Hiv : (0 <? iv)%float = true /\ (iv <=? 1)%float = true).
  { subst iv. destruct s0.
    - split; [now rewrite ltb_zero_opp|].
      change 1%float with (- (-1))%float. now rewrite leb_opp.
    - split; [|assumption]. rewrite ltb_spec, E. reflexivity. }
  destruct Hiv as [Hpos Hle].
  destruct (iv =? 1)%float eqn:H1; [discriminate|].
  destruct (pow_range L Hsane iv Hpos (leb_neq_ltb _ _ Hle H1)) as [Hp0 Hp1].
  rewrite (is_finite_not_inf _ (unit_interval_finite _ Hp0 Hp1)). discriminate.
Qed.

Lemma hav_no_overflow (x y : float) :
  is_finite x = true -> is_finite y = true -> hav L (y - x) <> Raise OverflowError.
Proof.
  intros Hx Hy. unfold hav.
  destruct (math_sin L (radians (y - x) / 2)) as [s|e] eqn:Hs; simpl.
  - destruct (math_sin_range L Hsane _ s (half_angle_not_nan x y Hx Hy) Hs) as [Hlo Hhi].
    now apply float_pow2_no_overflow.
  - unfold math_sin in Hs. apply math_1_raise in Hs. subst e. discriminate.
Qed.

Lemma haversine_km_no_overflow (lat1 lon1 lat2 lon2 : float) :
  is_finite lat1 = true -> is_finite lon1 = true ->
  is_finite lat2 = true -> is_finite lon2 = true ->
  haversine_km L lat1 lon1 lat2 lon2 <> Raise OverflowError.
Proof.
  intros Hlat1 Hlon1 Hlat2 Hlon2. rewrite haversine_km_hav.
  pose proof (hav_no_overflow lat1 lat2 Hlat1 Hlat2) as Hh1.
  pose proof (hav_no_overflow lon1 lon2 Hlon1 Hlon2) as Hh2.
  destruct (hav L (lat2 - lat1)) as [h1|e1]; simpl; [|congruence].
  unfold math_cos.
  destruct (math_1 (c_cos L) (radians lat1)) as [c1|e1] eqn:Hc1; simpl;
    [|apply math_1_raise in Hc1; subst; discriminate].
  destruct (math_1 (c_cos L) (radians lat2)) as [c2|e1] eqn:Hc2; simpl;
    [|apply math_1_raise in Hc2; subst; discriminate].
  destruct (hav L (lon2 - lon1)) as [h2|e1]; simpl; [|congruence].
  unfold math_sqrt, math_asin.
  destruct (math_1 PrimFloat.sqrt _) as [r|e1] eqn:Hr; simpl;
    [|apply math_1_raise in Hr; subst; discriminate].
  destruct (math_1 (c_asin L) r) as [t|e1] eqn:Ht; simpl;
    [discriminate|apply math_1_raise in Ht; subst; discriminate].
Qed.

End SaneErrors.

(** The exceptions of a cell of the base matrix, for stops that exist. *)
Lemma base_minutes_raise (ss : list Stop) (speed : float) (i j : nat) (e : exn) :
  i < length ss -> j < length ss ->
  base_minutes L ss speed i j = Raise e ->
  exists si sj, nth_error ss i = Some si /\ nth_error ss j = Some sj
    /\ (haversine_km L (lat si) (lon si) (lat sj) (lon sj) = Raise e
        \/ (e = ZeroDivisionError /\ (speed =? 0)%float = true)).
Proof.
  intros Hi Hj. unfold base_minutes.
  destruct (getitem_in_range ss i Hi) as (si & Hgi & Hsi).
  destruct (getitem_in_range ss j Hj) as (sj & Hgj & Hsj).
  rewrite Hgi, Hgj. simpl. intros H. exists si, sj. repeat (split; [assumption|]).
  destruct (haversine_km L (lat si) (lon si) (lat sj) (lon sj)) as [km|e1]; simpl in H.
  - right. unfold float_div in H. destruct (speed =? 0)%float; [|discriminate].
    inversion H. auto.
  - left. exact H.
Qed.

End BaseMatrixErrors.

(** The exceptions of [build_base_time_matrix]: a [ValueError] or an
    [OverflowError] of a distance, or the [ZeroDivisionError] of a zero
    speed, never an [IndexError]; and with a C library as [libm_sane]
    describes it and legal coordinates no [OverflowError] either. *)
Theorem build_base_time_matrix_exceptions (L : Libm) (ss : list Stop) (speed : float)
  (e : exn) :
  build_base_time_matrix L ss speed = Raise e ->
  (e = ValueError \/ e = OverflowError
   \/ (e = ZeroDivisionError /\ (speed =? 0)%float = true))
  /\ (libm_sane L -> Forall legal_coordinates ss -> e <> OverflowError).
Proof.
  intros Hrun. unfold build_base_time_matrix in Hrun.
  destruct (fill_off_diagonal_raise _ _ _ e Hrun (zeros_square _))
    as (i & j & Hi & Hj & Hij & Hcell).
  destruct (base_minutes_raise L ss speed i j e Hi Hj Hcell)
    as (si & sj & Hsi & Hsj & [Hkm|Hzero]).
  - split.
    + destruct (haversine_km_raise L _ _ _ _ e Hkm) as [->| ->]; auto.
    + intros Hsane Hlegal ->. rewrite Forall_forall in Hlegal.
      destruct (legal_coordinates_finite si (Hlegal si (nth_error_In _ _ Hsi))) as [Hf1 Hf2].
      destruct (legal_coordinates_finite sj (Hlegal sj (nth_error_In _ _ Hsj))) as [Hf3 Hf4].
      exact (haversine_km_no_overflow L Hsane _ _ _ _ Hf1 Hf2 Hf3 Hf4 Hkm).
  - destruct Hzero as [-> Hz]. split; [auto|]. intros _ _. discriminate.
Qed.

Lemma build_base_time_matrix_exceptions_witness :
  (ZeroDivisionError = ValueError \/ ZeroDivisionError = OverflowError
   \/ (ZeroDivisionError = ZeroDivisionError /\ (0 =? 0)%float = true))
  /\ (libm_sane small_angle -> Forall legal_coordinates stops ->
      ZeroDivisionError <> OverflowError).
Proof.
  apply (build_base_time_matrix_exceptions small_angle stops 0%float ZeroDivisionError).
  vm_compute. reflexivity.
Defined.

Section ZeroEntries.
Local Open Scope float_scope.

Lemma zero_div_above_zero (y : float) : (0 <? y) = true -> 0 / y = 0.
Proof.
  rewrite ltb_spec. intros H. apply Prim2SF_inj. rewrite div_spec.
  change (Prim2SF 0) with (S754_zero false) in *.
  destruct (Prim2SF y) as [s|[]| |[] m e]; try discriminate; reflexivity.
Qed.

(** Two stops at one place are zero minutes apart. *)
Theorem build_base_time_matrix_colocated (L : Libm) (ss : list Stop) (speed : float)
  (m : matrix) (i j : nat) (si sj : Stop) :
  libm_sane L -> c_sin L 0 = 0 -> c_asin L 0 = 0 ->
  (0 <? speed) = true ->
  build_base_time_matrix L ss speed = Ok m ->
  nth_error ss i = Some si -> nth_error ss j = Some sj -> i <> j ->
  lat si = lat sj -> lon si = lon sj ->
  is_finite (lat si) = true -> is_finite (lon si) = true ->
  entry m i j = Some 0.
Proof.
  intros Hsane Hsin Hasin Hspeed Hrun Hsi Hsj Hij Hlat Hlon Hflat Hflon.
  assert (Hi : (i < length ss)%nat) by (apply nth_error_Some; congruence).
  assert (Hj : (j < length ss)%nat) by (apply nth_error_Some; congruence).
  unfold build_base_time_matrix in Hrun.
  destruct (fill_off_diagonal_inv _ _ _ m Hrun (zeros_square _)) as (_ & _ & Hoff).
  destruct (Hoff i j Hi Hj Hij) as (v & Hv & ->).
  apply base_minutes_ok in Hv.
  destruct Hv as (si' & sj' & km & Hsi' & Hsj' & Hkm & _ & ->).
  assert (si' = si) by congruence. assert (sj' = sj) by congruence. subst si' sj'.
  rewrite <- Hlat, <- Hlon in Hkm.
  assert (Hcos : is_nan (c_cos L (radians (lat si))) = false).
  { pose proof Hkm as H. rewrite haversine_km_hav in H.
    apply bind_ok in H. destruct H as (h1 & _ & H).
    apply bind_ok in H. destruct H as (c1 & Hc1 & _).
    apply math_1_ok in Hc1. destruct Hc1 as (-> & Hn & _).
    apply Hn, radians_not_nan. now apply is_finite_not_nan. }
  rewrite (haversine_km_self L (lat si) (lon si) Hsane Hsin Hasin Hflat Hflon Hcos) in Hkm.
  inversion Hkm; subst km. now rewrite zero_div_above_zero.
Qed.

Lemma build_base_time_matrix_colocated_witness :
  entry [[0; 0]; [0; 0]] 0 1 = Some 0.
Proof.
  apply (build_base_time_matrix_colocated small_angle twin_stops 35 [[0; 0]; [0; 0]] 0 1
           {| name := "Dock 1"; lat := 41.1176; lon := -85.0689;
              when := Some "2025-11-10T08:00:00-05:00"%string |}
           {| name := "Dock 2"; lat := 41.1176; lon := -85.0689;
              when := Some "2025-11-10T08:05:00-05:00"%string |});
    solve [exact small_angle_sane | reflexivity | vm_compute; reflexivity | discriminate].
Defined.

End ZeroEntries.

(** ** Part XI: arc costs and totals *)

Section SumsOfTimes.
Local Open Scope float_scope.

Lemma SFadd_nonneg (x y : spec_float) :
  SF_nonneg x -> SF_nonneg y -> SF_nonneg (SF64add x y).
Proof.
  destruct x as [s1|[]| |[] m1 e1], y as [s2|[]| |[] m2 e2]; simpl;
    intros Hx Hy; try contradiction; try exact I.
  - destruct s1, s2; exact I.
  - pose proof (binary_round_signed false
                  (fst (shl_align m1 e1 (Z.min e1 e2)) + fst (shl_align m2 e2 (Z.min e1 e2)))
                  (Z.min e1 e2)) as H.
    destruct (binary_round _ _ _ _ _); simpl in H; subst; try contradiction; exact I.
Qed.

(** A sum of numbers that are not negative is not negative (and not [nan]). *)
Lemma add_nonneg (x y : float) :
  (0 <=? x) = true -> (0 <=? y) = true -> (0 <=? x + y) = true.
Proof.
  rewrite !leb_zero_iff, add_spec. apply SFadd_nonneg.
Qed.

Lemma total_minutes_nonneg (tm : matrix) (ls : list (nat * nat)) :
  nonneg_matrix tm ->
  forall acc total,
    (0 <=? acc) = true ->
    for_each ls (fun ab t =>
      x <- getitem2 tm (fst ab) (snd ab) ;; Ok (t + x)) acc = Ok total ->
    (0 <=? total) = true.
Proof.
  intros Hnn. induction ls as [|[a b] ls IH]; intros acc total Hacc H; simpl in H.
  - now inversion H; subst.
  - apply bind_ok in H. destruct H as (acc' & Hstep & Hrest).
    apply bind_ok in Hstep. destruct Hstep as (x & Hx & Hacc').
    inversion Hacc'; subst acc'. apply getitem2_entry in Hx.
    apply (IH (acc + x) total); [|assumption].
    apply add_nonneg; [assumption|eapply Hnn; eassumption].
Qed.

Lemma solve_tsp_returns (solver : Solver) (fuel : nat) (tm : matrix) (start : nat)
  (order : list nat) (total : float) :
  solve_tsp solver fuel tm start = Some (Ok (order, total)) ->
  total_minutes tm order = Ok total.
Proof.
  unfold solve_tsp. destruct (solver _ _) as [solution|]; [|discriminate].
  destruct (extract_route _ _ _ _ _) as [order'|]; [|discriminate].
  intros H. inversion H as [H']. apply bind_ok in H'. destruct H' as (t & Ht & H').
  inversion H'; subst. exact Ht.
Qed.

(** On a matrix without negative entries the total [solve_tsp] reports
    is not negative and not [nan], whatever tour the solver chose. *)
Theorem solve_tsp_total_nonneg (solver : Solver) (fuel : nat) (tm : matrix) (start : nat)
  (order : list nat) (total : float) :
  nonneg_matrix tm ->
  solve_tsp solver fuel tm start = Some (Ok (order, total)) ->
  (0 <=? total) = true.
Proof.
  intros Hnn H. apply solve_tsp_returns in H. unfold total_minutes in H.
  apply (total_minutes_nonneg tm (legs order) Hnn 0 total eq_refl H).
Qed.

Lemma solve_tsp_total_nonneg_witness : (0 <=? 20.75) = true.
Proof.
  apply (solve_tsp_total_nonneg index_order_solver 3 sample_times 0 [0; 1; 2; 0]%nat 20.75).
  - apply nonneg_matrix_b_sound. vm_compute. reflexivity.
  - vm_compute. reflexivity.
Defined.

Lemma round_half_even_nonneg (m e : Z) : (0 <= m)%Z -> (0 <= round_half_even m e)%Z.
Proof.
  intros Hm. unfold round_half_even. destruct (0 <=? e)%Z eqn:He.
  - apply Z.mul_nonneg_nonneg; [assumption|]. apply Z.pow_nonneg. lia.
  - apply Z.leb_gt in He.
    assert (Hd : (0 < 2 ^ (- e))%Z) by (apply Z.pow_pos_nonneg; lia).
    pose proof (Z.div_pos m (2 ^ (- e)) Hm Hd) as Hq.
    destruct (2 * (m mod 2 ^ (- e)) ?= 2 ^ (- e))%Z; [destruct (Z.even _)| |]; lia.
Qed.

(** The arc cost of an entry that is not negative is an integer that is
    not negative; the callback fails only when a hundred times the entry
    is beyond the floats: [OverflowError]. *)
Theorem time_callback_nonneg (tm : matrix) (manager : RoutingIndexManager)
  (from_index to_index : nat) (x : float) :
  nonneg_matrix tm ->
  entry tm (IndexToNode manager from_index) (IndexToNode manager to_index) = Some x ->
  (is_finite (x * 100) = true ->
   exists z, time_callback tm manager from_index to_index = Ok z /\ (0 <= z)%Z)
  /\ (is_finite (x * 100) = false ->
      time_callback tm manager from_index to_index = Raise OverflowError).
Proof.
  intros Hnn Hx. unfold time_callback.
  pose proof Hx as Hg. apply getitem2_entry in Hg. rewrite Hg. cbn [bind].
  assert (Hp : (0 <=? x * 100) = true).
  { apply mul_nonneg; [eapply Hnn; eassumption|reflexivity|reflexivity|right; reflexivity]. }
  unfold py_round. rewrite is_finite_SF.
  destruct (leb_zero_SF _ Hp) as [(s & E)|[(m & e & E)|E]]; rewrite E; split;
    try discriminate; intros _.
  - exists 0%Z. split; [reflexivity|lia].
  - eexists. split; [reflexivity|]. simpl. apply round_half_even_nonneg. lia.
  - reflexivity.
Qed.

Lemma time_callback_nonneg_witness :
  exists z, time_callback sample_times {| num_nodes := 3; depot := 0 |} 1 3 = Ok z
            /\ (0 <= z)%Z.
Proof.
  refine (proj1 (time_callback_nonneg sample_times {| num_nodes := 3; depot := 0 |} 1 3 7.5
                   _ _) _).
  - apply nonneg_matrix_b_sound. vm_compute. reflexivity.
  - reflexivity.
  - reflexivity.
Defined.

End SumsOfTimes.

(** ** Part XII: the whole run *)

Section WholeRun.

(** The base matrix of stops with legal coordinates at a speed above zero
    has no negative entry. *)
Lemma build_base_time_matrix_nonneg (L : Libm) (ss : list Stop) (speed : float)
  (m : matrix) :
  libm_sane L -> Forall legal_coordinates ss -> (0 <? speed)%float = true ->
  build_base_time_matrix L ss speed = Ok m ->
  is_square (length ss) m /\ nonneg_matrix m.
Proof.
  intros Hsane Hlegal Hspeed Hrun. unfold build_base_time_matrix in Hrun.
  destruct (fill_off_diagonal_inv _ _ _ m Hrun (zeros_square _)) as (Hsq & Hdiag & Hoff).
  split; [assumption|]. intros i j x Hx.
  destruct (entry_in_range _ m i j x Hsq Hx) as [Hi Hj].
  destruct (Nat.eq_dec i j) as [->|Hij].
  - rewrite Hdiag, zeros_entry in Hx by assumption. now inversion Hx.
  - destruct (Hoff i j Hi Hj Hij) as (v & Hv & Hentry).
    apply base_minutes_ok in Hv.
    destruct Hv as (si & sj & km & Hsi & Hsj & Hkm & _ & ->).
    rewrite Hentry in Hx. inversion Hx; subst x. clear Hx.
    rewrite Forall_forall in Hlegal.
    destruct (legal_coordinates_finite si (Hlegal si (nth_error_In _ _ Hsi))) as [Hf1 Hf2].
    destruct (legal_coordinates_finite sj (Hlegal sj (nth_error_In _ _ Hsj))) as [Hf3 Hf4].
    destruct (haversine_km_nonneg L Hsane _ _ _ _ km Hf1 Hf2 Hf3 Hf4 Hkm) as [Hkm0 Hkmf].
    apply mul_nonneg; [now apply div_nonneg|reflexivity|reflexivity|right; reflexivity].
Qed.

(** Factors of the rule set keep a matrix free of negative entries. *)
Lemma apply_weather_to_matrix_nonneg (n : nat) (base : matrix) (factors : list float) :
  is_square n base -> length factors = n -> nonneg_matrix base ->
  Forall factor_in_range factors ->
  exists m, apply_weather_to_matrix base factors = Ok m
            /\ is_square n m /\ nonneg_matrix m.
Proof.
  intros Hsq Hlen Hbase Hfac. rewrite Forall_forall in Hfac.
  destruct (apply_weather_to_matrix_spec n base factors Hsq Hlen)
    as (m & Hrun & Hsq' & Hdiag & Hoff).
  exists m. repeat (split; [assumption|]).
  intros i j x Hx.
  destruct (entry_in_range n m i j x Hsq' Hx) as [Hi Hj].
  destruct (Nat.eq_dec i j) as [->|Hij].
  - rewrite Hdiag in Hx by assumption. now inversion Hx.
  - destruct (Hoff i j Hi Hj Hij) as (b & fi & fj & Hb & Hfi & Hfj & Hm).
    rewrite Hm in Hx. inversion Hx; subst x. clear Hx.
    assert (Hmax : factor_in_range (py_max fi fj)).
    { destruct (py_max_cases fi fj) as [-> | ->]; apply Hfac; eapply nth_error_In; eassumption. }
    apply leb_zero_trans with (x := b); [eapply Hbase; eassumption|].
    apply mul_ge_self; [eapply Hbase; eassumption|apply Hmax|apply Hmax].
Qed.

(** The tour [solve_tsp] extracts from a solution of the routing model. *)
Lemma solve_tsp_route (solver : Solver) (n fuel : nat) (tm : matrix) (start : nat)
  (next : nat -> nat) (p : list nat) :
  is_square n tm -> start < n ->
  solver {| num_nodes := n; depot := start |}
         (time_callback tm {| num_nodes := n; depot := start |}) = Some next ->
  route_from n next start p -> NoDup p -> (forall i, i < n -> In i p) ->
  n <= fuel ->
  exists total, solve_tsp solver fuel tm start = Some (Ok (p ++ [start], total)).
Proof.
  intros Hsq Hstart Hsolve Hroute Hnd Hall Hfuel.
  pose proof Hsq as [Hlen _].
  pose proof (route_from_bounded n next start p Hroute) as Hb.
  pose proof (route_covers_length n p Hb Hnd Hall) as Hp.
  destruct (route_from_head n next start p Hroute) as (q & Hq).
  assert (Horder : Forall (fun k => k < n) (p ++ [start])).
  { apply Forall_app. split; [assumption|]. repeat constructor. assumption. }
  destruct (tour_cost_defined n tm (p ++ [start]) Hsq Horder 0%float) as (total & Htotal).
  exists total. unfold solve_tsp. rewrite Hlen, Hsolve.
  rewrite (extract_route_follows n start next start p Hroute) by lia.
  unfold Start, IndexToNode. cbn [num_nodes depot].
  replace (start <? n) with true by (symmetry; apply Nat.ltb_lt; lia).
  replace ([start] ++ tl p ++ [start]) with (p ++ [start]) by (subst p; reflexivity).
  unfold total_minutes.
  apply (total_minutes_tour_cost tm (p ++ [start]) 0%float total) in Htotal.
  now rewrite Htotal.
Qed.

(** The lines of the visit order name the stops of the tour. *)
Lemma visit_lines_acc (ss : list Stop) (order : list nat) :
  Forall (fun k => k < length ss) order ->
  forall acc, exists lines,
    for_each order (fun k lines =>
      s <- getitem ss k ;; Ok (lines ++ [(k, name s)])) acc = Ok (acc ++ lines)
    /\ map fst lines = order
    /\ Forall (fun l => exists s, nth_error ss (fst l) = Some s /\ name s = snd l) lines.
Proof.
  induction 1 as [|k order Hk Horder IH]; intros acc; simpl.
  - exists []. rewrite app_nil_r. repeat split; constructor.
  - destruct (getitem_in_range ss k Hk) as (s & Hg & Hs). rewrite Hg. simpl.
    destruct (IH (acc ++ [(k, name s)])) as (lines & Hrun & Hfst & Hnames).
    exists ((k, name s) :: lines). rewrite Hrun, <- app_assoc. simpl.
    split; [reflexivity|]. split; [now rewrite Hfst|].
    constructor; [|assumption]. exists s. auto.
Qed.

Lemma visit_lines_ok (ss : list Stop) (order : list nat) :
  Forall (fun k => k < length ss) order ->
  exists lines, visit_lines ss order = Ok lines
    /\ map fst lines = order
    /\ Forall (fun l => exists s, nth_error ss (fst l) = Some s /\ name s = snd l) lines.
Proof. intros H. apply (visit_lines_acc ss order H []). Qed.

(** The whole run, when nothing fails: for stops with legal coordinates
    whose distances and weather lookups return, and a solver that finds a
    solution of the routing model, the script prints a visit order that
    starts and ends at stop 0, names every other stop exactly once, each
    line with the name of its stop, a total that is not negative, and one
    factor per stop between 1.0 and [max_factor]. *)
Theorem main_returns_closed_tour (L : Libm) (W : World) (solver : Solver) (fuel : nat)
  (ss : list Stop) (fs : list float) :
  libm_sane L -> Forall legal_coordinates ss ->
  (forall i j si sj,
     nth_error ss i = Some si -> nth_error ss j = Some sj -> i <> j ->
     exists km, haversine_km L (lat si) (lon si) (lat sj) (lon sj) = Ok km) ->
  get_stop_weather_factors W ss = Ok fs ->
  (forall cost, exists next,
     solver {| num_nodes := length ss; depot := 0 |} cost = Some next
     /\ routing_solution (length ss) 0 next) ->
  length ss <= fuel ->
  exists lines total,
    main L W solver fuel ss = Some (Ok (lines, total, fs))
    /\ length lines = length ss + 1
    /\ hd_error (map fst lines) = Some 0
    /\ last (map fst lines) (length ss) = 0
    /\ (forall k, 0 < k < length ss -> count_occ Nat.eq_dec (map fst lines) k = 1)
    /\ (forall k nm, In (k, nm) lines -> exists s, nth_error ss k = Some s /\ name s = nm)
    /\ (0 <=? total)%float = true
    /\ length fs = length ss /\ Forall factor_in_range fs.
Proof.
  intros Hsane Hlegal Hdist Hweather Hsolver Hfuel.
  set (n := length ss) in *.
  destruct (build_base_time_matrix_runs L ss 35%float eq_refl Hdist) as (base & Hbase).
  destruct (build_base_time_matrix_nonneg L ss 35%float base Hsane Hlegal eq_refl Hbase)
    as [Hsqb Hnnb].
  destruct (get_stop_weather_factors_shape W ss fs Hweather) as [Hlen Hrange].
  destruct (apply_weather_to_matrix_nonneg n base fs Hsqb Hlen Hnnb Hrange)
    as (adj & Hadj & Hsqa & Hnna).
  assert (Hn : 0 < n).
  { subst n. destruct ss; [discriminate|simpl; lia]. }
  destruct (Hsolver (time_callback adj {| num_nodes := n; depot := 0 |}))
    as (next & Hnext & p & Hroute & Hnd & Hall).
  destruct (solve_tsp_route solver n fuel adj 0 next p Hsqa Hn Hnext Hroute Hnd Hall Hfuel)
    as (total & Htsp).
  pose proof (route_from_bounded n next 0 p Hroute) as Hb.
  pose proof (route_covers_length n p Hb Hnd Hall) as Hp.
  destruct (route_from_head n next 0 p Hroute) as (q & Hq).
  assert (Horder : Forall (fun k => k < length ss) (p ++ [0])).
  { apply Forall_app. split; [assumption|]. repeat constructor. assumption. }
  destruct (visit_lines_ok ss (p ++ [0]) Horder) as (lines & Hlines & Hfst & Hnames).
  exists lines, total. split.
  { unfold main. rewrite Hbase, Hweather, Hadj, Htsp, Hlines. reflexivity. }
  split; [rewrite <- (length_map fst), Hfst, length_app; simpl; lia|].
  rewrite Hfst.
  split; [subst p; reflexivity|].
  split; [apply last_last|].
  split; [|split; [|split; [|split; assumption]]].
  - intros k Hk. rewrite count_occ_app.
    rewrite (proj1 (count_occ_not_In Nat.eq_dec [0] k)) by (intros [H|[]]; lia).
    rewrite Nat.add_0_r. apply NoDup_count_occ'; auto. apply Hall. lia.
  - intros k nm Hin. rewrite Forall_forall in Hnames. exact (Hnames (k, nm) Hin).
  - pose proof (solve_tsp_returns _ _ _ _ _ _ Htsp) as Ht. unfold total_minutes in Ht.
    exact (total_minutes_nonneg adj (legs (p ++ [0])) Hnna 0%float total eq_refl Ht).
Qed.

Lemma main_returns_closed_tour_witness :
  exists lines total,
    main small_angle storm_world index_order_solver 4 stops
    = Some (Ok (lines, total, [max_factor; max_factor; max_factor; max_factor]))
    /\ length lines = length stops + 1
    /\ hd_error (map fst lines) = Some 0
    /\ last (map fst lines) (length stops) = 0
    /\ (forall k, 0 < k < length stops -> count_occ Nat.eq_dec (map fst lines) k = 1)
    /\ (forall k nm, In (k, nm) lines -> exists s, nth_error stops k = Some s /\ name s = nm)
    /\ (0 <=? total)%float = true
    /\ length [max_factor; max_factor; max_factor; max_factor] = length stops
    /\ Forall factor_in_range [max_factor; max_factor; max_factor; max_factor].
Proof.
  apply (main_returns_closed_tour small_angle storm_world index_order_solver 4 stops
           [max_factor; max_factor; max_factor; max_factor]).
  - exact small_angle_sane.
  - apply legal_coordinates_b_sound. vm_compute. reflexivity.
  - apply (build_base_time_matrix_distances small_angle stops 35%float sample_base_matrix).
    vm_compute. reflexivity.
  - vm_compute. reflexivity.
  - intros cost. exists S. split; [reflexivity|]. exists [0; 1; 2; 3]. split; [|split].
    + apply route_step; [simpl; lia|]. apply route_step; [simpl; lia|].
      apply route_step; [simpl; lia|]. apply route_last; [simpl; lia|reflexivity].
    + repeat constructor; simpl; intuition lia.
    + intros i Hi. simpl in *. lia.
  - simpl. lia.
Defined.

(** Weather that cannot be fetched ends the run: without stops the
    default time cannot be read ([IndexError]), and when the service is
    unreachable for the first stop the run ends with [ConnectionError]
    after the base matrix is built, whatever the solver. *)
Theorem main_stops_on_weather_failure (L : Libm) (W : World) (solver : Solver)
  (fuel : nat) :
  main L W solver fuel [] = Some (Raise IndexError)
  /\ forall s0 rest w dt,
       (forall i j si sj,
          nth_error (s0 :: rest) i = Some si -> nth_error (s0 :: rest) j = Some sj ->
          i <> j ->
          exists km, haversine_km L (lat si) (lon si) (lat sj) (lon sj) = Ok km) ->
       when s0 = Some w -> w <> ""%string ->
       parse_utc W w = Ok dt ->
       forecast W (lat s0) (lon s0) (fst dt) = Unreachable ->
       main L W solver fuel (s0 :: rest) = Some (Raise ConnectionError).
Proof.
  split; [reflexivity|].
  intros s0 rest w dt Hdist Hw Hne Hparse Hdown.
  destruct (build_base_time_matrix_runs L (s0 :: rest) 35%float eq_refl Hdist)
    as (base & Hbase).
  unfold main. rewrite Hbase, get_stop_weather_factors_collect.
  cbn [map collect]. rewrite Hw.
  replace (when_or (Some w) (Some w)) with (Some w) by (destruct w; [now elim Hne|reflexivity]).
  unfold get_weather_factor at 1. rewrite Hparse. cbn [bind]. rewrite Hdown. reflexivity.
Qed.

(** When the solver finds no solution the run ends with [RuntimeError],
    after the matrices are built and the weather is fetched. *)
Theorem main_without_solution (L : Libm) (W : World) (solver : Solver) (fuel : nat)
  (ss : list Stop) (fs : list float) :
  (forall i j si sj,
     nth_error ss i = Some si -> nth_error ss j = Some sj -> i <> j ->
     exists km, haversine_km L (lat si) (lon si) (lat sj) (lon sj) = Ok km) ->
  get_stop_weather_factors W ss = Ok fs ->
  (forall cost, solver {| num_nodes := length ss; depot := 0 |} cost = None) ->
  main L W solver fuel ss = Some (Raise RuntimeError).
Proof.
  intros Hdist Hweather Hsolver.
  destruct (build_base_time_matrix_runs L ss 35%float eq_refl Hdist) as (base & Hbase).
  assert (Hsqb : is_square (length ss) base).
  { unfold build_base_time_matrix in Hbase.
    now destruct (fill_off_diagonal_inv _ _ _ base Hbase (zeros_square _)). }
  destruct (get_stop_weather_factors_shape W ss fs Hweather) as [Hlen _].
  destruct (apply_weather_to_matrix_spec (length ss) base fs Hsqb Hlen)
    as (adj & Hadj & [Hla _] & _).
  unfold main. rewrite Hbase, Hweather, Hadj. unfold solve_tsp.
  rewrite Hla, Hsolver. reflexivity.
Qed.

Lemma main_without_solution_witness :
  main small_angle storm_world (fun _ _ => None) 4 stops = Some (Raise RuntimeError).
Proof.
  apply (main_without_solution small_angle storm_world (fun _ _ => None) 4 stops
           [max_factor; max_factor; max_factor; max_factor]).
  - apply (build_base_time_matrix_distances small_angle stops 35%float sample_base_matrix).
    vm_compute. reflexivity.
  - vm_compute. reflexivity.
  - reflexivity.
Defined.

(** A single stop: no distance is computed, and the run prints the stop
    twice, a total of 0.0 and the stop's factor. *)
Theorem main_single_stop (L : Libm) (W : World) (solver : Solver) (fuel : nat)
  (s : Stop) (f : float) (next : nat -> nat) :
  get_weather_factor W (lat s) (lon s) (when s) = Ok f ->
  (forall cost, solver {| num_nodes := 1; depot := 0 |} cost = Some next) ->
  1 <= next 0 -> 1 <= fuel ->
  main L W solver fuel [s] = Some (Ok ([(0, name s); (0, name s)], 0%float, [f])).
Proof.
  intros Hf Hsolver Hnext Hfuel.
  assert (Hwhen : when_or (when s) (when s) = when s).
  { destruct (when s) as [[|c w]|]; reflexivity. }
  unfold main.
  change (build_base_time_matrix L [s] 35%float) with (Ok [[0%float]]).
  rewrite get_stop_weather_factors_collect. cbn [map collect]. rewrite Hwhen, Hf.
  cbn [bind].
  change (apply_weather_to_matrix [[0%float]] [f]) with (Ok [[0%float]]).
  unfold solve_tsp. cbn [length]. rewrite Hsolver.
  destruct fuel as [|fuel]; [lia|].
  unfold Start, IndexToNode. cbn [num_nodes depot Nat.ltb Nat.leb].
  unfold extract_route at 1. unfold IsEnd at 1. cbn [num_nodes Nat.leb].
  unfold IndexToNode. cbn [num_nodes depot].
  replace (next 0 <? 1) with false by (symmetry; apply Nat.ltb_ge; lia).
  assert (Hend : forall k order, extract_route k {| num_nodes := 1; depot := 0 |} next (next 0) order
                                 = Some order).
  { intros k order. destruct k; simpl; unfold IsEnd; cbn [num_nodes];
      replace (1 <=? next 0) with true by (symmetry; apply Nat.leb_le; lia); reflexivity. }
  fold extract_route. rewrite Hend. reflexivity.
Qed.

Lemma main_single_stop_witness :
  main small_angle storm_world index_order_solver 1 depot_only
  = Some (Ok ([(0, "Depot"%string); (0, "Depot"%string)], 0%float, [max_factor])).
Proof.
  apply (main_single_stop small_angle storm_world index_order_solver 1
           {| name := "Depot"; lat := 41.1176; lon := -85.0689;
              when := Some "2025-11-10T08:00:00-05:00"%string |} max_factor S).
  - vm_compute. reflexivity.
  - reflexivity.
  - lia.
  - lia.
Defined.

End WholeRun.

(** ** Part XIII: rounding is monotone *)

Section NearestEven.
Local Open Scope Z_scope.

Lemma nearest_even_bounds x u : 0 < u -> x / u <= nearest_even x u <= x / u + 1.
Proof.
  intros Hu. unfold nearest_even.
  destruct (2 * (x mod u) ?= u); [destruct (Z.even (x / u))| |]; lia.
Qed.

Lemma nearest_even_exact q u : 0 < u -> nearest_even (q * u) u = q.
Proof.
  intros Hu. unfold nearest_even. rewrite Z.mod_mul, Z.div_mul by lia.
  destruct (Z.compare_spec (2 * 0) u); lia.
Qed.

Lemma nearest_even_scale x u c :
  0 < u -> 0 < c -> nearest_even (x * c) (u * c) = nearest_even x u.
Proof.
  intros Hu Hc. unfold nearest_even.
  rewrite Z.div_mul_cancel_r by lia.
  rewrite Z.mul_mod_distr_r by lia.
  replace (2 * (x mod u * c)) with (2 * (x mod u) * c) by ring.
  rewrite <- (Zmult_compare_compat_r (2 * (x mod u)) u c) by lia. reflexivity.
Qed.

Lemma nearest_even_mono x y u : 0 < u -> x <= y -> nearest_even x u <= nearest_even y u.
Proof.
  intros Hu Hxy.
  pose proof (Z.div_le_mono x y u Hu Hxy) as Hq.
  destruct (Z.eq_dec (x / u) (y / u)) as [Heq|Hne].
  - pose proof (Z.div_mod x u ltac:(lia)) as Hx.
    pose proof (Z.div_mod y u ltac:(lia)) as Hy.
    assert (Hr : x mod u <= y mod u) by (rewrite Heq in Hx; nia).
    unfold nearest_even. rewrite Heq.
    destruct (Z.compare_spec (2 * (x mod u)) u), (Z.compare_spec (2 * (y mod u)) u);
      try lia; destruct (Z.even (y / u)); lia.
  - pose proof (nearest_even_bounds x u Hu). pose proof (nearest_even_bounds y u Hu). lia.
Qed.

Lemma nearest_even_le_multiple x u p : 0 < u -> x < p * u -> nearest_even x u <= p.
Proof.
  intros Hu Hx. pose proof (nearest_even_bounds x u Hu).
  assert (x / u < p) by (apply Z.div_lt_upper_bound; lia). lia.
Qed.

Lemma nearest_even_ge_multiple x u p : 0 < u -> p * u <= x -> p <= nearest_even x u.
Proof.
  intros Hu Hx. pose proof (nearest_even_bounds x u Hu).
  assert (p <= x / u) by (apply Z.div_le_lower_bound; lia). lia.
Qed.

Lemma nearest_even_nonneg x u : 0 < u -> 0 <= x -> 0 <= nearest_even x u.
Proof.
  intros Hu Hx. apply (nearest_even_ge_multiple x u 0); lia.
Qed.

End NearestEven.

Section GridRounding.
Local Open Scope Z_scope.

Lemma grid_unit_pos d : 0 < grid_unit d.
Proof.
  unfold grid_unit. apply pow2_pos. rewrite fexp_unfold.
  assert (bias = 2200) by reflexivity. lia.
Qed.

(** Rounding each value to the grid of its own magnitude keeps the order
    of the values. *)
Lemma rounded_value_mono X Y dx dy :
  2 ^ (dx - 1 + bias) <= X < 2 ^ (dx + bias) ->
  2 ^ (dy - 1 + bias) <= Y < 2 ^ (dy + bias) ->
  X <= Y ->
  nearest_even X (grid_unit dx) * grid_unit dx
  <= nearest_even Y (grid_unit dy) * grid_unit dy.
Proof.
  intros [HXlo HXhi] [HYlo HYhi] HXY.
  assert (Hb : bias = 2200) by reflexivity.
  assert (Hd : dx <= dy).
  { destruct (Z_le_gt_dec dx dy) as [|Hgt]; [assumption|exfalso].
    assert (2 ^ (dy + bias) <= 2 ^ (dx - 1 + bias)) by (apply Z.pow_le_mono_r; lia).
    lia. }
  pose proof (grid_unit_pos dx) as Hux. pose proof (grid_unit_pos dy) as Huy.
  unfold grid_unit in *. rewrite !fexp_unfold in *.
  set (gx := Z.max (dx - 53) (-1074)) in *. set (gy := Z.max (dy - 53) (-1074)) in *.
  destruct (Z.eq_dec gx gy) as [Hg|Hg].
  - rewrite <- Hg. apply Z.mul_le_mono_nonneg_r; [lia|].
    apply nearest_even_mono; assumption.
  - assert (Hgy : gy = dy - 53) by (subst gx gy; lia).
    assert (Hdd : dx <= dy - 1) by (subst gx gy; lia).
    assert (Hgx : gx <= dy - 1) by (subst gx gy; lia).
    set (Ux := 2 ^ (gx + bias)) in *. set (Uy := 2 ^ (gy + bias)) in *.
    set (P := 2 ^ (dy - 1 + bias)) in *.
    assert (HPy : P = 2 ^ 52 * Uy).
    { subst P Uy. rewrite <- Z.pow_add_r by lia. f_equal. lia. }
    assert (HPx : P = 2 ^ (dy - 1 - gx) * Ux).
    { subst P Ux. rewrite <- Z.pow_add_r by lia. f_equal. lia. }
    assert (HXP : X < P).
    { eapply Z.lt_le_trans; [exact HXhi|]. subst P. apply Z.pow_le_mono_r; lia. }
    assert (H1 : nearest_even X Ux <= 2 ^ (dy - 1 - gx)).
    { apply nearest_even_le_multiple; [assumption|]. now rewrite <- HPx. }
    assert (H2 : 2 ^ 52 <= nearest_even Y Uy).
    { apply nearest_even_ge_multiple; [assumption|]. now rewrite <- HPy. }
    apply Z.le_trans with (m := P).
    + rewrite HPx. apply Z.mul_le_mono_nonneg_r; lia.
    + rewrite HPy. apply Z.mul_le_mono_nonneg_r; lia.
Qed.

End GridRounding.

Section ShiftRecords.
Local Open Scope Z_scope.

(** One more shift keeps the record in step with the value. *)
Lemma shr_1_stands_for x j r :
  0 <= j -> 0 <= shr_m r -> shr_stands_for x j r -> shr_stands_for x (j + 1) (shr_1 r).
Proof.
  intros Hj Hm. destruct r as [m rb sb]. unfold shr_stands_for. cbn [shr_m shr_r shr_s] in *.
  rewrite (Z.pow_add_r 2 j 1) by lia. change (2 ^ 1) with 2.
  assert (HP : 0 < 2 ^ j) by now apply pow2_pos. set (P := 2 ^ j) in *.
  intros [Hrest Hbits].
  assert (Hor : orb rb sb = negb (x - m * P =? 0)).
  { destruct (Z.compare_spec (2 * (x - m * P)) P); inversion Hbits; subst;
      destruct (Z.eqb_spec (x - m * P) 0); simpl; try reflexivity; lia. }
  assert (Hrb : rb = false -> 2 * (x - m * P) < P).
  { intros ->. destruct (Z.compare_spec (2 * (x - m * P)) P); [discriminate|assumption|discriminate]. }
  destruct m as [|[p|p|]|p]; try lia; cbn [shr_1 shr_m shr_r shr_s]; rewrite Hor.
  - split; [nia|].
    replace (x - 0 * (P * 2)) with (x - 0 * P) by ring.
    set (rest := x - 0 * P) in *.
    destruct (Z.compare_spec (2 * rest) (P * 2)); destruct (Z.eqb_spec rest 0);
      simpl; try reflexivity; lia.
  - rewrite (Pos2Z.inj_xI p) in *. split; [nia|].
    replace (x - Z.pos p * (P * 2)) with (x - (2 * Z.pos p + 1) * P + P) by ring.
    set (rest := x - (2 * Z.pos p + 1) * P) in *.
    destruct (Z.compare_spec (2 * (rest + P)) (P * 2)); destruct (Z.eqb_spec rest 0);
      simpl; try reflexivity; lia.
  - rewrite (Pos2Z.inj_xO p) in *. split; [nia|].
    replace (x - Z.pos p * (P * 2)) with (x - 2 * Z.pos p * P) by ring.
    set (rest := x - 2 * Z.pos p * P) in *.
    destruct (Z.compare_spec (2 * rest) (P * 2)); destruct (Z.eqb_spec rest 0);
      simpl; try reflexivity; lia.
  - split; [nia|].
    replace (x - 0 * (P * 2)) with (x - 1 * P + P) by ring.
    set (rest := x - 1 * P) in *.
    destruct (Z.compare_spec (2 * (rest + P)) (P * 2)); destruct (Z.eqb_spec rest 0);
      simpl; try reflexivity; lia.
Qed.

Lemma iter_pos_stands_for x p : forall j r,
  0 <= j -> 0 <= shr_m r -> shr_stands_for x j r ->
  shr_stands_for x (j + Z.pos p) (iter_pos shr_1 p r).
Proof.
  assert (Hnn : forall q r, 0 <= shr_m r -> 0 <= shr_m (iter_pos shr_1 q r)).
  { intros q r Hr. rewrite iter_pos_shr_m by assumption.
    apply Z.div_pos; [assumption|]. apply pow2_pos. lia. }
  assert (Hnn1 : forall r, 0 <= shr_m r -> 0 <= shr_m (shr_1 r)).
  { intros r Hr. rewrite shr_1_m by assumption. apply Z.div_pos; lia. }
  induction p as [p IH|p IH|]; intros j r Hj Hr H; cbn [iter_pos].
  - replace (j + Z.pos p~1) with (j + 1 + Z.pos p + Z.pos p) by lia.
    apply IH; [lia|auto|]. apply IH; [lia|auto|]. now apply shr_1_stands_for.
  - replace (j + Z.pos p~0) with (j + Z.pos p + Z.pos p) by lia.
    apply IH; [lia|auto|]. now apply IH.
  - now apply shr_1_stands_for.
Qed.

(** Shifting and then rounding by the two bits is rounding to nearest,
    ties to even. *)
Lemma shr_round_nearest_even m k r :
  0 <= m -> 0 <= k -> shr_stands_for m k r -> 0 <= shr_m r ->
  round_nearest_even (shr_m r) (loc_of_shr_record r) = nearest_even m (2 ^ k).
Proof.
  intros Hm Hk [Hrest Hbits] Hr. destruct r as [q rb sb]. cbn [shr_m shr_r shr_s] in *.
  assert (HP : 0 < 2 ^ k) by now apply pow2_pos. set (P := 2 ^ k) in *.
  assert (Hq : m / P = q).
  { symmetry. apply (Z.div_unique m P q (m - q * P)); lia. }
  assert (Hmod : m mod P = m - q * P).
  { symmetry. apply (Z.mod_unique m P q (m - q * P)); lia. }
  unfold nearest_even. rewrite Hq, Hmod.
  destruct (Z.compare_spec (2 * (m - q * P)) P); injection Hbits as -> ->; simpl;
    try reflexivity.
  destruct (Z.eqb_spec (m - q * P) 0); reflexivity.
Qed.

End ShiftRecords.

Section RoundingCore.
Local Open Scope Z_scope.

(** The first stage of the rounding core on an exact input whose
    exponent is not above its grid: the mantissa is rounded to nearest on
    the grid. *)
Lemma shr_fexp_nearest m e :
  0 < m -> e <= fexp prec emax (Zdigits2 m + e) ->
  let '(r, e') := shr_fexp prec emax m e loc_Exact in
  round_nearest_even (shr_m r) (loc_of_shr_record r)
  = nearest_even m (2 ^ (fexp prec emax (Zdigits2 m + e) - e))
  /\ e' = fexp prec emax (Zdigits2 m + e).
Proof.
  intros Hm Hg. unfold shr_fexp, shr.
  set (g := fexp prec emax (Zdigits2 m + e)) in *.
  assert (H0 : shr_stands_for m 0 (shr_record_of_loc m loc_Exact)).
  { unfold shr_stands_for. simpl. rewrite Z.mul_1_r, Z.sub_diag. split; [lia|reflexivity]. }
  destruct (g - e) as [|k|k] eqn:Hk; try lia.
  - split; [|lia]. simpl. change (2 ^ 0) with 1.
    rewrite <- (Z.mul_1_r m) at 2. now rewrite nearest_even_exact.
  - split; [|lia].
    assert (Hr0 : 0 <= shr_m (shr_record_of_loc m loc_Exact)) by (simpl; lia).
    pose proof (iter_pos_stands_for m k 0 _ (Z.le_refl 0) Hr0 H0) as Hk'.
    simpl Z.add in Hk'.
    apply shr_round_nearest_even; try lia; [assumption|].
    rewrite iter_pos_shr_m by (simpl; lia). simpl shr_m.
    apply Z.div_pos; [lia|]. apply pow2_pos. lia.
Qed.

Lemma trunc_normal n g :
  0 <= n <= 2 ^ 53 -> - 1074 <= g ->
  (n < 2 ^ 53 -> trunc n g = (n, g))
  /\ (n = 2 ^ 53 -> trunc n g = (2 ^ 52, g + 1)).
Proof.
  intros Hn Hg. split.
  - intros Hlt. unfold trunc. rewrite fexp_unfold.
    assert (Hd : Zdigits2 n <= 53).
    { destruct (Z.eq_dec n 0) as [->|Hne]; [simpl; lia|]. apply Zdigits2_le; lia. }
    destruct (Z.ltb_spec 0 (Z.max (Zdigits2 n + g - 53) (-1074) - g)); [lia|reflexivity].
  - intros ->. unfold trunc. rewrite fexp_unfold.
    change (Zdigits2 (2 ^ 53)) with 54.
    replace (Z.max (54 + g - 53) (-1074) - g) with 1 by lia.
    simpl Z.ltb. cbv iota. f_equal; reflexivity.
Qed.

(** The value the rounding core returns: on an exact input whose
    exponent is not above its grid, it is the value rounded to nearest on
    the grid of its magnitude, and infinite from [2^1024] on. *)
Lemma binary_round_aux_value m e :
  0 < m -> - bias <= e -> e <= fexp prec emax (Zdigits2 m + e) ->
  let V := nearest_even (val m e) (grid_unit (Zdigits2 m + e))
           * grid_unit (Zdigits2 m + e) in
  let r := binary_round_aux prec emax false m e loc_Exact in
  (r = S754_zero false /\ V = 0)
  \/ (exists p e', r = S754_finite false p e' /\ val (Z.pos p) e' = V /\ 0 < V)
  \/ (r = S754_infinity false /\ 2 ^ (1024 + bias) <= V).
Proof.
  intros Hm He Hg. cbv zeta.
  assert (Hb : bias = 2200) by reflexivity.
  destruct (Zdigits2_bounds m Hm) as (Hd & Hlo & Hhi).
  set (g := fexp prec emax (Zdigits2 m + e)) in *.
  set (n := nearest_even m (2 ^ (g - e))).
  assert (Hg1074 : - 1074 <= g) by (subst g; rewrite fexp_unfold; lia).
  assert (Hgd : Zdigits2 m + e - 53 <= g) by (subst g; rewrite fexp_unfold; lia).
  assert (HK : 0 < 2 ^ (g - e)) by (apply pow2_pos; lia).
  assert (HE : 0 < 2 ^ (e + bias)) by (apply pow2_pos; lia).
  assert (HG : 0 < 2 ^ (g + bias)) by (apply pow2_pos; lia).
  (* the value in units of the grid *)
  assert (HV : nearest_even (val m e) (grid_unit (Zdigits2 m + e)) = n).
  { unfold grid_unit, val. fold g.
    replace (2 ^ (g + bias)) with (2 ^ (g - e) * 2 ^ (e + bias))
      by (rewrite <- Z.pow_add_r by lia; f_equal; lia).
    now apply nearest_even_scale. }
  rewrite HV. unfold grid_unit. fold g.
  assert (Hn53 : 0 <= n <= 2 ^ 53).
  { split; [apply nearest_even_nonneg; lia|].
    apply nearest_even_le_multiple; [assumption|].
    rewrite <- Z.pow_add_r by lia.
    eapply Z.lt_le_trans; [exact Hhi|]. apply Z.pow_le_mono_r; lia. }
  assert (Hn52 : - 1074 < g -> 2 ^ 52 <= n).
  { intros Hgt. apply nearest_even_ge_multiple; [assumption|].
    rewrite <- Z.pow_add_r by lia.
    eapply Z.le_trans; [|exact Hlo]. apply Z.pow_le_mono_r; [lia|].
    subst g. rewrite fexp_unfold in *. lia. }
  (* the two stages of the core *)
  unfold binary_round_aux.
  pose proof (shr_fexp_nearest m e Hm Hg) as H1.
  destruct (shr_fexp prec emax m e loc_Exact) as [r1 e1].
  destruct H1 as [H1 ->]. fold g in H1. fold n in H1. rewrite H1. fold g.
  pose proof (shr_fexp_trunc n g loc_Exact (proj1 Hn53)) as H2.
  destruct (shr_fexp prec emax n g loc_Exact) as [r2 e2].
  destruct (trunc_normal n g Hn53 Hg1074) as [Hsmall Hfull].
  change (emax - prec) with 971.
  destruct (Z.eq_dec n (2 ^ 53)) as [Hn|Hn].
  - rewrite (Hfull Hn) in H2. inversion H2 as [[Hm2 He2]]. rewrite Hm2.
    change (2 ^ 52) with (Z.pos 4503599627370496).
    destruct (Z.leb_spec (g + 1) 971) as [Hle|Hgt].
    + right; left. exists 4503599627370496%positive, (g + 1).
      split; [reflexivity|]. rewrite Hn. unfold val.
      replace (g + 1 + bias) with (1 + (g + bias)) by lia.
      rewrite (Z.pow_add_r 2 1 (g + bias)) by lia.
      change (2 ^ 1) with 2. change (2 ^ 53) with 9007199254740992. split; lia.
    + right; right. split; [reflexivity|]. rewrite Hn.
      rewrite <- Z.pow_add_r by lia. apply Z.pow_le_mono_r; lia.
  - rewrite (Hsmall ltac:(lia)) in H2. inversion H2 as [[Hm2 He2]]. rewrite Hm2.
    destruct n as [|p|p] eqn:En; [left; split; [reflexivity|lia]| |lia].
    destruct (Z.leb_spec g 971) as [Hle|Hgt].
    + right; left. exists p, g. split; [reflexivity|]. unfold val. split; [reflexivity|nia].
    + right; right. split; [reflexivity|].
      specialize (Hn52 ltac:(lia)).
      apply Z.le_trans with (m := 2 ^ 52 * 2 ^ (g + bias)).
      * rewrite <- Z.pow_add_r by lia. apply Z.pow_le_mono_r; lia.
      * apply Z.mul_le_mono_nonneg_r; lia.
Qed.

(** The rounding core keeps the order of exact inputs. *)
Lemma binary_round_aux_mono m1 e1 m2 e2 :
  0 < m1 -> 0 < m2 -> - bias <= e1 -> - bias <= e2 ->
  e1 <= fexp prec emax (Zdigits2 m1 + e1) ->
  e2 <= fexp prec emax (Zdigits2 m2 + e2) ->
  val m1 e1 <= val m2 e2 ->
  valid_binary (binary_round_aux prec emax false m1 e1 loc_Exact) = true ->
  valid_binary (binary_round_aux prec emax false m2 e2 loc_Exact) = true ->
  SFleb (binary_round_aux prec emax false m1 e1 loc_Exact)
        (binary_round_aux prec emax false m2 e2 loc_Exact) = true.
Proof.
  intros Hm1 Hm2 He1 He2 Hg1 Hg2 Hv Hvalid1 Hvalid2.
  assert (Hb : bias = 2200) by reflexivity.
  assert (Hmag : forall m e, 0 < m -> - bias <= e ->
            2 ^ (Zdigits2 m + e - 1 + bias) <= val m e < 2 ^ (Zdigits2 m + e + bias)).
  { intros m e Hm He. destruct (Zdigits2_bounds m Hm) as (Hd & Hlo & Hhi).
    assert (HE : 0 < 2 ^ (e + bias)) by (apply pow2_pos; lia).
    unfold val.
    replace (Zdigits2 m + e - 1 + bias) with (Zdigits2 m - 1 + (e + bias)) by lia.
    replace (Zdigits2 m + e + bias) with (Zdigits2 m + (e + bias)) by lia.
    rewrite (Z.pow_add_r 2 (Zdigits2 m - 1) (e + bias)) by lia.
    rewrite (Z.pow_add_r 2 (Zdigits2 m) (e + bias)) by lia. split.
    - apply Z.mul_le_mono_nonneg_r; lia.
    - apply Z.mul_lt_mono_pos_r; lia. }
  pose proof (rounded_value_mono (val m1 e1) (val m2 e2) (Zdigits2 m1 + e1) (Zdigits2 m2 + e2)
                (Hmag m1 e1 Hm1 He1) (Hmag m2 e2 Hm2 He2) Hv) as HV.
  destruct (binary_round_aux_value m1 e1 Hm1 He1 Hg1)
    as [[E1 HV1]|[(p1 & f1 & E1 & HV1 & Hpos1)|[E1 HV1]]];
  destruct (binary_round_aux_value m2 e2 Hm2 He2 Hg2)
    as [[E2 HV2]|[(p2 & f2 & E2 & HV2 & Hpos2)|[E2 HV2]]];
  rewrite E1 in *; rewrite E2 in *;
  try reflexivity; try lia.
  - simpl in Hvalid1, Hvalid2. apply bounded_canonical in Hvalid1, Hvalid2.
    apply SFleb_val; try assumption. lia.
  - exfalso. simpl in Hvalid2. unfold bounded in Hvalid2.
    apply andb_prop in Hvalid2. destruct Hvalid2 as [Hc Hle].
    apply Z.leb_le in Hle. change (emax - prec) with 971 in Hle.
    destruct (canonical_digits _ _ Hc) as (Hf & Hdig & _).
    destruct (Zdigits2_bounds (Z.pos p2) eq_refl) as (_ & _ & Hhi). simpl Zdigits2 in Hhi.
    assert (Hp : Z.pos p2 < 2 ^ 53).
    { eapply Z.lt_le_trans; [exact Hhi|]. apply Z.pow_le_mono_r; lia. }
    assert (HF : 0 < 2 ^ (f2 + bias)) by (apply pow2_pos; lia).
    assert (Hlt : val (Z.pos p2) f2 < 2 ^ (1024 + bias)).
    { unfold val. apply Z.lt_le_trans with (m := 2 ^ 53 * 2 ^ (f2 + bias)).
      - apply Z.mul_lt_mono_pos_r; lia.
      - rewrite <- Z.pow_add_r by lia. apply Z.pow_le_mono_r; lia. }
    lia.
Qed.

End RoundingCore.

Section ProductsKeepOrder.
Local Open Scope Z_scope.

(** The exact product of two canonical mantissas sits at or below the
    grid of its magnitude. *)
Lemma mul_normalized mx ex my ey :
  canonical_mantissa prec emax mx ex = true ->
  canonical_mantissa prec emax my ey = true ->
  - bias <= ex + ey
  /\ ex + ey <= fexp prec emax (Zdigits2 (Z.pos (mx * my)) + (ex + ey)).
Proof.
  intros Hx Hy. assert (Hb : bias = 2200) by reflexivity.
  destruct (canonical_digits _ _ Hx) as (Hex & _ & Hmx).
  destruct (canonical_digits _ _ Hy) as (Hey & _ & Hmy).
  split; [lia|]. rewrite fexp_unfold.
  destruct (Z_le_gt_dec (ex + ey) (-1074)) as [|Hgt]; [lia|].
  assert (H52 : 2 ^ 52 <= Z.pos (mx * my)).
  { rewrite Pos2Z.inj_mul.
    destruct (Z_le_gt_dec ex (-1074)) as [Hlo|Hhi].
    - specialize (Hmy ltac:(lia)). nia.
    - specialize (Hmx ltac:(lia)). nia. }
  pose proof (Zdigits2_ge (Z.pos (mx * my)) 53 eq_refl H52). lia.
Qed.

Lemma val_mul a ea b eb :
  0 <= ea + bias -> 0 <= eb + bias -> 0 <= ea + eb + bias ->
  val (a * b) (ea + eb) * 2 ^ bias = val a ea * val b eb.
Proof.
  intros Ha Hb Hab. unfold val.
  assert (H : 2 ^ (ea + eb + bias) * 2 ^ bias = 2 ^ (ea + bias) * 2 ^ (eb + bias)).
  { rewrite <- !Z.pow_add_r by (try assumption; reflexivity || (unfold bias; lia)).
    f_equal. lia. }
  replace (a * b * 2 ^ (ea + eb + bias) * 2 ^ bias)
    with (a * b * (2 ^ (ea + eb + bias) * 2 ^ bias)) by ring.
  rewrite H. ring.
Qed.

(** Products of positive numbers keep the order of their factors. *)
Lemma SFmul_mono mx ex mx' ex' mf ef mf' ef' :
  bounded prec emax mx ex = true -> bounded prec emax mx' ex' = true ->
  bounded prec emax mf ef = true -> bounded prec emax mf' ef' = true ->
  SFleb (S754_finite false mx ex) (S754_finite false mx' ex') = true ->
  SFleb (S754_finite false mf ef) (S754_finite false mf' ef') = true ->
  valid_binary (SF64mul (S754_finite false mx ex) (S754_finite false mf ef)) = true ->
  valid_binary (SF64mul (S754_finite false mx' ex') (S754_finite false mf' ef')) = true ->
  SFleb (SF64mul (S754_finite false mx ex) (S754_finite false mf ef))
        (SF64mul (S754_finite false mx' ex') (S754_finite false mf' ef')) = true.
Proof.
  intros Bx Bx' Bf Bf' Hxx Hff V1 V2.
  apply bounded_canonical in Bx, Bx', Bf, Bf'.
  apply (SFleb_val _ _ _ _ Bx Bx') in Hxx. apply (SFleb_val _ _ _ _ Bf Bf') in Hff.
  assert (Hb : bias = 2200) by reflexivity.
  destruct (canonical_digits _ _ Bx) as (Hex & _ & _).
  destruct (canonical_digits _ _ Bx') as (Hex' & _ & _).
  destruct (canonical_digits _ _ Bf) as (Hef & _ & _).
  destruct (canonical_digits _ _ Bf') as (Hef' & _ & _).
  destruct (mul_normalized mx ex mf ef Bx Bf) as [He1 Hn1].
  destruct (mul_normalized mx' ex' mf' ef' Bx' Bf') as [He2 Hn2].
  unfold SF64mul, SFmul in *. simpl xorb in *.
  apply binary_round_aux_mono; try assumption; try reflexivity.
  rewrite !Pos2Z.inj_mul.
  assert (HB : 0 < 2 ^ bias) by (apply pow2_pos; lia).
  apply (Z.mul_le_mono_pos_r _ _ (2 ^ bias) HB).
  rewrite !val_mul by lia.
  assert (0 <= val (Z.pos mx) ex).
  { unfold val. apply Z.mul_nonneg_nonneg; [lia|]. apply Z.pow_nonneg. lia. }
  assert (0 <= val (Z.pos mf) ef).
  { unfold val. apply Z.mul_nonneg_nonneg; [lia|]. apply Z.pow_nonneg. lia. }
  apply Z.mul_le_mono_nonneg; assumption.
Qed.

Lemma SFleb_zero_nonneg s r : SF_nonneg r -> SFleb (S754_zero s) r = true.
Proof. destruct r as [s'|[]| |[] m e]; simpl; try contradiction; reflexivity. Qed.

Lemma SFleb_nonneg_infinity r : SF_nonneg r -> SFleb r (S754_infinity false) = true.
Proof. destruct r as [s'|[]| |[] m e]; simpl; try contradiction; reflexivity. Qed.

Local Open Scope float_scope.

(** A product of numbers that are not negative grows with its factors. *)
Lemma mul_le_mono (x x' f f' : float) :
  (0 <=? x) = true -> (x <=? x') = true ->
  (0 <? f) = true -> (f <=? f') = true -> is_finite f' = true ->
  (x * f <=? x' * f') = true.
Proof.
  intros Hx Hxx Hf Hff Hfin.
  pose proof (Prim2SF_valid x) as Vx. pose proof (Prim2SF_valid x') as Vx'.
  pose proof (Prim2SF_valid f) as Vf. pose proof (Prim2SF_valid f') as Vf'.
  pose proof (Prim2SF_valid (x * f)) as V1. pose proof (Prim2SF_valid (x' * f')) as V2.
  rewrite mul_spec in V1, V2.
  apply leb_zero_iff in Hx. rewrite leb_spec in Hxx, Hff. rewrite ltb_spec in Hf.
  rewrite is_finite_SF in Hfin. rewrite leb_spec, !mul_spec.
  change (Prim2SF 0) with (S754_zero false) in Hf.
  destruct (Prim2SF f) as [sf|[]| |[] mf ef]; try discriminate;
    destruct (Prim2SF f') as [sf'|[]| |[] mf' ef']; try discriminate.
  destruct (Prim2SF x) as [s|[]| |[] m e]; try contradiction;
    destruct (Prim2SF x') as [s'|[]| |[] m' e']; try discriminate; try reflexivity.
  - apply SFleb_zero_nonneg. apply SFmul_nonneg; exact I.
  - apply SFleb_nonneg_infinity. now apply SFmul_nonneg.
  - now apply SFmul_mono.
Qed.

End ProductsKeepOrder.

Section SumsKeepOrder.
Local Open Scope Z_scope.

Lemma iter_xO_val (d m : positive) : Z.pos (Pos.iter xO m d) = Z.pos m * 2 ^ Z.pos d.
Proof.
  induction d as [|d IH] using Pos.peano_ind.
  - change (Pos.iter xO m 1) with (xO m). rewrite (Pos2Z.inj_xO m).
    change (2 ^ 1) with 2. lia.
  - rewrite Pos.iter_succ, (Pos2Z.inj_xO (Pos.iter xO m d)), IH, Pos2Z.inj_succ.
    rewrite Z.pow_succ_r by lia. lia.
Qed.

(** Aligning a mantissa to a lower exponent keeps the value. *)
Lemma shl_align_spec m e e' :
  e' <= e ->
  snd (shl_align m e e') = e'
  /\ Z.pos (fst (shl_align m e e')) = Z.pos m * 2 ^ (e - e').
Proof.
  intros He. unfold shl_align. destruct (e' - e) as [|d|d] eqn:Hd; try lia; cbn [fst snd].
  - replace (e - e') with 0 by lia. split; [lia|]. change (2 ^ 0) with 1. lia.
  - split; [reflexivity|]. rewrite iter_xO_val. f_equal. f_equal. lia.
Qed.

Lemma shl_align_above m e e' : e <= e' -> shl_align m e e' = (m, e).
Proof.
  intros He. unfold shl_align. destruct (e' - e) as [|d|d] eqn:Hd; try lia; reflexivity.
Qed.

(** [binary_round] hands the rounding core an exact input of the same
    value, at or below the grid of its magnitude. *)
Lemma binary_round_core p e :
  - 1074 <= e ->
  exists mz ez,
    binary_round prec emax false p e = binary_round_aux prec emax false (Z.pos mz) ez loc_Exact
    /\ val (Z.pos mz) ez = val (Z.pos p) e
    /\ - bias <= ez
    /\ ez <= fexp prec emax (Zdigits2 (Z.pos mz) + ez).
Proof.
  intros He. assert (Hb : bias = 2200) by reflexivity.
  unfold binary_round. change (Z.pos (digits2_pos p)) with (Zdigits2 (Z.pos p)).
  set (g := fexp prec emax (Zdigits2 (Z.pos p) + e)).
  assert (Hg : - 1074 <= g) by (subst g; rewrite fexp_unfold; lia).
  destruct (Z_le_gt_dec e g) as [Hle|Hgt].
  - rewrite (shl_align_above p e g Hle). exists p, e.
    repeat split; first [reflexivity | exact Hle | lia].
  - destruct (shl_align_spec p e g ltac:(lia)) as [Hs Hf].
    destruct (shl_align p e g) as [mz ez]. cbn [fst snd] in Hs, Hf. subst ez.
    exists mz, g. split; [reflexivity|]. split; [|split; [lia|]].
    + unfold val. rewrite Hf.
      replace (e + bias) with ((e - g) + (g + bias)) by lia.
      rewrite (Z.pow_add_r 2 (e - g) (g + bias)) by lia. ring.
    + rewrite Hf. rewrite (Z.mul_comm (Z.pos p)), Zdigits2_shift by lia.
      replace (Zdigits2 (Z.pos p) + (e - g) + g) with (Zdigits2 (Z.pos p) + e) by lia.
      fold g. lia.
Qed.

(** The sum of two positive numbers, as an input of the rounding core. *)
Lemma SFadd_core m1 e1 m2 e2 :
  - 1074 <= e1 -> - 1074 <= e2 ->
  exists mz ez,
    SF64add (S754_finite false m1 e1) (S754_finite false m2 e2)
    = binary_round_aux prec emax false (Z.pos mz) ez loc_Exact
    /\ val (Z.pos mz) ez = val (Z.pos m1) e1 + val (Z.pos m2) e2
    /\ - bias <= ez
    /\ ez <= fexp prec emax (Zdigits2 (Z.pos mz) + ez).
Proof.
  intros He1 He2. assert (Hb : bias = 2200) by reflexivity.
  unfold SF64add, SFadd. cbn [cond_Zopp].
  set (ez := Z.min e1 e2).
  destruct (shl_align_spec m1 e1 ez ltac:(subst ez; lia)) as [_ H1].
  destruct (shl_align_spec m2 e2 ez ltac:(subst ez; lia)) as [_ H2].
  set (a := fst (shl_align m1 e1 ez)) in *. set (b := fst (shl_align m2 e2 ez)) in *.
  change (Z.pos a + Z.pos b) with (Z.pos (a + b)). cbn [binary_normalize].
  destruct (binary_round_core (a + b) ez ltac:(subst ez; lia)) as (mz & ez' & Hr & Hv & Hez & Hn).
  exists mz, ez'. split; [exact Hr|]. split; [|split; assumption].
  rewrite Hv. unfold val. rewrite Pos2Z.inj_add, H1, H2.
  replace (e1 + bias) with ((e1 - ez) + (ez + bias)) by lia.
  replace (e2 + bias) with ((e2 - ez) + (ez + bias)) by lia.
  rewrite (Z.pow_add_r 2 (e1 - ez) (ez + bias)) by (subst ez; lia).
  rewrite (Z.pow_add_r 2 (e2 - ez) (ez + bias)) by (subst ez; lia).
  ring.
Qed.

(** The rounding core returns a representable number as it is. *)
Lemma binary_round_aux_bounded m e :
  bounded prec emax m e = true ->
  binary_round_aux prec emax false (Z.pos m) e loc_Exact = S754_finite false m e.
Proof.
  intros Hv. unfold bounded in Hv. apply andb_prop in Hv. destruct Hv as [Hc He].
  pose proof (canonical_unfold _ _ Hc) as Hc'. apply Z.leb_le in He.
  unfold binary_round_aux.
  assert (H : shr_fexp prec emax (Z.pos m) e loc_Exact
              = (Build_shr_record (Z.pos m) false false, e)).
  { unfold shr_fexp. rewrite fexp_unfold. simpl Zdigits2.
    replace (Z.max (Z.pos (digits2_pos m) + e - 53) (-1074) - e) with 0 by lia.
    reflexivity. }
  rewrite H. simpl shr_m. simpl loc_of_shr_record. simpl round_nearest_even.
  rewrite H. simpl shr_m.
  destruct (Z.leb_spec e (emax - prec)); [reflexivity|lia].
Qed.

(** Rounding does not drop below a representable number that was below
    the exact value. *)
Lemma SFleb_round_lower mb eb m e :
  bounded prec emax mb eb = true ->
  0 < m -> - bias <= e -> e <= fexp prec emax (Zdigits2 m + e) ->
  val (Z.pos mb) eb <= val m e ->
  valid_binary (binary_round_aux prec emax false m e loc_Exact) = true ->
  SFleb (S754_finite false mb eb) (binary_round_aux prec emax false m e loc_Exact) = true.
Proof.
  intros Hb Hm He Hn Hv Hvalid.
  rewrite <- (binary_round_aux_bounded mb eb Hb).
  pose proof Hb as Hc. apply bounded_canonical in Hc.
  destruct (canonical_digits _ _ Hc) as (Heb & _ & _).
  apply binary_round_aux_mono; try assumption; try reflexivity.
  - unfold bias. lia.
  - apply canonical_unfold in Hc. rewrite fexp_unfold. simpl Zdigits2. lia.
  - rewrite (binary_round_aux_bounded mb eb Hb). exact Hb.
Qed.

Lemma val_pos m e : 0 < val (Z.pos m) e \/ val (Z.pos m) e = 0.
Proof.
  unfold val. pose proof (Z.pow_nonneg 2 (e + bias) ltac:(lia)). nia.
Qed.

(** Sums of numbers that are not negative keep the order of their terms. *)
Lemma SFadd_le_mono (a a' b b' : spec_float) :
  valid_binary a = true -> valid_binary a' = true ->
  valid_binary b = true -> valid_binary b' = true ->
  valid_binary (SF64add a b) = true -> valid_binary (SF64add a' b') = true ->
  SF_nonneg a -> SF_nonneg b ->
  SFleb a a' = true -> SFleb b b' = true ->
  SFleb (SF64add a b) (SF64add a' b') = true.
Proof.
  intros Va Va' Vb Vb' V1 V2 Ha Hb Haa Hbb.
  assert (Hnn : forall x y, SF_nonneg x -> SF_nonneg y -> SF_nonneg (SF64add x y))
    by apply SFadd_nonneg.
  assert (Hval : forall m e, 0 <= val (Z.pos m) e).
  { intros m e. destruct (val_pos m e); lia. }
  destruct a as [sa|[]| |[] ma ea]; try contradiction;
    destruct a' as [sa'|[]| |[] ma' ea']; try discriminate;
    destruct b as [sb|[]| |[] mb eb]; try contradiction;
    destruct b' as [sb'|[]| |[] mb' eb']; try discriminate;
    try reflexivity;
    try (apply SFleb_nonneg_infinity; apply Hnn; exact I);
    try (destruct sa, sb; reflexivity);
    try (destruct sa, sb, sa', sb'; reflexivity);
    try (destruct sa, sb, sa'; reflexivity);
    try (destruct sa, sb, sb'; reflexivity);
    try exact Haa; try exact Hbb;
    simpl in Va, Va', Vb, Vb'.
  all: try (pose proof (bounded_canonical _ _ Va) as Ca; destruct (canonical_digits _ _ Ca) as (Hea & _ & _)).
  all: try (pose proof (bounded_canonical _ _ Va') as Ca'; destruct (canonical_digits _ _ Ca') as (Hea' & _ & _)).
  all: try (pose proof (bounded_canonical _ _ Vb) as Cb; destruct (canonical_digits _ _ Cb) as (Heb & _ & _)).
  all: try (pose proof (bounded_canonical _ _ Vb') as Cb'; destruct (canonical_digits _ _ Cb') as (Heb' & _ & _)).
  all: try (apply (SFleb_val _ _ _ _ Ca Ca') in Haa).
  all: try (apply (SFleb_val _ _ _ _ Cb Cb') in Hbb).
  all: destruct (SFadd_core ma' ea' mb' eb' Hea' Heb') as (mz' & ez' & E' & Hv' & Hez' & Hn').
  all: try (destruct (SFadd_core ma ea mb eb Hea Heb) as (mz & ez & E & Hv & Hez & Hn)).
  all: rewrite E' in *.
  - assert (Hr : SF_nonneg (binary_round_aux prec emax false (Z.pos mz') ez' loc_Exact))
      by (rewrite <- E'; apply Hnn; exact I).
    destruct sa, sb; apply (SFleb_zero_nonneg _ _ Hr).
  - change (SF64add (S754_zero sa) (S754_finite false mb eb)) with (S754_finite false mb eb).
    apply SFleb_round_lower; try assumption; try reflexivity.
    rewrite Hv'. pose proof (Hval ma' ea'). lia.
  - change (SF64add (S754_finite false ma ea) (S754_zero sb)) with (S754_finite false ma ea).
    apply SFleb_round_lower; try assumption; try reflexivity.
    rewrite Hv'. pose proof (Hval mb' eb'). lia.
  - rewrite E in *. apply binary_round_aux_mono; try assumption; try reflexivity. lia.
Qed.

Local Open Scope float_scope.

(** A sum of numbers that are not negative grows with its terms. *)
Lemma add_le_mono (a a' b b' : float) :
  (0 <=? a) = true -> (a <=? a') = true ->
  (0 <=? b) = true -> (b <=? b') = true ->
  (a + b <=? a' + b') = true.
Proof.
  intros Ha Haa Hb Hbb.
  pose proof (Prim2SF_valid (a + b)) as V1. pose proof (Prim2SF_valid (a' + b')) as V2.
  rewrite add_spec in V1, V2.
  apply leb_zero_iff in Ha, Hb. rewrite leb_spec in *. rewrite !add_spec.
  apply SFadd_le_mono; try assumption; apply Prim2SF_valid.
Qed.

End SumsKeepOrder.

(** ** Part XIV: worse weather never shortens a trip *)

Section Monotone.

Lemma ltb_zero_of_leb_one (f : float) : (1 <=? f)%float = true -> (0 <? f)%float = true.
Proof.
  intros H. rewrite ltb_spec. change (Prim2SF 0) with (S754_zero false).
  destruct (leb_one_SF f H) as [(m & e & -> & _)| ->]; reflexivity.
Qed.

Lemma py_max_mono (a a' b b' : float) :
  (a <=? a')%float = true -> (b <=? b')%float = true ->
  (py_max a b <=? py_max a' b')%float = true.
Proof.
  intros Ha Hb. unfold py_max.
  pose proof (leb_not_nan_r _ _ Ha) as Na'. pose proof (leb_not_nan_r _ _ Hb) as Nb'.
  destruct (a <? b)%float eqn:E1, (a' <? b')%float eqn:E2; try assumption.
  - apply leb_trans with (y := b'); [assumption|]. now apply ltb_total.
  - apply leb_trans with (y := a'); [assumption|]. now apply ltb_leb.
Qed.

Lemma apply_weather_to_matrix_monotone_aux (n : nat) (base : matrix)
  (factors factors' : list float) :
  is_square n base -> nonneg_matrix base -> length factors = n ->
  Forall2 (fun f f' => (1 <=? f)%float = true /\ (f <=? f')%float = true
                       /\ is_finite f' = true) factors factors' ->
  exists m m',
    apply_weather_to_matrix base factors = Ok m
    /\ apply_weather_to_matrix base factors' = Ok m'
    /\ forall i j, i < n -> j < n ->
         exists x x', entry m i j = Some x /\ entry m' i j = Some x'
                      /\ (0 <=? x)%float = true /\ (x <=? x')%float = true.
Proof.
  intros Hsq Hnn Hlen HF.
  assert (Hlen' : length factors' = n) by (rewrite <- (Forall2_length HF); exact Hlen).
  destruct (apply_weather_to_matrix_spec n base factors Hsq Hlen)
    as (m & Hrun & Hsqm & Hdiag & Hoff).
  destruct (apply_weather_to_matrix_spec n base factors' Hsq Hlen')
    as (m' & Hrun' & Hsqm' & Hdiag' & Hoff').
  exists m, m'. repeat (split; [assumption|]).
  intros i j Hi Hj. destruct (Nat.eq_dec i j) as [<-|Hij].
  - exists 0%float, 0%float. rewrite Hdiag, Hdiag' by assumption. repeat split; reflexivity.
  - destruct (Hoff i j Hi Hj Hij) as (b & fi & fj & Hb & Hfi & Hfj & Hm).
    destruct (Hoff' i j Hi Hj Hij) as (b' & fi' & fj' & Hb' & Hfi' & Hfj' & Hm').
    assert (b' = b) by congruence. subst b'.
    destruct (Forall2_nth_error _ _ _ HF i fi Hfi) as (gi & Hgi & Hi1 & Hile & Hifin).
    destruct (Forall2_nth_error _ _ _ HF j fj Hfj) as (gj & Hgj & Hj1 & Hjle & Hjfin).
    assert (gi = fi') by congruence. assert (gj = fj') by congruence. subst gi gj.
    pose proof (Hnn i j b Hb) as Hb0.
    assert (Hmax1 : (1 <=? py_max fi fj)%float = true)
      by (destruct (py_max_cases fi fj) as [-> | ->]; assumption).
    assert (Hmaxfin : is_finite (py_max fi' fj') = true)
      by (destruct (py_max_cases fi' fj') as [-> | ->]; assumption).
    exists (b * py_max fi fj)%float, (b * py_max fi' fj')%float.
    repeat (split; [assumption|]). split.
    + apply leb_zero_trans with (x := b); [assumption|].
      apply mul_ge_self; [assumption|assumption|].
      destruct (py_max_cases fi fj) as [-> | ->].
      * apply (between_finite 1 fi'); auto.
      * apply (between_finite 1 fj'); auto.
    + apply mul_le_mono; try assumption.
      * apply leb_refl. now apply (leb_not_nan_r 0%float).
      * now apply ltb_zero_of_leb_one.
      * now apply py_max_mono.
Qed.

(** Raising factors raises, or keeps, every entry of the adjusted matrix,
    and no entry is negative. *)
Theorem apply_weather_to_matrix_monotone (n : nat) (base : matrix)
  (factors factors' : list float) :
  is_square n base -> nonneg_matrix base -> length factors = n ->
  Forall2 (fun f f' => (1 <=? f)%float = true /\ (f <=? f')%float = true
                       /\ is_finite f' = true) factors factors' ->
  exists m m',
    apply_weather_to_matrix base factors = Ok m
    /\ apply_weather_to_matrix base factors' = Ok m'
    /\ forall i j, i < n -> j < n ->
         exists x x', entry m i j = Some x /\ entry m' i j = Some x'
                      /\ (0 <=? x)%float = true /\ (x <=? x')%float = true.
Proof. apply apply_weather_to_matrix_monotone_aux. Qed.

Lemma apply_weather_to_matrix_monotone_witness :
  exists m m',
    apply_weather_to_matrix sample_base neutral_factors = Ok m
    /\ apply_weather_to_matrix sample_base sample_factors = Ok m'
    /\ forall i j, i < 2 -> j < 2 ->
         exists x x', entry m i j = Some x /\ entry m' i j = Some x'
                      /\ (0 <=? x)%float = true /\ (x <=? x')%float = true.
Proof.
  apply (apply_weather_to_matrix_monotone 2 sample_base neutral_factors sample_factors).
  - apply is_square_b_sound. vm_compute. reflexivity.
  - apply nonneg_matrix_b_sound. vm_compute. reflexivity.
  - reflexivity.
  - repeat constructor; vm_compute; reflexivity.
Defined.

(** The sum along a tour grows with the entries of the matrix. *)
Lemma total_minutes_mono (tm tm' : matrix) (ls : list (nat * nat)) :
  (forall i j x x', entry tm i j = Some x -> entry tm' i j = Some x' ->
     (0 <=? x)%float = true /\ (x <=? x')%float = true) ->
  forall acc acc' total total',
    (0 <=? acc)%float = true -> (acc <=? acc')%float = true ->
    for_each ls (fun ab t =>
      x <- getitem2 tm (fst ab) (snd ab) ;; Ok (t + x)%float) acc = Ok total ->
    for_each ls (fun ab t =>
      x <- getitem2 tm' (fst ab) (snd ab) ;; Ok (t + x)%float) acc' = Ok total' ->
    (total <=? total')%float = true.
Proof.
  intros Hle. induction ls as [|[a b] ls IH]; intros acc acc' total total' H0 Hacc H H';
    simpl in H, H'.
  - inversion H; inversion H'; subst. assumption.
  - apply bind_ok in H. destruct H as (t1 & Hstep & Hrest).
    apply bind_ok in Hstep. destruct Hstep as (x & Hx & Ht1). inversion Ht1; subst t1.
    apply bind_ok in H'. destruct H' as (t1' & Hstep' & Hrest').
    apply bind_ok in Hstep'. destruct Hstep' as (x' & Hx' & Ht1'). inversion Ht1'; subst t1'.
    apply getitem2_entry in Hx, Hx'. cbn [fst snd] in *.
    destruct (Hle a b x x' Hx Hx') as [Hx0 Hxx].
    apply (IH (acc + x)%float (acc' + x')%float total total'); try assumption.
    + now apply add_nonneg.
    + now apply add_le_mono.
Qed.

(** For one and the same visiting order, raising weather factors never
    lowers the total [solve_tsp] reports. *)
Theorem solve_tsp_total_monotone (solver solver' : Solver) (fuel fuel' : nat)
  (n start : nat) (base : matrix) (factors factors' : list float) (m m' : matrix)
  (order : list nat) (total total' : float) :
  is_square n base -> nonneg_matrix base -> length factors = n ->
  Forall2 (fun f f' => (1 <=? f)%float = true /\ (f <=? f')%float = true
                       /\ is_finite f' = true) factors factors' ->
  apply_weather_to_matrix base factors = Ok m ->
  apply_weather_to_matrix base factors' = Ok m' ->
  solve_tsp solver fuel m start = Some (Ok (order, total)) ->
  solve_tsp solver' fuel' m' start = Some (Ok (order, total')) ->
  (total <=? total')%float = true.
Proof.
  intros Hsq Hnn Hlen HF Hm Hm' Hrun Hrun'.
  destruct (apply_weather_to_matrix_monotone_aux n base factors factors' Hsq Hnn Hlen HF)
    as (m0 & m0' & E & E' & Hle).
  assert (m0 = m) by congruence. assert (m0' = m') by congruence. subst m0 m0'.
  apply solve_tsp_returns in Hrun, Hrun'. unfold total_minutes in Hrun, Hrun'.
  assert (Hsqm : is_square n m).
  { destruct (apply_weather_to_matrix_spec n base factors Hsq Hlen) as (m0 & E0 & Hs & _).
    congruence. }
  apply (total_minutes_mono m m' (legs order)) with (acc := 0%float) (acc' := 0%float)
                                                    (total := total) (total' := total');
    try assumption; try reflexivity.
  intros i j x x' Hx Hx'. destruct (entry_in_range n m i j x Hsqm Hx) as [Hi Hj].
  destruct (Hle i j Hi Hj) as (y & y' & Hy & Hy' & H0 & Hyy).
  assert (y = x) by congruence. assert (y' = x') by congruence. subst. auto.
Qed.

Lemma solve_tsp_total_monotone_witness : (20.75 <=? 0x1.8466666666666p+4)%float = true.
Proof.
  apply (solve_tsp_total_monotone index_order_solver index_order_solver 3 3 3 0
           sample_times clear_sky rain_at_second sample_times rainy_times
           [0; 1; 2; 0] 20.75%float 0x1.8466666666666p+4%float).
  - apply is_square_b_sound. vm_compute. reflexivity.
  - apply nonneg_matrix_b_sound. vm_compute. reflexivity.
  - reflexivity.
  - repeat constructor; vm_compute; reflexivity.
  - vm_compute. reflexivity.
  - vm_compute. reflexivity.
  - vm_compute. reflexivity.
  - vm_compute. reflexivity.
Defined.

Section ArcCosts.
Local Open Scope Z_scope.

(** [int(round(x))] of a positive float, read on its value. *)
Lemma round_half_even_nearest (m e : Z) :
  - bias <= e -> round_half_even m e = nearest_even (val m e) (2 ^ bias).
Proof.
  intros He. assert (Hb : bias = 2200) by reflexivity.
  assert (HB : 0 < 2 ^ bias) by (apply pow2_pos; lia).
  unfold round_half_even, val. destruct (Z.leb_spec 0 e) as [Hpos|Hneg].
  - rewrite (Z.pow_add_r 2 e bias) by lia.
    replace (m * (2 ^ e * 2 ^ bias)) with (m * 2 ^ e * 2 ^ bias) by ring.
    now rewrite nearest_even_exact.
  - change (nearest_even m (2 ^ (- e)) = nearest_even (m * 2 ^ (e + bias)) (2 ^ bias)).
    replace (2 ^ bias) with (2 ^ (- e) * 2 ^ (e + bias))
      by (rewrite <- Z.pow_add_r by lia; f_equal; lia).
    symmetry. apply nearest_even_scale; apply pow2_pos; lia.
Qed.

Lemma py_round_mono (u v : float) (z z' : Z) :
  (0 <=? u)%float = true -> (u <=? v)%float = true ->
  py_round u = Ok z -> py_round v = Ok z' -> z <= z'.
Proof.
  intros Hu Huv. unfold py_round.
  pose proof (Prim2SF_valid u) as Vu. pose proof (Prim2SF_valid v) as Vv.
  apply leb_zero_iff in Hu. rewrite leb_spec in Huv.
  assert (Hb : bias = 2200) by reflexivity.
  assert (HB : 0 < 2 ^ bias) by (apply pow2_pos; lia).
  destruct (Prim2SF u) as [s|[]| |[] m e]; try contradiction; try discriminate;
    destruct (Prim2SF v) as [s'|[]| |[] m' e']; try discriminate;
    intros H H'; inversion H; inversion H'; subst; cbn [cond_Zopp]; try lia.
  - apply round_half_even_nonneg. lia.
  - simpl in Vu, Vv. apply bounded_canonical in Vu, Vv.
    destruct (canonical_digits _ _ Vu) as (He & _ & _).
    destruct (canonical_digits _ _ Vv) as (He' & _ & _).
    rewrite !round_half_even_nearest by lia.
    apply nearest_even_mono; [assumption|]. now apply SFleb_val.
Qed.

End ArcCosts.

Lemma time_callback_mono (tm tm' : matrix) (manager : RoutingIndexManager)
  (from_index to_index : nat) (z z' : Z) :
  (forall i j x x', entry tm i j = Some x -> entry tm' i j = Some x' ->
     (0 <=? x)%float = true /\ (x <=? x')%float = true) ->
  time_callback tm manager from_index to_index = Ok z ->
  time_callback tm' manager from_index to_index = Ok z' ->
  (z <= z')%Z.
Proof.
  intros Hle H H'. unfold time_callback in H, H'.
  apply bind_ok in H. destruct H as (x & Hx & Hz).
  apply bind_ok in H'. destruct H' as (x' & Hx' & Hz').
  apply getitem2_entry in Hx, Hx'.
  destruct (Hle _ _ x x' Hx Hx') as [H0 Hxx].
  apply (py_round_mono (x * 100)%float (x' * 100)%float z z'); try assumption.
  - apply mul_nonneg; [assumption|reflexivity|reflexivity|right; reflexivity].
  - apply mul_le_mono; try assumption; reflexivity.
Qed.

(** Raising weather factors never lowers an arc cost handed to the solver. *)
Theorem time_callback_monotone (n : nat) (base : matrix) (factors factors' : list float)
  (m m' : matrix) (manager : RoutingIndexManager) (from_index to_index : nat) (z z' : Z) :
  is_square n base -> nonneg_matrix base -> length factors = n ->
  Forall2 (fun f f' => (1 <=? f)%float = true /\ (f <=? f')%float = true
                       /\ is_finite f' = true) factors factors' ->
  apply_weather_to_matrix base factors = Ok m ->
  apply_weather_to_matrix base factors' = Ok m' ->
  time_callback m manager from_index to_index = Ok z ->
  time_callback m' manager from_index to_index = Ok z' ->
  (z <= z')%Z.
Proof.
  intros Hsq Hnn Hlen HF Hm Hm' Hz Hz'.
  destruct (apply_weather_to_matrix_monotone_aux n base factors factors' Hsq Hnn Hlen HF)
    as (m0 & m0' & E & E' & Hle).
  assert (m0 = m) by congruence. assert (m0' = m') by congruence. subst m0 m0'.
  assert (Hsqm : is_square n m).
  { destruct (apply_weather_to_matrix_spec n base factors Hsq Hlen) as (m0 & E0 & Hs & _).
    congruence. }
  apply (time_callback_mono m m' manager from_index to_index z z'); try assumption.
  intros i j x x' Hx Hx'. destruct (entry_in_range n m i j x Hsqm Hx) as [Hi Hj].
  destruct (Hle i j Hi Hj) as (y & y' & Hy & Hy' & H0 & Hyy).
  assert (y = x) by congruence. assert (y' = x') by congruence. subst. auto.
Qed.

Lemma time_callback_monotone_witness : (425 <= 552)%Z.
Proof.
  apply (time_callback_monotone 3 sample_times clear_sky rain_at_second sample_times
           rainy_times {| num_nodes := 3; depot := 0 |} 1 2 425 552).
  - apply is_square_b_sound. vm_compute. reflexivity.
  - apply nonneg_matrix_b_sound. vm_compute. reflexivity.
  - reflexivity.
  - repeat constructor; vm_compute; reflexivity.
  - vm_compute. reflexivity.
  - vm_compute. reflexivity.
  - vm_compute. reflexivity.
  - vm_compute. reflexivity.
Defined.

End Monotone.

(** ** Part XV: the factor grows with the weather *)

Section NumbersInOrder.
Local Open Scope Z_scope.

Lemma val_positive (m : positive) (e : Z) : - bias <= e -> 0 < val (Z.pos m) e.
Proof.
  intros He. unfold val. apply Z.mul_pos_pos; [lia|]. apply pow2_pos. lia.
Qed.

Lemma xle_trans (a b c : xnum) : xle a b -> xle b c -> xle a c.
Proof. destruct a, b, c; simpl; try tauto; lia. Qed.

(** The order of binary64 numbers is the order of their values. *)
Lemma SFleb_value (x y : spec_float) :
  valid_binary x = true -> valid_binary y = true ->
  (SFleb x y = true <-> xle (SF_value x) (SF_value y)).
Proof.
  intros Vx Vy. assert (Hb : bias = 2200) by reflexivity.
  destruct x as [s1|[]| |s1 m1 e1], y as [s2|[]| |s2 m2 e2];
    cbn [SF_value xle valid_binary] in *;
    try solve [split; [intros _; exact I|intros _; reflexivity]];
    try solve [split; [discriminate|intros []]];
    try solve [split; [intros _; apply Z.le_refl|intros _; reflexivity]].
  - (* zero, finite *)
    apply bounded_canonical in Vy. destruct (canonical_digits _ _ Vy) as (He & _ & _).
    pose proof (val_positive m2 e2 ltac:(lia)).
    destruct s2; cbn [cond_Zopp]; split; try discriminate; try lia; reflexivity.
  - (* finite, zero *)
    apply bounded_canonical in Vx. destruct (canonical_digits _ _ Vx) as (He & _ & _).
    pose proof (val_positive m1 e1 ltac:(lia)).
    destruct s1; cbn [cond_Zopp]; split; try discriminate; try lia; reflexivity.
  - (* finite, finite *)
    apply bounded_canonical in Vx, Vy.
    destruct (canonical_digits _ _ Vx) as (He1 & _ & _).
    destruct (canonical_digits _ _ Vy) as (He2 & _ & _).
    pose proof (val_positive m1 e1 ltac:(lia)). pose proof (val_positive m2 e2 ltac:(lia)).
    destruct s1, s2; cbn [cond_Zopp].
    + change (SFleb (S754_finite true m1 e1) (S754_finite true m2 e2))
        with (SFleb (SFopp (S754_finite false m1 e1)) (SFopp (S754_finite false m2 e2))).
      unfold SFleb. rewrite SFcompare_opp.
      change (match SFcompare (S754_finite false m2 e2) (S754_finite false m1 e1) with
              | Some (Eq | Lt) => true
              | _ => false
              end) with (SFleb (S754_finite false m2 e2) (S754_finite false m1 e1)).
      rewrite (SFleb_val _ _ _ _ Vy Vx). lia.
    + split; [intros _; lia|reflexivity].
    + split; [discriminate|lia].
    + apply SFleb_val; assumption.
Qed.

(** The exact comparison of a float with an integer compares their values. *)
Lemma float_cmp_int_value (x : float) (z : Z) :
  float_cmp_int x z =
  match SF_value (Prim2SF x) with
  | NotANumber => None
  | NegInf => Some Lt
  | PosInf => Some Gt
  | Fin v => Some (v ?= z * 2 ^ bias)
  end.
Proof.
  unfold float_cmp_int. pose proof (Prim2SF_valid x) as V.
  assert (Hb : bias = 2200) by reflexivity.
  assert (HB : 0 < 2 ^ bias) by (apply pow2_pos; lia).
  destruct (Prim2SF x) as [s|[]| |s m e]; cbn [SF_value]; cbv beta iota zeta;
    try reflexivity.
  - f_equal. rewrite (Zmult_compare_compat_r 0 z (2 ^ bias)) by lia. reflexivity.
  - simpl in V. apply bounded_canonical in V. destruct (canonical_digits _ _ V) as (He & _ & _).
    assert (Hv : cond_Zopp s (val (Z.pos m) e) = cond_Zopp s (Z.pos m) * 2 ^ (e + bias)).
    { unfold val. destruct s; cbn [cond_Zopp]; [symmetry; apply Z.mul_opp_l|reflexivity]. }
    rewrite Hv. set (v := cond_Zopp s (Z.pos m)).
    destruct (Z.leb_spec 0 e) as [Hpos|Hneg]; f_equal.
    + rewrite (Zmult_compare_compat_r (v * 2 ^ e) z (2 ^ bias)) by lia.
      rewrite (Z.pow_add_r 2 e bias) by lia. f_equal. ring.
    + assert (HE : 0 < 2 ^ (e + bias)) by (apply pow2_pos; lia).
      rewrite (Zmult_compare_compat_r v (z * 2 ^ (- e)) (2 ^ (e + bias))) by lia.
      f_equal. rewrite <- Z.mul_assoc, <- Z.pow_add_r by lia. do 2 f_equal. lia.
Qed.

(** [a >= b] on Python numbers is the order of their values. *)
Lemma py_ge_value (a b : pynum) :
  py_ge a b = true <-> xle (py_value b) (py_value a).
Proof.
  assert (Hb : bias = 2200) by reflexivity.
  assert (HB : 0 < 2 ^ bias) by (apply pow2_pos; lia).
  destruct a as [x|x], b as [y|y]; unfold py_ge, py_value.
  - cbn [xle]. rewrite Z.leb_le. split; intros H; nia.
  - rewrite float_cmp_int_value.
    destruct (SF_value (Prim2SF y)) as [|v| |]; cbn [xle];
      try solve [split; [intros _; exact I|intros _; reflexivity]];
      try solve [split; [discriminate|intros []]].
    destruct (Z.compare_spec v (x * 2 ^ bias)) as [E|E|E]; split; intros H;
      try reflexivity; try discriminate; lia.
  - rewrite float_cmp_int_value.
    destruct (SF_value (Prim2SF x)) as [|v| |]; cbn [xle];
      try solve [split; [intros _; exact I|intros _; reflexivity]];
      try solve [split; [discriminate|intros []]].
    destruct (Z.compare_spec v (y * 2 ^ bias)) as [E|E|E]; split; intros H;
      try reflexivity; try discriminate; lia.
  - rewrite leb_spec. apply SFleb_value; apply Prim2SF_valid.
Qed.

Lemma py_ge_trans (a b c : pynum) :
  py_ge a b = true -> py_ge b c = true -> py_ge a c = true.
Proof.
  rewrite !py_ge_value. intros Hab Hbc. eapply xle_trans; eassumption.
Qed.

End NumbersInOrder.

(** More precipitation, snowfall, wind or gusts never gives a smaller
    factor. *)
Theorem weather_factor_monotone (precip snow wind gust precip' snow' wind' gust' : pynum) :
  py_ge precip' precip = true -> py_ge snow' snow = true ->
  py_ge wind' wind = true -> py_ge gust' gust = true ->
  (weather_factor precip snow wind gust <=? weather_factor precip' snow' wind' gust')%float
  = true.
Proof.
  intros Hp Hs Hw Hg.
  pose proof (fun t => py_ge_trans precip' precip t Hp) as Tp.
  pose proof (fun t => py_ge_trans snow' snow t Hs) as Ts.
  pose proof (fun t => py_ge_trans wind' wind t Hw) as Tw.
  pose proof (fun t => py_ge_trans gust' gust t Hg) as Tg.
  pose proof (Tp (PyFloat 0.5)) as H1. pose proof (Tp (PyFloat 5.0)) as H2.
  pose proof (Ts (PyFloat 0.1)) as H3. pose proof (Ts (PyFloat 1.0)) as H4.
  pose proof (Tw (PyInt 30)) as H5. pose proof (Tg (PyInt 50)) as H6.
  clear Tp Ts Tw Tg Hp Hs Hw Hg.
  unfold weather_factor.
  destruct (py_ge precip (PyFloat 0.5)), (py_ge precip' (PyFloat 0.5));
    try (specialize (H1 eq_refl); discriminate); clear H1;
  destruct (py_ge precip (PyFloat 5.0)), (py_ge precip' (PyFloat 5.0));
    try (specialize (H2 eq_refl); discriminate); clear H2;
  destruct (py_ge snow (PyFloat 0.1)), (py_ge snow' (PyFloat 0.1));
    try (specialize (H3 eq_refl); discriminate); clear H3;
  destruct (py_ge snow (PyFloat 1.0)), (py_ge snow' (PyFloat 1.0));
    try (specialize (H4 eq_refl); discriminate); clear H4;
  destruct (py_ge wind (PyInt 30)), (py_ge wind' (PyInt 30));
    try (specialize (H5 eq_refl); discriminate); clear H5;
  destruct (py_ge gust (PyInt 50)), (py_ge gust' (PyInt 50));
    try (specialize (H6 eq_refl); discriminate); clear H6;
  vm_compute; reflexivity.
Qed.

Lemma weather_factor_monotone_witness :
  (weather_factor (PyFloat 0.2) (PyInt 0) (PyFloat 12.0) (PyFloat 20.5)
   <=? weather_factor (PyFloat 5.0) (PyFloat 1.0) (PyInt 30) (PyInt 50))%float = true.
Proof.
  apply weather_factor_monotone; vm_compute; reflexivity.
Defined.

(** ** Part XVI: the cheapest tour under worse weather *)

Section CheapestTour.

Lemma closed_tour_bounded (n start : nat) (order : list nat) :
  closed_tour n start order -> Forall (fun k => k < n) order.
Proof.
  intros (p & -> & Hhd & _ & Hin). apply Forall_app. split.
  - apply Forall_forall. intros i Hi. now apply Hin.
  - constructor; [|constructor]. apply Hin.
    destruct p as [|a p]; [discriminate|]. inversion Hhd. now left.
Qed.

(** The total of a closed tour on a square matrix is defined. *)
Lemma closed_tour_total (n start : nat) (tm : matrix) (order : list nat) :
  is_square n tm -> closed_tour n start order ->
  exists total, total_minutes tm order = Ok total.
Proof.
  intros Hsq Hct.
  destruct (tour_cost_defined n tm order Hsq (closed_tour_bounded _ _ _ Hct) 0%float)
    as (total & Htotal).
  exists total. unfold total_minutes. now apply total_minutes_tour_cost.
Qed.

(** Replacing one factor by a larger, finite one raises the factor list. *)
Lemma replace_nth_raises (factors : list float) (g : float) : forall k fk,
  (forall f, In f factors -> (1 <=? f)%float = true /\ is_finite f = true) ->
  nth_error factors k = Some fk -> (fk <=? g)%float = true -> is_finite g = true ->
  Forall2 (fun f f' => (1 <=? f)%float = true /\ (f <=? f')%float = true
                       /\ is_finite f' = true) factors (replace_nth factors k g).
Proof.
  assert (Hsame : forall l : list float,
            (forall f, In f l -> (1 <=? f)%float = true /\ is_finite f = true) ->
            Forall2 (fun f f' => (1 <=? f)%float = true /\ (f <=? f')%float = true
                                 /\ is_finite f' = true) l l).
  { induction l as [|f l IH]; intros Hall; constructor.
    - destruct (Hall f (or_introl eq_refl)) as [H1 Hfin]. repeat split; try assumption.
      apply leb_refl. now apply is_finite_not_nan.
    - apply IH. intros f' Hf'. apply Hall. now right. }
  induction factors as [|f factors IH]; intros [|k] fk Hall Hk Hle Hfin; try discriminate;
    simpl in *.
  - inversion Hk; subst f. constructor.
    + repeat split; try assumption. apply (Hall fk). now left.
    + apply Hsame. intros f' Hf'. apply Hall. now right.
  - constructor.
    + destruct (Hall f (or_introl eq_refl)) as [H1 Hf]. repeat split; try assumption.
      apply leb_refl. now apply is_finite_not_nan.
    + apply (IH k fk); try assumption. intros f' Hf'. apply Hall. now right.
Qed.

(** A cheapest tour before the factors rise costs no more than any closed
    tour after. *)
Lemma cheapest_total_mono (n start : nat) (base : matrix) (factors factors' : list float) :
  is_square n base -> nonneg_matrix base -> length factors = n ->
  Forall2 (fun f f' => (1 <=? f)%float = true /\ (f <=? f')%float = true
                       /\ is_finite f' = true) factors factors' ->
  exists m m',
    apply_weather_to_matrix base factors = Ok m
    /\ apply_weather_to_matrix base factors' = Ok m'
    /\ forall order order',
         optimal_tour n start m order -> closed_tour n start order' ->
         exists total total',
           total_minutes m order = Ok total /\ total_minutes m' order' = Ok total'
           /\ (total <=? total')%float = true.
Proof.
  intros Hsq Hnn Hlen HF.
  assert (Hlen' : length factors' = n) by (rewrite <- (Forall2_length HF); exact Hlen).
  destruct (apply_weather_to_matrix_monotone_aux n base factors factors' Hsq Hnn Hlen HF)
    as (m & m' & Hm & Hm' & Hle).
  assert (Hsqm : is_square n m).
  { destruct (apply_weather_to_matrix_spec n base factors Hsq Hlen) as (m0 & E0 & Hs & _).
    congruence. }
  assert (Hsqm' : is_square n m').
  { destruct (apply_weather_to_matrix_spec n base factors' Hsq Hlen') as (m0 & E0 & Hs & _).
    congruence. }
  assert (Hentries : forall i j x x', entry m i j = Some x -> entry m' i j = Some x' ->
            (0 <=? x)%float = true /\ (x <=? x')%float = true).
  { intros i j x x' Hx Hx'. destruct (entry_in_range n m i j x Hsqm Hx) as [Hi Hj].
    destruct (Hle i j Hi Hj) as (y & y' & Hy & Hy' & H0 & Hyy).
    assert (y = x) by congruence. assert (y' = x') by congruence. subst. auto. }
  assert (Hnnm : nonneg_matrix m).
  { intros i j x Hx. destruct (entry_in_range n m i j x Hsqm Hx) as [Hi Hj].
    destruct (Hle i j Hi Hj) as (y & y' & Hy & _ & H0 & _).
    assert (y = x) by congruence. now subst. }
  exists m, m'. split; [assumption|]. split; [assumption|].
  intros order order' [Hct Hbest] Hct'.
  destruct (closed_tour_total n start m order Hsqm Hct) as (total & Ht).
  destruct (closed_tour_total n start m order' Hsqm Hct') as (mid & Hmid).
  destruct (closed_tour_total n start m' order' Hsqm' Hct') as (total' & Ht').
  exists total, total'. split; [assumption|]. split; [assumption|].
  apply leb_trans with (y := mid).
  - apply ltb_total.
    + apply (leb_not_nan_r 0%float).
      apply (total_minutes_nonneg m (legs order') Hnnm 0%float mid); [reflexivity|exact Hmid].
    + apply (leb_not_nan_r 0%float).
      apply (total_minutes_nonneg m (legs order) Hnnm 0%float total); [reflexivity|exact Ht].
    + apply (Hbest order' total mid); assumption.
  - apply (total_minutes_mono m m' (legs order') Hentries 0%float 0%float mid total');
      try reflexivity; assumption.
Qed.

(** With two nodes there is one closed tour from node 0. *)
Lemma closed_tour_two (order : list nat) :
  closed_tour 2 0 order <-> order = [0; 1; 0].
Proof.
  split.
  - intros (p & -> & Hhd & Hnd & Hin).
    assert (Hlen : length p = 2).
    { apply route_covers_length; [|assumption|intros i Hi; now apply Hin].
      apply Forall_forall. intros i Hi. now apply Hin. }
    destruct p as [|a [|b [|c p]]]; try discriminate.
    inversion Hhd; subst a.
    assert (Hb : b < 2) by (apply Hin; simpl; auto).
    assert (b <> 0).
    { intros ->. inversion Hnd as [|? ? Hnot _]. apply Hnot. now left. }
    replace b with 1 by lia. reflexivity.
  - intros ->. exists [0; 1]. split; [reflexivity|]. split; [reflexivity|]. split.
    + repeat constructor; simpl; intuition lia.
    + intros i. simpl. lia.
Qed.

End CheapestTour.



